(** * The luajs closure interpreter (vm/src/Closure.js): a shallow embedding

    The development follows the layout of the source file: host values and
    the textual conversions the handlers rely on, the floating point
    pattern, the activation record, the opcode handlers, the driver
    ([_run]) and the entry point ([execute]). *)

From Stdlib Require Import ZArith Lia Bool List Ascii String DecimalString DecimalPos.
From stdpp Require Import base option list strings gmap.

Local Open Scope string_scope.
Local Open Scope list_scope.
Local Open Scope Z_scope.

(** ** Numbers and their textual form *)

(** A host number as the Number-to-String conversion sees it: not-a-number,
    the two infinities, the two zeros, or a non-zero finite number given by
    the triple of that conversion: the decimal digits [s] (a positive
    integer with k digits) and the decimal exponent [n], denoting
    s * 10^(n - k). *)
Inductive number :=
  | NaN
  | Infinity (negative : bool)
  | Zero (negative : bool)
  | Finite (negative : bool) (s : positive) (n : Z).

Definition chars (s : string) : list ascii := list_ascii_of_string s.

Definition digits_of_pos (s : positive) : list ascii :=
  chars (NilEmpty.string_of_uint (Pos.to_uint s)).

Definition digits_of_N (e : N) : list ascii :=
  chars (NilEmpty.string_of_uint (N.to_uint e)).

Definition zeros (n : nat) : list ascii := replicate n "0"%char.

(** Number-to-String on a non-zero finite magnitude. *)
Definition finite_text (s : positive) (n : Z) : list ascii :=
  let ds := digits_of_pos s in
  let k := Z.of_nat (length ds) in
  if (k <=? n) && (n <=? 21) then
    ds ++ zeros (Z.to_nat (n - k))
  else if (0 <? n) && (n <=? 21) then
    take (Z.to_nat n) ds ++ chars "." ++ drop (Z.to_nat n) ds
  else if (-6 <? n) && (n <=? 0) then
    chars "0." ++ zeros (Z.to_nat (- n)) ++ ds
  else
    let e := n - 1 in
    let sign := if e <? 0 then chars "-" else chars "+" in
    let es := digits_of_N (Z.to_N (Z.abs e)) in
    match ds with
    | [d] => [d] ++ chars "e" ++ sign ++ es
    | d :: rest => [d] ++ chars "." ++ rest ++ chars "e" ++ sign ++ es
    | [] => []
    end.

Definition number_text (x : number) : list ascii :=
  match x with
  | NaN => chars "NaN"
  | Infinity false => chars "Infinity"
  | Infinity true => chars "-Infinity"
  | Zero _ => chars "0"
  | Finite false s n => finite_text s n
  | Finite true s n => chars "-" ++ finite_text s n
  end.

Definition number_to_string (x : number) : string :=
  string_of_list_ascii (number_text x).

(** ** Regular expressions of the shape the source uses *)

Inductive regex :=
  | Eps
  | Class (p : ascii -> bool)
  | Seq (r1 r2 : regex)
  | Opt (r : regex)
  | Many (p : ascii -> bool)      (* [p]* *)
  | Many1 (p : ascii -> bool).    (* [p]+ *)

(** Greedy iteration of a character class, then the continuation. *)
Fixpoint many (p : ascii -> bool) (s : list ascii) (k : list ascii -> bool) : bool :=
  match s with
  | c :: s' => (p c && many p s' k) || k s
  | [] => k s
  end.

(** Backtracking matcher with a continuation for the rest of the pattern. *)
Fixpoint rmatch (r : regex) (s : list ascii) (k : list ascii -> bool) : bool :=
  match r with
  | Eps => k s
  | Class p => match s with c :: s' => p c && k s' | [] => false end
  | Seq r1 r2 => rmatch r1 s (fun s' => rmatch r2 s' k)
  | Opt r1 => rmatch r1 s k || k s
  | Many p => many p s k
  | Many1 p => match s with c :: s' => p c && many p s' k | [] => false end
  end.

Definition at_end (s : list ascii) : bool :=
  match s with [] => true | _ => false end.

(** [text.match (/^r$/)] is non-null. *)
Definition matches (r : regex) (text : string) : bool :=
  rmatch r (chars text) at_end.

Definition is_digit (c : ascii) : bool :=
  let n := nat_of_ascii c in (48 <=? n)%nat && (n <=? 57)%nat.
Definition is_sign (c : ascii) : bool := Ascii.eqb c "-" || Ascii.eqb c "+".
Definition is_dot (c : ascii) : bool := Ascii.eqb c ".".
Definition is_e (c : ascii) : bool := Ascii.eqb c "e" || Ascii.eqb c "E".

(** /^[-+]?[0-9]*\.?([0-9]+([eE][-+]?[0-9]+)?)?$/ *)
Definition FLOATING_POINT_PATTERN : regex :=
  Seq (Opt (Class is_sign))
   (Seq (Many is_digit)
    (Seq (Opt (Class is_dot))
     (Opt (Seq (Many1 is_digit)
           (Opt (Seq (Class is_e)
                 (Seq (Opt (Class is_sign)) (Many1 is_digit)))))))).

(** The language of a regular expression, as a relation. *)
Inductive Lang : regex -> list ascii -> Prop :=
  | L_eps : Lang Eps []
  | L_class p c : p c = true -> Lang (Class p) [c]
  | L_seq r1 r2 s1 s2 : Lang r1 s1 -> Lang r2 s2 -> Lang (Seq r1 r2) (s1 ++ s2)
  | L_opt_none r : Lang (Opt r) []
  | L_opt_some r s : Lang r s -> Lang (Opt r) s
  | L_many p s : forallb p s = true -> Lang (Many p) s
  | L_many1 p c s : p c = true -> forallb p s = true -> Lang (Many1 p) (c :: s).


(** ** Values *)

(** The values a register can hold.  Tables and callables are objects of
    the host heap and are named by reference. *)
Inductive value :=
  | VUndefined                (* nil *)
  | VBoolean (b : bool)
  | VNumber (x : number)
  | VString (s : string)
  | VTable (t : nat)          (* a luajs.Table *)
  | VFunction (f : nat).      (* anything with an [apply] method *)

(** A host array; [None] is a hole (an index that was never written or was
    deleted), which reads as undefined. *)
Abbreviation jsarray := (list (option value)).

Definition arr_get (xs : jsarray) (i : nat) : value :=
  match xs !! i with
  | Some (Some v) => v
  | _ => VUndefined
  end.

(** [xs[i] = v]: writing past the end extends the array with holes. *)
Definition arr_set (xs : jsarray) (i : nat) (v : value) : jsarray :=
  if (i <? length xs)%nat then <[i := Some v]> xs
  else xs ++ replicate (i - length xs) None ++ [Some v].

(** [delete xs[i]]: leaves a hole, the length is unchanged. *)
Definition arr_delete (xs : jsarray) (i : nat) : jsarray := <[i := None]> xs.

(** [xs.splice (i)]: removes every slot from index [i] on. *)
Definition arr_truncate (xs : jsarray) (i : nat) : jsarray := take i xs.

Definition dense (vs : list value) : jsarray := Some <$> vs.

Definition lookupZ {A} (xs : list A) (i : Z) : option A :=
  if i <? 0 then None else xs !! Z.to_nat i.

Definition number_of_nat (n : nat) : number :=
  match N.of_nat n with
  | N0 => Zero false
  | Npos p => Finite false p (Z.of_nat (length (digits_of_pos p)))
  end.

(** Numeric equality of a number with a small non-negative integer. *)
Definition number_eq_nat (x : number) (a : nat) : bool :=
  match x with
  | NaN | Infinity _ => false
  | Zero _ => (a =? 0)%nat
  | Finite neg s n =>
      let k := Z.of_nat (length (digits_of_pos s)) in
      negb neg &&
      (if k <=? n then Z.pos s * 10 ^ (n - k) =? Z.of_nat a
       else Z.pos s =? Z.of_nat a * 10 ^ (k - n))
  end.

(** Unary minus, which is exact. *)
Definition number_negate (x : number) : number :=
  match x with
  | NaN => NaN
  | Infinity neg => Infinity (negb neg)
  | Zero neg => Zero (negb neg)
  | Finite neg s n => Finite (negb neg) s n
  end.

(** Host truthiness, the negation of [!v]: undefined, false, zero, NaN and
    the empty string are falsy. *)
Definition js_truthy (v : value) : bool :=
  match v with
  | VUndefined => false
  | VBoolean b => b
  | VNumber NaN | VNumber (Zero _) => false
  | VNumber _ => true
  | VString s => negb (String.eqb s "")
  | VTable _ | VFunction _ => true
  end.

(** [v === 0] and [v === '']. *)
Definition is_zero (v : value) : bool :=
  match v with VNumber (Zero _) => true | _ => false end.
Definition is_empty_string (v : value) : bool :=
  match v with VString s => String.eqb s "" | _ => false end.

(** ** Errors *)

(** A language error (luajs.Error) carries a message, the host stack and the
    source-level stack [luaStack], which may be missing. *)
Record lua_error := {
  message : string;
  stack : option string;
  luaStack : option (list string)
}.

(** Any other thrown object: its [message] and [stack], either may be
    missing. *)
Record host_exception := {
  h_message : option string;
  h_stack : option string
}.

Inductive exn :=
  | LuaError (e : lua_error)
  | HostException (e : host_exception).

(** [new luajs.Error (msg)] *)
Definition new_Error (msg : string) : lua_error :=
  {| message := msg; stack := None; luaStack := None |}.

(** The host's TypeError, raised on a member access on undefined or on a
    call of something that is not a function.  The text of its message and
    stack is the engine's and is not modelled. *)
Definition TypeError : exn :=
  HostException {| h_message := Some "TypeError"; h_stack := None |}.

Inductive result (A : Type) :=
  | Ok (a : A)
  | Throw (e : exn).
Arguments Ok {A} a.
Arguments Throw {A} e.

(** ** Heap objects *)

(** Modelled from the spec: luajs.Table is an external collaborator, not
    part of these sources.  A table built from an array keeps that array's
    elements; [getMember]/[setMember] read and write named members; the
    metatable is an optional reference to another table. *)
Record table := {
  t_elements : jsarray;
  t_members : gmap string value;
  t_metatable : option nat
}.

Definition new_Table (elements : jsarray) : table :=
  {| t_elements := elements; t_members := ∅; t_metatable := None |}.

Definition getMember (t : table) (key : string) : value :=
  default VUndefined (t_members t !! key).

Definition setMember (t : table) (key : string) (v : value) : table :=
  {| t_elements := t_elements t;
     t_members := <[key := v]> (t_members t);
     t_metatable := t_metatable t |}.

(** An upvalue object created by CLOSURE for a MOVE pseudo-instruction:
    while [open] it stands for register [up_register] of the activation
    that created it, afterwards for [up_value]. *)
Record upvalue := {
  open : bool;
  up_value : value;
  up_register : nat;
  up_name : option string
}.

(** What a new function receives for each of its upvalues. *)
Inductive upvalue_binding :=
  | Cell (c : nat)           (* a shared upvalue object, by reference *)
  | Delegate (b : nat).      (* get/set forwarded to the creator's upvalue b *)

(** A callable of the host heap. *)
Inductive funobj :=
  | HostFunction
  | LuaFunction (proto : nat) (upvalues : list upvalue_binding).

(** ** Prototypes and activations *)

Record instruction := {
  op : nat;
  A : nat;
  B : Z;       (* unsigned, except where the opcode reads it as sBx *)
  C : nat
}.

(** The Luac data of a function ([_data]); constants hold [None] for the
    null sentinel, nested functions are known here by their upvalue
    names. *)
Record prototype := {
  instructions : list instruction;
  constants : list (option value);
  functions : list (list string);
  linePositions : list nat;
  paramCount : nat;
  is_vararg : Z;
  sourceName : option string
}.

Record local := {
  registerIndex : nat;
  upvalue_ref : nat
}.

(** The mutable fields of a Closure instance. *)
Record closure := {
  _register : jsarray;
  _pc : Z;
  _localsUsedAsUpvalues : list local;
  _params : jsarray;
  _upvalues : list (option string);   (* the upvalues handed down by the parent, by name *)
  terminated : bool
}.

Inductive status := NoStatus | Running | Suspending | Suspended | Resuming.

Definition status_eqb (x y : status) : bool :=
  match x, y with
  | NoStatus, NoStatus | Running, Running | Suspending, Suspending
  | Suspended, Suspended | Resuming, Resuming => true
  | _, _ => false
  end.

(** luajs.Coroutine._running, when there is one.  Activations on a resume
    stack are named by their identity. *)
Record coroutine := {
  co_status : status;
  co_resumeStack : list nat;
  co_yieldVars : option jsarray;
  co_func_instance : nat
}.

(** Everything a handler can read or write: the activation itself ([this]),
    the host heap it reaches, and the two process-wide controllers. *)
Record machine := {
  this : closure;
  self : nat;                         (* identity of this activation *)
  cells : list upvalue;
  tables : list table;
  funs : list funobj;
  debug_status : status;
  debug_resumeStack : list nat;
  Coroutine_running : option coroutine
}.

(** What a call hands back: an array of values, or some other value. *)
Inductive jsret :=
  | RArray (vs : jsarray)
  | RValue (v : value).

Inductive arith_op := OpAdd | OpSub | OpMul | OpDiv | OpMod | OpPow.

(** The parts of the host and of the external collaborators that the
    handlers call into. *)
Record Host := {
  (* parseFloat on a text *)
  h_parseFloat : string -> number;
  (* the IEEE-754 operators +, -, *, /, % and Math.pow *)
  h_arith : arith_op -> number -> number -> number;
  (* the relational operator < ; it always yields a boolean *)
  h_less : value -> value -> bool;
  (* the textual form of an object (table or function) *)
  h_object_text : value -> string;
  (* the String-to-Number conversion used by == *)
  h_string_to_number : string -> number;
  (* property 0 of an object that is not an array *)
  h_object_index0 : value -> value;
  (* f.apply ({}, args) of a callable, as CALL writes it: a fresh object
     as the receiver, [args] as the argument list *)
  h_apply : nat -> jsarray -> machine -> result jsret * machine;
  (* f.apply (operands) of a callable, as the metamethod call sites write
     it: the array of operands is the receiver and there is no argument
     list *)
  h_apply_on : nat -> jsarray -> machine -> result jsret * machine;
  (* resuming an activation or coroutine taken from a resume stack *)
  h_resume : nat -> machine -> result jsret * machine;
  (* luajs.Coroutine._remove () *)
  h_Coroutine_remove : machine -> machine;
  (* the handlers that are not embedded below; none of them returns a value *)
  h_other_op : nat -> nat -> Z -> nat -> machine -> result unit * machine
}.

(** ** The handler monad: state passing with exceptions *)

(** A computation over the machine either yields a value or throws; in both
    cases the writes made so far persist. *)
Definition M (X : Type) : Type := machine -> result X * machine.

Definition ret {X} (x : X) : M X := fun m => (Ok x, m).
Definition throw {X} (e : exn) : M X := fun m => (Throw e, m).
Definition bind {X Y} (c : M X) (k : X -> M Y) : M Y :=
  fun m => match c m with
           | (Ok x, m') => k x m'
           | (Throw e, m') => (Throw e, m')
           end.
Definition get : M machine := fun m => (Ok m, m).
Definition modify (f : machine -> machine) : M unit := fun m => (Ok tt, f m).

Declare Scope handler_scope.
Delimit Scope handler_scope with handler.
Notation "'let*' x ':=' c 'in' k" := (bind c (fun x => k))
  (at level 10, x pattern, c at level 100, k at level 200) : handler_scope.
Notation "c ';;' k" := (bind c (fun _ => k))
  (at level 100, k at level 200, right associativity) : handler_scope.
Local Open Scope handler_scope.

Fixpoint forM {X} (xs : list X) (body : X -> M unit) : M unit :=
  match xs with
  | [] => ret tt
  | x :: xs' => body x ;; forM xs' body
  end.

Fixpoint mapM {X Y} (body : X -> M Y) (xs : list X) : M (list Y) :=
  match xs with
  | [] => ret []
  | x :: xs' => let* y := body x in let* ys := mapM body xs' in ret (y :: ys)
  end.

(** Field updates. *)
Definition with_this (f : closure -> closure) (m : machine) : machine :=
  {| this := f (this m); self := self m; cells := cells m; tables := tables m;
     funs := funs m; debug_status := debug_status m;
     debug_resumeStack := debug_resumeStack m;
     Coroutine_running := Coroutine_running m |}.

Definition with_cells (f : list upvalue -> list upvalue) (m : machine) : machine :=
  {| this := this m; self := self m; cells := f (cells m); tables := tables m;
     funs := funs m; debug_status := debug_status m;
     debug_resumeStack := debug_resumeStack m;
     Coroutine_running := Coroutine_running m |}.

Definition with_tables (f : list table -> list table) (m : machine) : machine :=
  {| this := this m; self := self m; cells := cells m; tables := f (tables m);
     funs := funs m; debug_status := debug_status m;
     debug_resumeStack := debug_resumeStack m;
     Coroutine_running := Coroutine_running m |}.

Definition with_funs (f : list funobj -> list funobj) (m : machine) : machine :=
  {| this := this m; self := self m; cells := cells m; tables := tables m;
     funs := f (funs m); debug_status := debug_status m;
     debug_resumeStack := debug_resumeStack m;
     Coroutine_running := Coroutine_running m |}.

Definition with_debug (s : status) (stk : list nat) (m : machine) : machine :=
  {| this := this m; self := self m; cells := cells m; tables := tables m;
     funs := funs m; debug_status := s; debug_resumeStack := stk;
     Coroutine_running := Coroutine_running m |}.

Definition with_coroutine (co : option coroutine) (m : machine) : machine :=
  {| this := this m; self := self m; cells := cells m; tables := tables m;
     funs := funs m; debug_status := debug_status m;
     debug_resumeStack := debug_resumeStack m;
     Coroutine_running := co |}.

Definition set_register (r : jsarray) (cl : closure) : closure :=
  {| _register := r; _pc := _pc cl;
     _localsUsedAsUpvalues := _localsUsedAsUpvalues cl; _params := _params cl;
     _upvalues := _upvalues cl; terminated := terminated cl |}.

Definition set_pc (pc : Z) (cl : closure) : closure :=
  {| _register := _register cl; _pc := pc;
     _localsUsedAsUpvalues := _localsUsedAsUpvalues cl; _params := _params cl;
     _upvalues := _upvalues cl; terminated := terminated cl |}.

Definition set_locals (ls : list local) (cl : closure) : closure :=
  {| _register := _register cl; _pc := _pc cl;
     _localsUsedAsUpvalues := ls; _params := _params cl;
     _upvalues := _upvalues cl; terminated := terminated cl |}.

Definition set_params (ps : jsarray) (cl : closure) : closure :=
  {| _register := _register cl; _pc := _pc cl;
     _localsUsedAsUpvalues := _localsUsedAsUpvalues cl; _params := ps;
     _upvalues := _upvalues cl; terminated := terminated cl |}.

Definition set_terminated (t : bool) (cl : closure) : closure :=
  {| _register := _register cl; _pc := _pc cl;
     _localsUsedAsUpvalues := _localsUsedAsUpvalues cl; _params := _params cl;
     _upvalues := _upvalues cl; terminated := t |}.

Definition set_co_status (s : status) (co : coroutine) : coroutine :=
  {| co_status := s; co_resumeStack := co_resumeStack co;
     co_yieldVars := co_yieldVars co; co_func_instance := co_func_instance co |}.

Definition set_co_resumeStack (stk : list nat) (co : coroutine) : coroutine :=
  {| co_status := co_status co; co_resumeStack := stk;
     co_yieldVars := co_yieldVars co; co_func_instance := co_func_instance co |}.

(** Register access on the activation. *)
Definition reg (m : machine) (i : nat) : value := arr_get (_register (this m)) i.

Definition write_reg (i : nat) (v : value) (m : machine) : machine :=
  with_this (fun cl => set_register (arr_set (_register cl) i v) cl) m.

Definition delete_reg (i : nat) (m : machine) : machine :=
  with_this (fun cl => set_register (arr_delete (_register cl) i) cl) m.

Definition truncate_reg (i : nat) (m : machine) : machine :=
  with_this (fun cl => set_register (arr_truncate (_register cl) i) cl) m.

Definition add_pc (d : Z) (m : machine) : machine :=
  with_this (fun cl => set_pc (_pc cl + d) cl) m.

(** [Coroutine._running && Coroutine._running.status == s] *)
Definition coroutine_is (s : status) (m : machine) : bool :=
  match Coroutine_running m with
  | Some co => status_eqb (co_status co) s
  | None => false
  end.

(** [stack.pop ()] *)
Definition pop {X} (stk : list X) : option X * list X :=
  (last stk, removelast stk).

(** [s.split ('\n')] *)
Fixpoint split_lines (s : string) : list string :=
  match s with
  | EmptyString => [EmptyString]
  | String c s' =>
      if Ascii.eqb c "010"%char then EmptyString :: split_lines s'
      else match split_lines s' with
           | line :: rest => String c line :: rest
           | [] => [String c EmptyString]
           end
  end.

(** ** Operation handlers *)

(** What [this] is bound to inside a handler.  [_executeInstruction] passes
    the Closure instance ([op.call (this, ...)]); a handler invoked as a
    plain function gets the global object (or undefined in strict code),
    on which [_register] is not defined. *)
Inductive receiver := ThisClosure | ThisGlobal.

Module Op.
Section Handlers.

Variable H : Host.
Variable data : prototype.

(** [this._getConstant (index)] *)
Definition _getConstant (index : nat) : value :=
  match constants data !! index with
  | Some (Some v) => v
  | _ => VUndefined
  end.

(** The operand decoding every handler repeats:
    [(x >= 256)? this._getConstant (x - 256) : this._register[x]] *)
Definition rk (m : machine) (x : nat) : value :=
  if (256 <=? x)%nat then _getConstant (x - 256) else reg m x.

Definition RK (x : nat) : M value :=
  let* m := get in ret (rk m x).

Definition set_reg (i : nat) (v : value) : M unit := modify (write_reg i v).
Definition incr_pc : M unit := modify (add_pc 1).

(** ['' + v] *)
Definition to_text (v : value) : string :=
  match v with
  | VUndefined => "undefined"
  | VBoolean true => "true"
  | VBoolean false => "false"
  | VNumber x => number_to_string x
  | VString s => s
  | VTable _ | VFunction _ => h_object_text H v
  end.

(** [parseFloat (v)] works on the textual form of its argument. *)
Definition parseFloat (v : value) : number := h_parseFloat H (to_text v).

(** [v == a] for a number [a] held in an instruction field. *)
Definition loose_eq (v : value) (a : nat) : bool :=
  match v with
  | VUndefined => false
  | VBoolean b => number_eq_nat (number_of_nat (if b then 1 else 0)) a
  | VNumber x => number_eq_nat x a
  | VString s => number_eq_nat (h_string_to_number H s) a
  | VTable _ | VFunction _ =>
      number_eq_nat (h_string_to_number H (h_object_text H v)) a
  end.

(** [f.apply (operands)], the form of the metamethod call sites: the array
    is handed over as the receiver, without an argument list.  Only
    callables have an [apply]. *)
Definition apply_value (f : value) (operands : jsarray) : M jsret :=
  match f with
  | VFunction id => h_apply_on H id operands
  | _ => throw TypeError
  end.

(** [f.apply ({}, args)], the form of CALL. *)
Definition apply_call (f : value) (args : jsarray) : M jsret :=
  match f with
  | VFunction id => h_apply H id args
  | _ => throw TypeError
  end.

(** [r[0]] on what a call handed back. *)
Definition index0 (r : jsret) : M value :=
  match r with
  | RArray vs => ret (arr_get vs 0)
  | RValue VUndefined => throw TypeError
  | RValue (VString (String c _)) => ret (VString (String c EmptyString))
  | RValue (VString EmptyString) | RValue (VBoolean _) | RValue (VNumber _) =>
      ret VUndefined
  | RValue v => ret (h_object_index0 H v)
  end.

(** [b instanceof luajs.Table && (mt = b.__luajs.metatable) &&
     (f = mt.getMember (name))]: the member when all three are truthy. *)
Definition metamethod (name : string) (v : value) : M (option value) :=
  let* m := get in
  ret (match v with
       | VTable t =>
           match tables m !! t with
           | Some tbl =>
               match t_metatable tbl with
               | Some mt =>
                   match tables m !! mt with
                   | Some mtt =>
                       let f := getMember mtt name in
                       if js_truthy f then Some f else None
                   | None => None
                   end
               | None => None
               end
           | None => None
           end
       | _ => None
       end).

Definition move (a b : nat) : M unit :=
  let* m := get in set_reg a (reg m b).

Definition loadk (a bx : nat) : M unit :=
  set_reg a (_getConstant bx).

Definition loadbool (a b c : nat) : M unit :=
  set_reg a (VBoolean (negb (b =? 0)%nat)) ;;
  if negb (c =? 0)%nat then incr_pc else ret tt.

Definition loadnil (a b : nat) : M unit :=
  forM (seq a (S b - a)) (fun i => set_reg i VUndefined).

Definition non_numeric : exn :=
  LuaError (new_Error "attempt to perform arithmetic on a non-numeric value").

(** The common body of add, sub, mul, div, mod and pow, which differ in the
    metamethod name and in the operator only. *)
Definition arith (o : arith_op) (name : string) (a b c : nat) : M unit :=
  let* vb := RK b in
  let* vc := RK c in
  let* f := metamethod name vb in
  match f with
  | Some f =>
      let* r := apply_value f [Some vb; Some vc] in
      let* v := index0 r in
      set_reg a v
  | None =>
      if negb (matches FLOATING_POINT_PATTERN (to_text vb))
         || negb (matches FLOATING_POINT_PATTERN (to_text vc))
      then throw non_numeric
      else set_reg a (VNumber (h_arith H o (parseFloat vb) (parseFloat vc)))
  end.

Definition add := arith OpAdd "__add".
Definition sub := arith OpSub "__sub".
Definition mul := arith OpMul "__mul".
Definition div := arith OpDiv "__div".
Definition mod_ := arith OpMod "__mod".
Definition pow := arith OpPow "__pow".

Definition unm (a b : nat) : M unit :=
  let* m := get in
  let vb := reg m b in
  let* f := metamethod "__unm" vb in
  match f with
  | Some f =>
      let* r := apply_value f [Some vb] in
      let* v := index0 r in
      set_reg a v
  | None =>
      if negb (matches FLOATING_POINT_PATTERN (to_text vb))
      then throw non_numeric
      else set_reg a (VNumber (number_negate (parseFloat vb)))
  end.

Definition not (a b : nat) : M unit :=
  let* m := get in set_reg a (VBoolean (negb (js_truthy (reg m b)))).

Definition jmp (a : nat) (sbx : Z) : M unit := modify (add_pc sbx).

Definition lt (a b c : nat) : M unit :=
  let* vb := RK b in
  let* vc := RK c in
  let* f := metamethod "__le" vb in
  let* result :=
    match f with
    | Some f =>
        let* r := apply_value f [Some vb; Some vc] in
        index0 r
    | None => ret (VBoolean (h_less H vb vc))
    end in
  if negb (loose_eq result a) then incr_pc else ret tt.

Definition test (a b c : nat) : M unit :=
  let* m := get in
  if is_zero (reg m a) || is_empty_string (reg m a) then
    (if (c =? 0)%nat then incr_pc else ret tt)
  else
    (if negb (Bool.eqb (negb (js_truthy (reg m a))) (c =? 0)%nat)
     then incr_pc else ret tt).

Definition testset (a b c : nat) : M unit :=
  let* m := get in
  if Bool.eqb (negb (js_truthy (reg m b))) (c =? 0)%nat then
    set_reg a (reg m b)
  else incr_pc.

(** [this._register], for a handler that may run on either receiver: on the
    global object it is undefined, and every use the handlers make of it (a
    member read, an indexed read or write, [splice]) raises a TypeError. *)
Definition this_register (r : receiver) : M jsarray :=
  match r with
  | ThisClosure => let* m := get in ret (_register (this m))
  | ThisGlobal => throw TypeError
  end.

Definition this_write (r : receiver) (i : nat) (v : value) : M unit :=
  this_register r ;; set_reg i v.

Definition this_truncate (r : receiver) (i : nat) : M unit :=
  this_register r ;; modify (truncate_reg i).

(** [typeof v.apply !== 'undefined'], as far as the model goes. *)
Definition has_apply (v : value) : bool :=
  match v with VFunction _ => true | _ => false end.

Definition call_non_function : exn :=
  LuaError (new_Error "Attempt to call non-function").

(** The result phase shared by [call] and the resumption in [_run]. *)
Definition splice_results (r : receiver) (a c : nat) (retvals : jsarray) : M unit :=
  if (c =? 0)%nat then
    let l := length retvals in
    forM (seq 0 l) (fun i => this_write r (a + i) (arr_get retvals i)) ;;
    this_truncate r (a + l)
  else
    forM (seq 0 (c - 1)) (fun i => this_write r (a + i) (arr_get retvals i)).

Definition call (r : receiver) (a b c : nat) : M unit :=
  let* m := get in
  (* Some retvals when an activation was resumed, None with the collected
     arguments otherwise *)
  let* resumed :=
    if status_eqb (debug_status m) Resuming then
      match pop (debug_resumeStack m) with
      | (Some funcToResume, rest) =>
          modify (with_debug (debug_status m) rest) ;;
          let* retvals := h_resume H funcToResume in
          ret (inl retvals)
      | (None, _) => throw TypeError
      end
    else if coroutine_is Resuming m then
      match Coroutine_running m with
      | Some co =>
          match pop (co_resumeStack co) with
          | (Some funcToResume, rest) =>
              modify (with_coroutine (Some (set_co_resumeStack rest co))) ;;
              let* retvals := h_resume H funcToResume in
              ret (inl retvals)
          | (None, _) => throw TypeError
          end
      | None => throw TypeError
      end
    else if (b =? 0)%nat then
      let* regs := this_register r in
      let l := length regs in
      let* args := mapM (fun i => let* regs := this_register r in
                                  ret (Some (arr_get regs i)))
                        (seq (a + 1) (l - (a + 1))) in
      ret (inr args)
    else
      let* args := mapM (fun i => let* regs := this_register r in
                                  ret (Some (arr_get regs (a + i + 1))))
                        (seq 0 (b - 1)) in
      ret (inr args) in
  let* retvals :=
    match resumed with
    | inl retvals => ret retvals
    | inr args =>
        let* regs := this_register r in
        let f := arr_get regs a in
        if negb (js_truthy f) || negb (has_apply f) then throw call_non_function
        else apply_call f args
    end in
  let retvals := match retvals with
                 | RArray vs => vs
                 | RValue v => [Some v]
                 end in
  let* m := get in
  if coroutine_is Suspending m then ret tt
  else splice_results r a c retvals.

(** [return call (a, b, 0);] a plain function call: the callee's [this] is
    not the Closure instance. *)
Definition tailcall (a b : nat) : M unit := call ThisGlobal a b 0.

(** The body that RETURN and CLOSE share for one entry of the captured-locals
    list, found at position [i]: the upvalue takes the register's value and
    is closed, the entry is spliced out, the register slot is deleted. *)
Definition close_entry (i : nat) (l : local) (m : machine) : machine :=
  let v := reg m (registerIndex l) in
  let m1 := with_cells (fun cs =>
              match cs !! upvalue_ref l with
              | Some u => <[upvalue_ref l :=
                            {| open := false; up_value := v;
                               up_register := up_register u;
                               up_name := up_name u |}]> cs
              | None => cs
              end) m in
  let m2 := with_this (fun cl =>
              set_locals (delete i (_localsUsedAsUpvalues cl)) cl) m1 in
  delete_reg (registerIndex l) m2.

(** [for (i = 0, l = list.length; i < l; i++) { ...; list.splice (i--, 1);
    l--; ... }]: [n] counts the remaining iterations, the index stays 0. *)
Fixpoint close_all (n : nat) (m : machine) : machine :=
  match n with
  | O => m
  | S n' =>
      match _localsUsedAsUpvalues (this m) !! 0%nat with
      | Some l => close_all n' (close_entry 0 l m)
      | None => m
      end
  end.

Definition return_ (a b : nat) : M jsarray :=
  let* m := get in
  let regs := _register (this m) in
  let retvals :=
    if (b =? 0)%nat then (fun i => Some (arr_get regs i)) <$> seq a (length regs - a)
    else (fun i => Some (arr_get regs (a + i))) <$> seq 0 (b - 1) in
  modify (close_all (length (_localsUsedAsUpvalues (this m)))) ;;
  ret retvals.

(** The loop of CLOSE: an entry below [a] is skipped, the others are closed
    and spliced out; [n] bounds the iterations. *)
Fixpoint close_from (n i a : nat) (m : machine) : machine :=
  match n with
  | O => m
  | S n' =>
      match _localsUsedAsUpvalues (this m) !! i with
      | Some l =>
          if (a <=? registerIndex l)%nat then close_from n' i a (close_entry i l m)
          else close_from n' (S i) a m
      | None => m
      end
  end.

Definition close (a b c : nat) : M unit :=
  let* m := get in
  modify (close_from (length (_localsUsedAsUpvalues (this m))) 0 a).

(** One pseudo-instruction after CLOSURE. *)
Definition bind_upvalue (bx : nat) (i : instruction) (upvalues : list upvalue_binding)
  : M (list upvalue_binding) :=
  let* m := get in
  let ib := Z.to_nat (B i) in
  if (op i =? 0)%nat then
    match find (fun up => (registerIndex up =? ib)%nat)
               (_localsUsedAsUpvalues (this m)) with
    | Some up => ret (upvalues ++ [Cell (upvalue_ref up)])
    | None =>
        match functions data !! bx with
        | None => throw TypeError
        | Some names =>
            let c := length (cells m) in
            modify (with_cells (fun cs =>
              cs ++ [ {| open := true; up_value := VUndefined;
                         up_register := ib;
                         up_name := names !! length upvalues |} ])) ;;
            modify (with_this (fun cl =>
              set_locals (_localsUsedAsUpvalues cl ++
                          [ {| registerIndex := ib; upvalue_ref := c |} ]) cl)) ;;
            ret (upvalues ++ [Cell c])
        end
    end
  else
    match _upvalues (this m) !! ib with
    | None => throw TypeError
    | Some _ => ret (upvalues ++ [Delegate ib])
    end.

(** [while ((instruction = this._instructions[this._pc]) &&
     (instruction.op === 0 || instruction.op === 4) && instruction.A === 0)] *)
Fixpoint closure_loop (n bx : nat) (upvalues : list upvalue_binding)
  : M (list upvalue_binding) :=
  match n with
  | O => ret upvalues
  | S n' =>
      let* m := get in
      match lookupZ (instructions data) (_pc (this m)) with
      | Some i =>
          if ((op i =? 0)%nat || (op i =? 4)%nat) && (A i =? 0)%nat then
            let* upvalues := bind_upvalue bx i upvalues in
            incr_pc ;;
            closure_loop n' bx upvalues
          else ret upvalues
      | None => ret upvalues
      end
  end.

Definition closure (a bx : nat) : M unit :=
  let* upvalues := closure_loop (length (instructions data)) bx [] in
  let* m := get in
  let f := length (funs m) in
  modify (with_funs (fun fs => fs ++ [LuaFunction bx upvalues])) ;;
  set_reg a (VFunction f).

Definition vararg (a b : nat) : M unit :=
  let* m := get in
  let limit : Z :=
    if (b =? 0)%nat
    then Z.of_nat (length (_params (this m))) - Z.of_nat (paramCount data)
    else Z.of_nat b - 1 in
  forM (seq 0 (Z.to_nat limit))
       (fun i => set_reg (a + i) (arr_get (_params (this m)) (paramCount data + i))) ;;
  let* m := get in
  let first := Z.of_nat a + limit in
  forM (seqZ first (Z.of_nat (length (_register (this m))) - first))
       (fun i => if i <? 0 then ret tt else modify (delete_reg (Z.to_nat i))).

End Handlers.
End Op.

(** ** The driver *)

(** How [_run] came to its end, and with it what the host sees as its
    return value. *)
Inductive exit :=
  | Returned (retvals : jsarray)           (* a handler handed back a value *)
  | RanOut                                 (* there is no instruction at pc *)
  | Yielded (yieldVars : option jsarray)   (* the entry activation of a suspending coroutine *)
  | Paused.                                (* suspended below a coroutine, or by the debugger *)

Definition exit_value (x : exit) : option jsarray :=
  match x with
  | Returned retvals => Some retvals
  | Yielded yieldVars => yieldVars
  | RanOut | Paused => None
  end.

Module Closure.
Section Driver.

Variable H : Host.
Variable data : prototype.

Definition not_implemented (n : nat) : exn :=
  HostException
    {| h_message := Some (String.append "Operation not implemented! ("
                           (String.append (number_to_string (number_of_nat n)) ")"));
       h_stack := None |}.

(** [luajs.Closure.OPERATIONS[instruction.op].call (this, A, B, C)].  Only
    RETURN hands a value back. *)
Definition _executeInstruction (i : instruction) : M (option jsarray) :=
  let a := A i in
  let b := Z.to_nat (B i) in
  let c := C i in
  let done (h : M unit) : M (option jsarray) := h ;; ret None in
  match op i with
  | 0%nat => done (Op.move a b)
  | 1%nat => done (Op.loadk data a b)
  | 2%nat => done (Op.loadbool a b c)
  | 3%nat => done (Op.loadnil a b)
  | 12%nat => done (Op.add H data a b c)
  | 13%nat => done (Op.sub H data a b c)
  | 14%nat => done (Op.mul H data a b c)
  | 15%nat => done (Op.div H data a b c)
  | 16%nat => done (Op.mod_ H data a b c)
  | 17%nat => done (Op.pow H data a b c)
  | 18%nat => done (Op.unm H a b)
  | 19%nat => done (Op.not a b)
  | 22%nat => done (Op.jmp a (B i))
  | 24%nat => done (Op.lt H data a b c)
  | 26%nat => done (Op.test a b c)
  | 27%nat => done (Op.testset a b c)
  | 28%nat => done (Op.call H ThisClosure a b c)
  | 29%nat => done (Op.tailcall H a b)
  | 30%nat => let* retvals := Op.return_ a b in ret (Some retvals)
  | 35%nat => done (Op.close a b c)
  | 36%nat => done (Op.closure data a b)
  | 37%nat => done (Op.vararg data a b)
  | n => if (n <? 38)%nat then done (h_other_op H n a (B i) c)
         else throw (not_implemented n)
  end.

(** The part of [_run] before the loop: the bookkeeping of a resumption and,
    when the coroutine hands over its yield values, the result phase of the
    CALL at [pc - 1]. *)
Definition resumption : M unit :=
  modify (with_this (set_terminated false)) ;;
  let* m := get in
  let* yieldVars :=
    if status_eqb (debug_status m) Resuming then
      (match debug_resumeStack m with
       | _ :: _ => modify (add_pc (-1))
       | [] => modify (with_debug Running [])
       end) ;; ret None
    else if coroutine_is Resuming m then
      match Coroutine_running m with
      | Some co =>
          match co_resumeStack co with
          | _ :: _ => modify (add_pc (-1)) ;; ret None
          | [] =>
              modify (with_coroutine (Some (set_co_status Running co))) ;;
              ret (co_yieldVars co)
          end
      | None => ret None
      end
    else ret None in
  match yieldVars with
  | Some ys =>
      let* m := get in
      match lookupZ (instructions data) (_pc (this m) - 1) with
      | Some i =>
          let retvals := (fun j => Some (arr_get ys j)) <$> seq 0 (length ys) in
          Op.splice_results ThisClosure (A i) (C i) retvals
      | None => throw TypeError
      end
  | None => ret tt
  end.

(** The second and third checks after a handler returns: the debugger is
    suspending and there is no return value, or there is a return value and
    the activation is terminated; otherwise the loop goes on. *)
Definition after_handler (retval : option jsarray) (m : machine)
    (continue : machine -> option (result exit * machine))
  : option (result exit * machine) :=
  match retval with
  | None =>
      if status_eqb (debug_status m) Suspending then
        Some (Ok Paused, with_debug Suspending (debug_resumeStack m ++ [self m]) m)
      else continue m
  | Some retvals => Some (Ok (Returned retvals), with_this (set_terminated true) m)
  end.

(** The first check after a handler returns: the running coroutine is
    suspending.  The activation is pushed on the coroutine's resume stack;
    the coroutine's own entry activation hands the yield values out. *)
Definition suspend (co : coroutine) (m : machine) : result exit * machine :=
  let co' := set_co_resumeStack (co_resumeStack co ++ [self m]) co in
  if (co_func_instance co =? self m)%nat then
    (Ok (Yielded (co_yieldVars co)),
     h_Coroutine_remove H (with_coroutine (Some (set_co_status Suspended co')) m))
  else (Ok Paused, with_coroutine (Some co') m).

(** The fetch/execute loop of [_run]; [None] when the fuel runs out first.
    Leaving the loop for want of an instruction also marks the activation
    terminated. *)
Fixpoint run_loop (fuel : nat) (m : machine) : option (result exit * machine) :=
  match fuel with
  | O => None
  | S fuel' =>
      match lookupZ (instructions data) (_pc (this m)) with
      | None => Some (Ok RanOut, with_this (set_terminated true) m)
      | Some i =>
          match _executeInstruction i (add_pc 1 m) with
          | (Throw e, m') => Some (Throw e, m')
          | (Ok retval, m') =>
              match Coroutine_running m' with
              | Some co =>
                  if status_eqb (co_status co) Suspending then Some (suspend co m')
                  else after_handler retval m' (run_loop fuel')
              | None => after_handler retval m' (run_loop fuel')
              end
          end
      end
  end.

Definition _run (fuel : nat) (m : machine) : option (result exit * machine) :=
  match resumption m with
  | (Throw e, m') => Some (Throw e, m')
  | (Ok _, m') => run_loop fuel m'
  end.

(** The source-stack line an activation adds to an error. *)
Definition frame (m : machine) : string :=
  String.append "at "
   (String.append
     (match sourceName data with
      | Some name => if String.eqb name "" then "function" else name
      | None => "function"
      end)
     (String.append " on line "
       (match lookupZ (linePositions data) (_pc (this m) - 1) with
        | Some line => number_to_string (number_of_nat line)
        | None => "undefined"
        end))).

(** The catch block of [execute]. *)
Definition on_error (e : exn) (m : machine) : lua_error :=
  let e' :=
    match e with
    | LuaError e => e
    | HostException h =>
        let stack := default "" (h_stack h) in
        {| message := String.append "Error in host call: "
                        (default "undefined" (h_message h));
           stack := Some stack;
           luaStack := Some (split_lines stack) |}
    end in
  {| message := message e';
     stack := stack e';
     luaStack := Some (default [] (luaStack e') ++ [frame m]) |}.

(** The statements of [execute] before the try block, on the contents [xs]
    of the array passed as [args]; the second component is what that array
    holds afterwards. *)
Definition execute_entry (xs : jsarray) (m : machine) : machine * jsarray :=
  let m := with_this (set_pc 0) m in
  let m := with_this (set_params xs) m in
  let removed := take (paramCount data) xs in                (* args.splice (0, paramCount) *)
  let xs := drop (paramCount data) xs in
  let m := with_this (set_register removed) m in
  if is_vararg data =? 7 then
    let arg := setMember (new_Table xs) "n" (VNumber (number_of_nat (length xs))) in
    let t := length (tables m) in
    let m := with_tables (fun ts => ts ++ [arg]) m in
    (with_this (fun cl => set_register (_register cl ++ [Some (VTable t)]) cl) m, xs)
  else (m, xs).

(** [execute (args)], where [args] names an array of the host heap. *)
Definition execute (fuel : nat) (args : nat) (heap : gmap nat jsarray) (m : machine)
  : option (result exit * machine * gmap nat jsarray) :=
  match heap !! args with
  | None => Some (Throw TypeError, with_this (set_pc 0) m, heap)
  | Some xs =>
      let '(m, xs) := execute_entry xs m in
      let heap := <[args := xs]> heap in
      match _run fuel m with
      | None => None
      | Some (Ok retval, m') => Some (Ok retval, m', heap)
      | Some (Throw e, m') => Some (Throw (LuaError (on_error e m')), m', heap)
      end
  end.

(** The function the constructor returns:
    [function () { var args = []; for (...) args.push (arguments[i]);
                   return me.execute (args); }] *)
Definition wrapper (fuel : nat) (arguments : list value) (heap : gmap nat jsarray)
    (m : machine) :=
  let args := fresh (dom heap) in
  execute fuel args (<[args := dense arguments]> heap) m.

End Driver.
End Closure.

(** ** The vocabulary of the specification *)

(** [truthy (v)]: false iff v is nil or boolean false. *)
Definition truthy (v : value) : bool :=
  match v with
  | VUndefined | VBoolean false => false
  | _ => true
  end.

(** [isNumeric (v)]: v is a number, or a string matching the floating-point
    pattern. *)
Definition isNumeric (v : value) : bool :=
  match v with
  | VNumber _ => true
  | VString s => matches FLOATING_POINT_PATTERN s
  | _ => false
  end.

Definition is_finite (x : number) : bool :=
  match x with
  | NaN | Infinity _ => false
  | Zero _ | Finite _ _ _ => true
  end.

(** An operand that is a finite number or a string matching the pattern. *)
Definition numeric_operand (v : value) : bool :=
  match v with
  | VNumber x => is_finite x
  | VString s => matches FLOATING_POINT_PATTERN s
  | _ => false
  end.

(** What a slot of a host array holds: [None] for a hole (never written,
    deleted, or past the end), which reads as undefined. *)
Definition slot (xs : jsarray) (i : nat) : option value :=
  match xs !! i with
  | Some (Some v) => Some v
  | _ => None
  end.

(** An upvalue object after it was closed on the value [v]. *)
Definition closed_with (u : upvalue) (v : value) : upvalue :=
  {| open := false; up_value := v; up_register := up_register u;
     up_name := up_name u |}.

(** The source-stack frame in the words of the specification:
    [at <sourceName> on line <line>]. *)
Definition frame_text (name line : string) : string :=
  String.append "at " (String.append name (String.append " on line " line)).

(** The name an activation shows in its frame: the prototype's sourceName,
    or the word "function" when that is missing or empty. *)
Definition shown_name (data : prototype) : string :=
  match sourceName data with
  | Some name => if String.eqb name "" then "function" else name
  | None => "function"
  end.

(** The text of the linePositions entry at [pc - 1]. *)
Definition line_text (data : prototype) (m : machine) : string :=
  match lookupZ (linePositions data) (_pc (this m) - 1) with
  | Some line => number_to_string (number_of_nat line)
  | None => "undefined"
  end.

(** ** The loops of VARARG as functions on the register array *)

(** The first loop of VARARG on the register array. *)
Definition copy_params (params : jsarray) (from a n : nat) (regs : jsarray) : jsarray :=
  fold_left (fun r i => arr_set r (a + i) (arr_get params (from + i))) (seq 0 n) regs.

(** The second loop of VARARG on the register array. *)
Definition delete_slots (zs : list Z) (regs : jsarray) : jsarray :=
  fold_left (fun r i => if i <? 0 then r else arr_delete r (Z.to_nat i)) zs regs.

(** ** Fixtures for the examples *)

(** A host in which nothing is going on: calls return no values. *)
Definition idle_host : Host :=
  {| h_parseFloat := fun _ => NaN;
     h_arith := fun _ _ _ => NaN;
     h_less := fun _ _ => false;
     h_object_text := fun _ => "[object Object]";
     h_string_to_number := fun _ => NaN;
     h_object_index0 := fun _ => VUndefined;
     h_apply := fun _ _ m => (Ok (RArray []), m);
     h_apply_on := fun _ _ m => (Ok (RArray []), m);
     h_resume := fun _ m => (Ok (RValue VUndefined), m);
     h_Coroutine_remove := with_coroutine None;
     h_other_op := fun _ _ _ _ m => (Ok tt, m) |}.

(** The same host, except that every callable returns [retvals]. *)
Definition returning_host (retvals : jsarray) : Host :=
  {| h_parseFloat := h_parseFloat idle_host;
     h_arith := h_arith idle_host;
     h_less := h_less idle_host;
     h_object_text := h_object_text idle_host;
     h_string_to_number := h_string_to_number idle_host;
     h_object_index0 := h_object_index0 idle_host;
     h_apply := fun _ _ m => (Ok (RArray retvals), m);
     h_apply_on := fun _ _ m => (Ok (RArray retvals), m);
     h_resume := h_resume idle_host;
     h_Coroutine_remove := h_Coroutine_remove idle_host;
     h_other_op := h_other_op idle_host |}.

Definition new_closure (registers : jsarray) : closure :=
  {| _register := registers; _pc := 0; _localsUsedAsUpvalues := [];
     _params := []; _upvalues := []; terminated := false |}.

(** A machine with the given registers and tables, no coroutine and no
    debugger activity. *)
Definition machine_with (registers : jsarray) (ts : list table) : machine :=
  {| this := new_closure registers; self := 0%nat; cells := []; tables := ts;
     funs := []; debug_status := NoStatus; debug_resumeStack := [];
     Coroutine_running := None |}.

Definition program (code : list instruction) (params : nat) (vararg_flag : Z)
    (name : option string) : prototype :=
  {| instructions := code; constants := []; functions := [[]];
     linePositions := S <$> seq 0 (length code);
     paramCount := params; is_vararg := vararg_flag; sourceName := name |}.

Definition num (n : nat) : value := VNumber (number_of_nat n).

(** Table 0 has table 1 as its metatable, whose [__le] is callable 0. *)
Definition table_with_le : list table :=
  [ {| t_elements := []; t_members := ∅; t_metatable := Some 1%nat |};
    {| t_elements := []; t_members := {[ "__le" := VFunction 0 ]};
       t_metatable := None |} ].

(** ** More of the source: handlers and helpers beside the ones above *)

(** Numeric equality of two numbers ([===] on numbers): NaN equals
    nothing, the two zeros are equal. *)
Definition number_eqb (x y : number) : bool :=
  match x, y with
  | Infinity a, Infinity b => Bool.eqb a b
  | Zero _, Zero _ => true
  | Finite a s1 n1, Finite b s2 n2 =>
      let e1 := n1 - Z.of_nat (length (digits_of_pos s1)) in
      let e2 := n2 - Z.of_nat (length (digits_of_pos s2)) in
      let e := Z.min e1 e2 in
      Bool.eqb a b && (Z.pos s1 * 10 ^ (e1 - e) =? Z.pos s2 * 10 ^ (e2 - e))
  | _, _ => false
  end.

(** [x === y]: objects by reference, strings by content. *)
Definition strict_eq (x y : value) : bool :=
  match x, y with
  | VUndefined, VUndefined => true
  | VBoolean a, VBoolean b => Bool.eqb a b
  | VNumber a, VNumber b => number_eqb a b
  | VString a, VString b => String.eqb a b
  | VTable a, VTable b => (a =? b)%nat
  | VFunction a, VFunction b => (a =? b)%nat
  | _, _ => false
  end.

Definition typeof (v : value) : string :=
  match v with
  | VUndefined => "undefined"
  | VBoolean _ => "boolean"
  | VNumber _ => "number"
  | VString _ => "string"
  | VTable _ => "object"
  | VFunction _ => "function"
  end.

(** [typeof v === 'string' || typeof v === 'number'] *)
Definition is_string_or_number (v : value) : bool :=
  match v with
  | VString _ | VNumber _ => true
  | _ => false
  end.

Fixpoint foldM {X S} (body : X -> S -> M S) (xs : list X) (s : S) : M S :=
  match xs with
  | [] => ret s
  | x :: xs' => let* s' := body x s in foldM body xs' s'
  end.

Module More.
Section Handlers.

Variable H : Host.
Variable data : prototype.

(** [luajs.utils.toFloat (x)]: undefined unless the text of x matches. *)
Definition toFloat (x : value) : option number :=
  if matches FLOATING_POINT_PATTERN (Op.to_text H x) then Some (Op.parseFloat H x)
  else None.

(** [x + y] on operands that are strings or numbers: the sum of two
    numbers, the concatenation of the texts otherwise. *)
Definition plus (x y : value) : value :=
  match x, y with
  | VNumber a, VNumber b => VNumber (h_arith H OpAdd a b)
  | _, _ => VString (String.append (Op.to_text H x) (Op.to_text H y))
  end.

Definition concat_error : exn :=
  LuaError (new_Error "Attempt to concatenate a non-string or non-numeric value").

(** The body of the loop of CONCAT for register [i]. *)
Definition concat_step (i : nat) (text : value) : M value :=
  let* m := get in
  let* f := Op.metamethod "__concat" (reg m i) in
  match f with
  | Some f =>
      let* r := Op.apply_value H f [Some (reg m i); Some text] in
      Op.index0 H r
  | None =>
      if negb (is_string_or_number (reg m i)) || negb (is_string_or_number text)
      then throw concat_error
      else ret (plus (reg m i) text)
  end.

(** [for (var i = c - 1; i >= b; i--)] *)
Definition concat (a b c : nat) : M unit :=
  let* m := get in
  let* text := foldM concat_step (rev (seq b (c - b))) (reg m c) in
  Op.set_reg a text.

Definition eq (a b c : nat) : M unit :=
  let* vb := Op.RK data b in
  let* vc := Op.RK data c in
  let* result :=
    if negb (strict_eq vb vc) && String.eqb (typeof vb) (typeof vc) then
      let* f := Op.metamethod "__eq" vb in
      match f with
      | Some f =>
          let* r := Op.apply_value H f [Some vb; Some vc] in
          let* v := Op.index0 H r in
          ret (js_truthy v)
      | None => ret (strict_eq vb vc)
      end
    else ret (strict_eq vb vc) in
  if negb (Op.loose_eq H (VBoolean result) a) then Op.incr_pc else ret tt.

End Handlers.

(** The two methods of the upvalue object that CLOSURE creates for a MOVE
    pseudo-instruction; [c] names the object, the activation is the one
    that created it. *)
Definition getValue (c : nat) (m : machine) : option value :=
  match cells m !! c with
  | Some u => Some (if open u then reg m (up_register u) else up_value u)
  | None => None
  end.

Definition setValue (c : nat) (v : value) (m : machine) : machine :=
  match cells m !! c with
  | Some u =>
      if open u then write_reg (up_register u) v m
      else with_cells (fun cs => <[c := {| open := open u; up_value := v;
                                          up_register := up_register u;
                                          up_name := up_name u |}]> cs) m
  | None => m
  end.

End More.

(** ** Invariants and vocabulary for the properties below *)

(** The captured-locals list is well formed: no register and no upvalue
    object occurs twice, and every entry's upvalue exists, is open and
    stands for the entry's register. *)
Definition captured_ok (m : machine) : Prop :=
  NoDup (registerIndex <$> _localsUsedAsUpvalues (this m)) /\
  NoDup (upvalue_ref <$> _localsUsedAsUpvalues (this m)) /\
  forall l, l ∈ _localsUsedAsUpvalues (this m) ->
    exists u, cells m !! upvalue_ref l = Some u /\
              open u = true /\ up_register u = registerIndex l.

(** A MOVE or GETUPVAL with A = 0, which CLOSURE consumes. *)
Definition is_pseudo (i : instruction) : bool :=
  ((op i =? 0)%nat || (op i =? 4)%nat) && (A i =? 0)%nat.

(** The array a call's result stands for:
    [if (!(retvals instanceof Array)) retvals = [retvals]] *)
Definition as_array (r : jsret) : jsarray :=
  match r with
  | RArray vs => vs
  | RValue v => [Some v]
  end.

(** Neither the debugger nor a coroutine is resuming. *)
Definition not_resuming (m : machine) : Prop :=
  status_eqb (debug_status m) Resuming = false /\ coroutine_is Resuming m = false.

(** What closing one entry of the captured-locals list does to its upvalue
    object and its register (the entry's removal from the list apart), and
    the same for several entries in turn. *)
Definition close_cell (l : local) (m : machine) : machine :=
  delete_reg (registerIndex l)
    (with_cells (fun cs =>
       match cs !! upvalue_ref l with
       | Some u => <[upvalue_ref l := closed_with u (reg m (registerIndex l))]> cs
       | None => cs
       end) m).

Definition close_cells (ls : list local) (m : machine) : machine :=
  fold_left (fun m l => close_cell l m) ls m.

(** A machine with registers 10, 20, 30 of which the first and the last
    are captured by open upvalues. *)
Definition captured_machine : machine :=
  {| this := {| _register := [Some (num 10); Some (num 20); Some (num 30)];
                _pc := 0;
                _localsUsedAsUpvalues :=
                  [ {| registerIndex := 0; upvalue_ref := 0 |};
                    {| registerIndex := 2; upvalue_ref := 1 |} ];
                _params := []; _upvalues := []; terminated := false |};
     self := 0%nat;
     cells := [ {| open := true; up_value := VUndefined; up_register := 0%nat;
                   up_name := None |};
                {| open := true; up_value := VUndefined; up_register := 2%nat;
                   up_name := None |} ];
     tables := []; funs := []; debug_status := NoStatus; debug_resumeStack := [];
     Coroutine_running := None |}.

(** The arguments CALL (A, B, _) collects: R[A+1 .. A+B-1], or every
    register above R[A] when B is 0; a hole is passed as undefined. *)
Definition call_arguments (a b : nat) (m : machine) : jsarray :=
  if (b =? 0)%nat
  then (fun i => Some (reg m i)) <$> seq (a + 1) (length (_register (this m)) - (a + 1))
  else (fun i => Some (reg m (a + i + 1))) <$> seq 0 (b - 1).

Module Relational.
Section Handlers.

Variable H : Host.
(** The host's [<=], which like [<] always yields a boolean. *)
Variable less_eq : value -> value -> bool.
Variable data : prototype.

Definition le (a b c : nat) : M unit :=
  let* vb := Op.RK data b in
  let* vc := Op.RK data c in
  let* result :=
    if negb (strict_eq vb vc) && String.eqb (typeof vb) (typeof vc) then
      let* f := Op.metamethod "__le" vb in
      match f with
      | Some f =>
          let* r := Op.apply_value H f [Some vb; Some vc] in
          Op.index0 H r
      | None => ret (VBoolean (less_eq vb vc))
      end
    else ret (VBoolean (less_eq vb vc)) in
  if negb (Op.loose_eq H result a) then Op.incr_pc else ret tt.

End Handlers.
End Relational.

(** ** The loop of [_run], turn by turn *)

Module Loop.
Section Turns.

Variable H : Host.
Variable data : prototype.

(** One turn of the loop of [_run] after which the loop goes on: there is
    an instruction at pc, pc is incremented, the handler returns nothing,
    and neither the running coroutine nor the debugger is suspending.
    [None] when the loop is left instead. *)
Definition turn (m : machine) : option machine :=
  match lookupZ (instructions data) (_pc (this m)) with
  | Some i =>
      match Closure._executeInstruction H data i (add_pc 1 m) with
      | (Ok None, m') =>
          if coroutine_is Suspending m' || status_eqb (debug_status m') Suspending
          then None
          else Some m'
      | _ => None
      end
  | None => None
  end.

(** [k] such turns in a row. *)
Fixpoint turns (k : nat) (m : machine) : option machine :=
  match k with
  | O => Some m
  | S k' =>
      match turn m with
      | Some m' => turns k' m'
      | None => None
      end
  end.

End Turns.
End Loop.

(** ** The argument vector *)

(** A computation that leaves [_params] of the activation as it is. *)
Definition keeps_params {X} (c : M X) : Prop :=
  forall m, _params (this (snd (c m))) = _params (this m).

(** The host leaves [_params] of the activation alone: [execute] is the
    only place of the source that assigns it, so this says that nothing the
    handlers call into starts the same activation again. *)
Definition host_keeps_params (H : Host) : Prop :=
  (forall f args, keeps_params (h_apply H f args)) /\
  (forall f operands, keeps_params (h_apply_on H f operands)) /\
  (forall f, keeps_params (h_resume H f)) /\
  (forall m, _params (this (h_Coroutine_remove H m)) = _params (this m)) /\
  (forall n a b c, keeps_params (h_other_op H n a b c)).

(** * Properties *)
Lemma many_complete p s1 s2 k :
  forallb p s1 = true -> k s2 = true -> many p (s1 ++ s2) k = true.
Proof.
  induction s1 as [|c s1 IH]; simpl; intros Hp Hk.
  - destruct s2; simpl; rewrite ?Hk; auto using orb_true_r.
  - apply andb_true_iff in Hp as [Hc Hp]. rewrite Hc, IH; auto.
Qed.

Lemma many_sound p s k :
  many p s k = true ->
  exists s1 s2, s = s1 ++ s2 /\ forallb p s1 = true /\ k s2 = true.
Proof.
  induction s as [|c s IH]; simpl; intros H.
  - exists [], []. auto.
  - apply orb_true_iff in H as [H|H].
    + apply andb_true_iff in H as [Hc H].
      destruct (IH H) as (s1 & s2 & -> & Hp & Hk).
      exists (c :: s1), s2. simpl. rewrite Hc. auto.
    + exists [], (c :: s). auto.
Qed.

Lemma rmatch_complete r s1 :
  Lang r s1 -> forall s2 k, k s2 = true -> rmatch r (s1 ++ s2) k = true.
Proof.
  induction 1; intros t k Hk; simpl.
  - exact Hk.
  - rewrite H. exact Hk.
  - rewrite <- app_assoc. apply IHLang1. apply IHLang2. exact Hk.
  - rewrite Hk. apply orb_true_r.
  - rewrite IHLang; auto.
  - apply many_complete; auto.
  - rewrite H. simpl. apply many_complete; auto.
Qed.

Lemma rmatch_sound r :
  forall s k, rmatch r s k = true ->
  exists s1 s2, s = s1 ++ s2 /\ Lang r s1 /\ k s2 = true.
Proof.
  induction r as [|p|r1 IH1 r2 IH2|r IH|p|p]; simpl; intros s k H.
  - exists [], s. repeat split; auto. constructor.
  - destruct s as [|c s]; [discriminate|].
    apply andb_true_iff in H as [Hc Hk].
    exists [c], s. repeat split; auto. constructor; auto.
  - destruct (IH1 _ _ H) as (s1 & s2 & -> & L1 & H2).
    destruct (IH2 _ _ H2) as (s3 & s4 & -> & L2 & Hk).
    exists (s1 ++ s3), s4. rewrite app_assoc. repeat split; auto.
    constructor; auto.
  - apply orb_true_iff in H as [H|H].
    + destruct (IH _ _ H) as (s1 & s2 & -> & L1 & Hk).
      exists s1, s2. repeat split; auto. apply L_opt_some; auto.
    + exists [], s. repeat split; auto. constructor.
  - destruct (many_sound _ _ _ H) as (s1 & s2 & -> & Hp & Hk).
    exists s1, s2. repeat split; auto. constructor; auto.
  - destruct s as [|c s]; [discriminate|].
    apply andb_true_iff in H as [Hc H].
    destruct (many_sound _ _ _ H) as (s1 & s2 & -> & Hp & Hk).
    exists (c :: s1), s2. repeat split; auto. constructor; auto.
Qed.

(** The matcher decides membership in the language. *)
Lemma matches_Lang r text : matches r text = true <-> Lang r (chars text).
Proof.
  unfold matches. split.
  - intros H. destruct (rmatch_sound _ _ _ H) as (s1 & s2 & E & L & Hk).
    destruct s2; [|discriminate]. rewrite app_nil_r in E. congruence.
  - intros L. rewrite <- (app_nil_r (chars text)).
    apply rmatch_complete; auto.
Qed.

(** ** The textual form of numbers and the floating point pattern *)

Lemma chars_of_text (l : list ascii) : chars (string_of_list_ascii l) = l.
Proof. apply list_ascii_of_string_of_list_ascii. Qed.

Lemma uint_digits (u : Decimal.uint) :
  forallb is_digit (chars (NilEmpty.string_of_uint u)) = true.
Proof. induction u; simpl; auto. Qed.

Lemma uint_chars_nonempty (u : Decimal.uint) :
  u <> Decimal.Nil -> chars (NilEmpty.string_of_uint u) <> [].
Proof. destruct u; simpl; congruence. Qed.

Lemma digits_of_pos_digits s : forallb is_digit (digits_of_pos s) = true.
Proof. apply uint_digits. Qed.

Lemma digits_of_pos_nonempty s : digits_of_pos s <> [].
Proof. apply uint_chars_nonempty, Unsigned.to_uint_nonnil. Qed.

Lemma digits_of_N_digits e : forallb is_digit (digits_of_N e) = true.
Proof. apply uint_digits. Qed.

Lemma digits_of_N_nonempty e : digits_of_N e <> [].
Proof.
  apply uint_chars_nonempty. destruct e; simpl.
  - discriminate.
  - apply Unsigned.to_uint_nonnil.
Qed.

Lemma zeros_digits n : forallb is_digit (zeros n) = true.
Proof. induction n; simpl; auto. Qed.

Lemma forallb_take {X} (p : X -> bool) n (l : list X) :
  forallb p l = true -> forallb p (take n l) = true.
Proof.
  revert n; induction l as [|x l IH]; intros [|n]; simpl; auto.
  intros Hp. apply andb_true_iff in Hp as [-> Hp]. simpl. auto.
Qed.

Lemma forallb_drop {X} (p : X -> bool) n (l : list X) :
  forallb p l = true -> forallb p (drop n l) = true.
Proof.
  revert n; induction l as [|x l IH]; intros [|n]; simpl; auto.
  intros Hp. apply andb_true_iff in Hp as [_ Hp]. auto.
Qed.

(** Non-empty runs of digits are in [0-9]+. *)
Lemma Lang_many1 p s : s <> [] -> forallb p s = true -> Lang (Many1 p) s.
Proof.
  destruct s as [|c s]; [congruence|]. simpl. intros _ Hp.
  apply andb_true_iff in Hp as [Hc Hp]. constructor; auto.
Qed.

(** The shapes of text the pattern accepts, by its four parts: sign,
    integer digits, dot, and fraction with exponent. *)
Lemma pattern_parts sg ds dot tail :
  Lang (Opt (Class is_sign)) sg ->
  forallb is_digit ds = true ->
  Lang (Opt (Class is_dot)) dot ->
  Lang (Opt (Seq (Many1 is_digit)
              (Opt (Seq (Class is_e) (Seq (Opt (Class is_sign)) (Many1 is_digit))))))
       tail ->
  Lang FLOATING_POINT_PATTERN (sg ++ ds ++ dot ++ tail).
Proof.
  intros Hs Hd Hdot Ht. unfold FLOATING_POINT_PATTERN.
  repeat (apply L_seq; auto). constructor; auto.
Qed.

Lemma exponent_part sign es :
  (sign = chars "-" \/ sign = chars "+") ->
  es <> [] -> forallb is_digit es = true ->
  Lang (Opt (Seq (Class is_e) (Seq (Opt (Class is_sign)) (Many1 is_digit))))
       (chars "e" ++ sign ++ es).
Proof.
  intros Hs Hne Hd. apply L_opt_some. apply L_seq.
  - constructor. reflexivity.
  - apply L_seq.
    + apply L_opt_some. destruct Hs as [-> | ->]; constructor; reflexivity.
    + apply Lang_many1; auto.
Qed.

Lemma finite_text_Lang sg s n :
  Lang (Opt (Class is_sign)) sg ->
  Lang FLOATING_POINT_PATTERN (sg ++ finite_text s n).
Proof.
  intros Hsg. unfold finite_text.
  pose proof (digits_of_pos_digits s) as Hd.
  pose proof (digits_of_pos_nonempty s) as Hne.
  set (ds := digits_of_pos s) in *.
  destruct ((Z.of_nat (length ds) <=? n) && (n <=? 21)) eqn:E1.
  { (* digits and trailing zeros *)
    replace (ds ++ zeros _) with ((ds ++ zeros (Z.to_nat (n - Z.of_nat (length ds)))) ++ [] ++ [])
      by (simpl; rewrite app_nil_r; reflexivity).
    apply pattern_parts; auto using L_opt_none.
    rewrite forallb_app, Hd, zeros_digits. reflexivity. }
  destruct ((0 <? n) && (n <=? 21)) eqn:E2.
  { (* a dot inside the digits *)
    apply pattern_parts; auto using forallb_take.
    - apply L_opt_some. constructor. reflexivity.
    - apply L_opt_some.
      rewrite <- (app_nil_r (drop _ ds)). apply L_seq; [|apply L_opt_none].
      apply Lang_many1; auto using forallb_drop.
      intros Hnil. apply (f_equal length) in Hnil.
      rewrite length_drop in Hnil. simpl in Hnil.
      apply andb_false_iff in E1. apply andb_true_iff in E2 as [E2 E3].
      destruct E1 as [E1|E1]; lia. }
  destruct ((-6 <? n) && (n <=? 0)) eqn:E3.
  { (* 0.000ddd *)
    change (chars "0.") with (chars "0" ++ chars ".").
    rewrite <- (app_assoc (chars "0")).
    apply pattern_parts; auto.
    - apply L_opt_some. constructor. reflexivity.
    - apply L_opt_some.
      rewrite <- (app_nil_r (zeros _ ++ ds)). apply L_seq; [|apply L_opt_none].
      apply Lang_many1.
      + destruct (zeros _); simpl; [auto|discriminate].
      + rewrite forallb_app, Hd, zeros_digits. reflexivity. }
  (* exponent notation *)
  set (sign := if n - 1 <? 0 then chars "-" else chars "+").
  assert (Hsign : sign = chars "-" \/ sign = chars "+")
    by (subst sign; destruct (n - 1 <? 0); auto).
  set (es := digits_of_N (Z.to_N (Z.abs (n - 1)))).
  pose proof (exponent_part sign es Hsign (digits_of_N_nonempty _) (digits_of_N_digits _)) as He.
  destruct ds as [|d [|d' rest]]; [congruence| |].
  - replace ([d] ++ chars "e" ++ sign ++ es)
      with ([] ++ [] ++ ([d] ++ chars "e" ++ sign ++ es)) by reflexivity.
    apply pattern_parts; auto using L_opt_none.
    apply L_opt_some. apply L_seq; auto.
    apply Lang_many1; [discriminate|]. simpl in *. exact Hd.
  - simpl in Hd. apply andb_true_iff in Hd as [Hd1 Hd2].
    apply (pattern_parts sg [d] (chars ".") ((d' :: rest) ++ chars "e" ++ sign ++ es)); auto.
    + simpl. rewrite Hd1. reflexivity.
    + apply L_opt_some. constructor. reflexivity.
    + apply L_opt_some. apply L_seq; auto.
      apply Lang_many1; [discriminate|exact Hd2].
Qed.

(** The text of every finite number matches the pattern. *)
Lemma finite_number_matches x :
  is_finite x = true -> matches FLOATING_POINT_PATTERN (number_to_string x) = true.
Proof.
  intros Hx. apply matches_Lang. unfold number_to_string. rewrite chars_of_text.
  destruct x as [ | neg | neg | [|] s n]; simpl in *; try discriminate.
  - apply (pattern_parts [] (chars "0") [] []); auto using L_opt_none.
  - apply (finite_text_Lang (chars "-")). apply L_opt_some. constructor. reflexivity.
  - apply (finite_text_Lang []). apply L_opt_none.
Qed.

(** NaN and the infinities do not. *)
Lemma non_finite_number_rejected x :
  is_finite x = false -> matches FLOATING_POINT_PATTERN (number_to_string x) = false.
Proof. destruct x as [ | [|] | | ]; simpl; try discriminate; reflexivity. Qed.

Example number_to_string_examples :
  number_to_string (Finite false 125 2) = "12.5" /\
  number_to_string (Finite true 3 1) = "-3" /\
  number_to_string (Finite false 12 5) = "12000" /\
  number_to_string (Finite false 5 (-2)) = "0.005" /\
  number_to_string (Finite false 1 22) = "1e+21" /\
  number_to_string (Finite false 15 (-6)) = "1.5e-7" /\
  number_to_string (Zero true) = "0" /\
  number_to_string (Infinity true) = "-Infinity".
Proof. vm_compute. repeat split; reflexivity. Qed.

Example pattern_examples :
  matches FLOATING_POINT_PATTERN "12.5" = true /\
  matches FLOATING_POINT_PATTERN "-3e2" = true /\
  matches FLOATING_POINT_PATTERN "1e+21" = true /\
  matches FLOATING_POINT_PATTERN "" = true /\
  matches FLOATING_POINT_PATTERN "." = true /\
  matches FLOATING_POINT_PATTERN "1e" = false /\
  matches FLOATING_POINT_PATTERN "0x10" = false /\
  matches FLOATING_POINT_PATTERN "hello" = false /\
  matches FLOATING_POINT_PATTERN "NaN" = false /\
  matches FLOATING_POINT_PATTERN "Infinity" = false.
Proof. vm_compute. repeat split; reflexivity. Qed.

(** ** Arithmetic handlers *)

Lemma numeric_operand_text H v :
  numeric_operand v = true ->
  matches FLOATING_POINT_PATTERN (Op.to_text H v) = true.
Proof.
  destruct v; simpl; try discriminate; auto using finite_number_matches.
Qed.

Lemma numeric_operand_no_metamethod name v m :
  numeric_operand v = true -> Op.metamethod name v m = (Ok None, m).
Proof. destruct v; simpl; try discriminate; reflexivity. Qed.

(** On operands that are finite numbers or matching strings, the common
    body of the six handlers stores the host operator's result. *)
Lemma arith_numeric H data o name a b c m :
  numeric_operand (Op.rk data m b) = true ->
  numeric_operand (Op.rk data m c) = true ->
  Op.arith H data o name a b c m =
    (Ok tt, write_reg a (VNumber (h_arith H o (Op.parseFloat H (Op.rk data m b))
                                              (Op.parseFloat H (Op.rk data m c)))) m).
Proof.
  intros Hb Hc. cbv beta iota zeta delta [Op.arith Op.RK bind get ret].
  rewrite (numeric_operand_no_metamethod name _ m Hb).
  rewrite (numeric_operand_text H _ Hb), (numeric_operand_text H _ Hc).
  reflexivity.
Qed.

(** An operand whose text does not match the pattern raises the error,
    whatever the other operand is, unless a metamethod takes over. *)
Lemma arith_rejects H data o name a b c m :
  Op.metamethod name (Op.rk data m b) m = (Ok None, m) ->
  matches FLOATING_POINT_PATTERN (Op.to_text H (Op.rk data m b)) = false ->
  Op.arith H data o name a b c m = (Throw Op.non_numeric, m).
Proof.
  intros Hmm Hb. cbv beta iota zeta delta [Op.arith Op.RK bind get ret].
  rewrite Hmm, Hb. reflexivity.
Qed.

(** Where the handlers do what the specification says: for every pair of
    operands each of which is a finite number (any number other than NaN
    and the two infinities) or a string matching the floating-point
    pattern, ADD, SUB, MUL, DIV, MOD and POW complete without any error and
    store the operator's result in R[A]. *)
Theorem arithmetic_total_on_finite_operands H data a b c m :
  numeric_operand (Op.rk data m b) = true ->
  numeric_operand (Op.rk data m c) = true ->
  let x := Op.parseFloat H (Op.rk data m b) in
  let y := Op.parseFloat H (Op.rk data m c) in
  Op.add H data a b c m = (Ok tt, write_reg a (VNumber (h_arith H OpAdd x y)) m) /\
  Op.sub H data a b c m = (Ok tt, write_reg a (VNumber (h_arith H OpSub x y)) m) /\
  Op.mul H data a b c m = (Ok tt, write_reg a (VNumber (h_arith H OpMul x y)) m) /\
  Op.div H data a b c m = (Ok tt, write_reg a (VNumber (h_arith H OpDiv x y)) m) /\
  Op.mod_ H data a b c m = (Ok tt, write_reg a (VNumber (h_arith H OpMod x y)) m) /\
  Op.pow H data a b c m = (Ok tt, write_reg a (VNumber (h_arith H OpPow x y)) m).
Proof.
  intros Hb Hc x y. unfold Op.add, Op.sub, Op.mul, Op.div, Op.mod_, Op.pow.
  repeat split; apply arith_numeric; assumption.
Qed.

(** The number 12.5 in R[0], the string "-3e2" as constant 0. *)
Lemma arithmetic_total_on_finite_operands_witness :
  let data := {| instructions := []; constants := [Some (VString "-3e2")];
                 functions := []; linePositions := []; paramCount := 0%nat;
                 is_vararg := 0; sourceName := None |} in
  let m := machine_with [Some (VNumber (Finite false 125 2))] [] in
  Op.to_text idle_host (Op.rk data m 0) = "12.5" /\
  Op.mod_ idle_host data 1 0 256 m =
    (Ok tt, write_reg 1 (VNumber (h_arith idle_host OpMod
              (Op.parseFloat idle_host (Op.rk data m 0))
              (Op.parseFloat idle_host (Op.rk data m 256)))) m).
Proof.
  intros data m. split; [reflexivity|].
  apply (arithmetic_total_on_finite_operands idle_host data 1 0 256 m);
    vm_compute; reflexivity.
Defined.

(** C1, at the failing inputs: Infinity and NaN are numbers, so every
    operand below satisfies isNumeric, and each of the six handlers raises
    the "non-numeric value" error on them.  The guard tests the textual
    form of the operand against the floating-point pattern, which the
    texts "Infinity", "-Infinity" and "NaN" do not match. *)
Lemma arithmetic_rejects_infinity_and_nan :
  let data := program [] 0 0 None in
  let m := machine_with [Some (VNumber (Infinity false)); Some (num 1);
                         Some (VNumber NaN)] [] in
  isNumeric (Op.rk data m 0) = true /\
  isNumeric (Op.rk data m 1) = true /\
  isNumeric (Op.rk data m 2) = true /\
  Op.add idle_host data 3 0 1 m = (Throw Op.non_numeric, m) /\
  Op.sub idle_host data 3 0 1 m = (Throw Op.non_numeric, m) /\
  Op.mul idle_host data 3 1 0 m = (Throw Op.non_numeric, m) /\
  Op.div idle_host data 3 1 2 m = (Throw Op.non_numeric, m) /\
  Op.mod_ idle_host data 3 2 1 m = (Throw Op.non_numeric, m) /\
  Op.pow idle_host data 3 0 0 m = (Throw Op.non_numeric, m).
Proof. vm_compute. repeat split; reflexivity. Qed.

(** ** Comparison and test handlers *)

(** Host truthiness and the language's truthiness differ on exactly three
    kinds of value: zero, the empty string and NaN. *)
Lemma js_truthy_truthy v :
  is_zero v = false -> is_empty_string v = false -> v <> VNumber NaN ->
  js_truthy v = truthy v.
Proof.
  destruct v as [ | [|] | [ | | | ] | s | | ]; simpl; try reflexivity; try discriminate.
  - congruence.
  - intros _ ->. reflexivity.
Qed.

(** TESTSET compares host truthiness with the flag. *)
Lemma testset_host_truthiness a b c m :
  Op.testset a b c m =
    if Bool.eqb (js_truthy (reg m b)) (negb (c =? 0)%nat)
    then (Ok tt, write_reg a (reg m b) m)
    else (Ok tt, add_pc 1 m).
Proof.
  cbv beta iota zeta delta [Op.testset bind get ret].
  destruct (js_truthy (reg m b)), (c =? 0)%nat; reflexivity.
Qed.

(** C3, at the failing input: R[B] holds the number 0 (or the empty
    string), which the claim counts as truthy, and C is 1; TESTSET skips
    the next instruction and leaves R[A] as it was, where the claim has
    R[A] assigned and no skip. *)
Theorem testset_zero_and_empty_string_skip :
  let m := machine_with [Some (num 7); Some (num 0); Some (VString "")] [] in
  truthy (reg m 1) = true /\
  truthy (reg m 2) = true /\
  Op.testset 0 1 1 m = (Ok tt, add_pc 1 m) /\
  Op.testset 0 2 1 m = (Ok tt, add_pc 1 m) /\
  reg (add_pc 1 m) 0 = num 7 /\
  _pc (this (add_pc 1 m)) = _pc (this m) + 1.
Proof. vm_compute. repeat split; reflexivity. Qed.

(** TEST changes nothing but the program counter. *)
Lemma test_only_moves_pc a b c m :
  exists d, Op.test a b c m = (Ok tt, add_pc d m) /\ (d = 0 \/ d = 1).
Proof.
  assert (E : add_pc 0 m = m).
  { destruct m as [[] ]. unfold add_pc, with_this, set_pc. simpl.
    rewrite Z.add_0_r. reflexivity. }
  cbv beta iota zeta delta [Op.test bind get ret Op.incr_pc modify].
  destruct (is_zero (reg m a) || is_empty_string (reg m a));
    [destruct (c =? 0)%nat | destruct (negb _)];
    (exists 1; split; [reflexivity | auto]) ||
    (exists 0; split; [rewrite E; reflexivity | auto]).
Qed.

(** Except on NaN, TEST follows the language's truthiness: it skips iff
    truthy (R[A]) differs from the flag C. *)
Lemma test_truthy a b c m :
  reg m a <> VNumber NaN ->
  Op.test a b c m =
    (Ok tt, if Bool.eqb (truthy (reg m a)) (negb (c =? 0)%nat) then m else add_pc 1 m).
Proof.
  intros Hnan. cbv beta iota zeta delta [Op.test bind get ret Op.incr_pc modify].
  destruct (is_zero (reg m a)) eqn:Ez.
  { destruct (reg m a) as [ | | [ | | | ] | | | ]; try discriminate.
    simpl. destruct (c =? 0)%nat; reflexivity. }
  destruct (is_empty_string (reg m a)) eqn:Ee.
  { destruct (reg m a); try discriminate.
    simpl. destruct (c =? 0)%nat; reflexivity. }
  simpl. rewrite (js_truthy_truthy _ Ez Ee Hnan).
  destruct (truthy (reg m a)), (c =? 0)%nat; reflexivity.
Qed.

(** C4, at the failing input: R[A] holds NaN, a number and hence truthy.
    With C = 1 the truthiness agrees with the flag and TEST skips all the
    same; with C = 0 it differs and TEST does not skip. *)
Theorem test_nan_inverts_the_skip :
  let m := machine_with [Some (VNumber NaN)] [] in
  truthy (reg m 0) = true /\
  Op.test 0 0 1 m = (Ok tt, add_pc 1 m) /\
  Op.test 0 0 0 m = (Ok tt, m).
Proof. vm_compute. repeat split; reflexivity. Qed.

(** Without a metamethod LT takes the host's [<], and for a flag A of 0 or
    1 it skips iff the comparison differs from the flag. *)
Lemma lt_primitive H data a b c m :
  Op.metamethod "__le" (Op.rk data m b) m = (Ok None, m) ->
  (a = 0 \/ a = 1)%nat ->
  Op.lt H data a b c m =
    (Ok tt, if Bool.eqb (h_less H (Op.rk data m b) (Op.rk data m c)) (a =? 1)%nat
            then m else add_pc 1 m).
Proof.
  intros Hmm Ha.
  cbv beta iota zeta delta [Op.lt Op.RK bind get ret Op.incr_pc modify].
  rewrite Hmm.
  destruct (h_less H _ _), Ha as [-> | ->]; reflexivity.
Qed.

(** With a metamethod whose first return is a boolean, LT likewise skips
    iff that boolean differs from the flag. *)
Lemma lt_metamethod_boolean H data a b c m f r m' result :
  Op.metamethod "__le" (Op.rk data m b) m = (Ok (Some f), m) ->
  Op.apply_value H f [Some (Op.rk data m b); Some (Op.rk data m c)] m = (Ok r, m') ->
  Op.index0 H r m' = (Ok (VBoolean result), m') ->
  (a = 0 \/ a = 1)%nat ->
  Op.lt H data a b c m =
    (Ok tt, if Bool.eqb result (a =? 1)%nat then m' else add_pc 1 m').
Proof.
  intros Hmm Hap Hix Ha.
  cbv beta iota zeta delta [Op.lt Op.RK bind get ret Op.incr_pc modify].
  rewrite Hmm, Hap, Hix.
  destruct result, Ha as [-> | ->]; reflexivity.
Qed.

(** C2, at the failing input: R[0] is a table whose metatable has a [__le]
    member.  When that metamethod returns the number 5, a truthy value, LT
    with A = 1 skips the next instruction; when it returns nothing (nil),
    LT with A = 0 skips as well.  In both cases the boolean of the first
    return equals A, so the claim has no skip. *)
Theorem lt_metamethod_result_not_coerced :
  let data := program [] 0 0 None in
  let m := machine_with [Some (VTable 0); Some (num 3)] table_with_le in
  Op.metamethod "__le" (Op.rk data m 0) m = (Ok (Some (VFunction 0)), m) /\
  truthy (num 5) = true /\
  Op.lt (returning_host [Some (num 5)]) data 1 0 1 m = (Ok tt, add_pc 1 m) /\
  truthy VUndefined = false /\
  Op.lt (returning_host []) data 0 0 1 m = (Ok tt, add_pc 1 m).
Proof. vm_compute. repeat split; reflexivity. Qed.

(** ** CALL and TAILCALL *)

Lemma mapM_throw {X Y} (body : X -> M Y) e xs m :
  (forall x, body x m = (Throw e, m)) ->
  mapM body xs m = match xs with [] => (Ok [], m) | _ => (Throw e, m) end.
Proof.
  intros Hbody. destruct xs as [|x xs]; [reflexivity|].
  simpl. unfold bind. rewrite Hbody. reflexivity.
Qed.

(** Outside a resumption TAILCALL always fails with the host's TypeError
    and changes nothing: its call of [call] reads [_register] on a receiver
    that has none. *)
Lemma tailcall_throws H a b m :
  status_eqb (debug_status m) Resuming = false ->
  coroutine_is Resuming m = false ->
  Op.tailcall H a b m = (Throw TypeError, m).
Proof.
  intros Hd Hc. unfold Op.tailcall, Op.call.
  cbv beta iota zeta delta [bind get ret]. rewrite Hd, Hc.
  destruct (b =? 0)%nat; [reflexivity|].
  rewrite (mapM_throw _ TypeError); [|reflexivity].
  destruct (seq 0 (b - 1)); reflexivity.
Qed.

(** C9, at the failing input: R[0] is a callable that returns [7], R[1] its
    argument.  CALL (0, 2, 0) calls it and splices the result into R[0..];
    TAILCALL (0, 2) raises the host's TypeError instead and leaves the
    registers as they were; through the dispatcher the two opcodes differ
    in the same way. *)
Theorem tailcall_fails_where_call_succeeds :
  let H := returning_host [Some (num 7)] in
  let data := program [] 0 0 None in
  let m := machine_with [Some (VFunction 0); Some (num 1)] [] in
  Op.call H ThisClosure 0 2 0 m = (Ok tt, machine_with [Some (num 7)] []) /\
  Op.tailcall H 0 2 m = (Throw TypeError, m) /\
  Closure._executeInstruction H data {| op := 28; A := 0; B := 2; C := 0 |} m
    = (Ok None, machine_with [Some (num 7)] []) /\
  Closure._executeInstruction H data {| op := 29; A := 0; B := 2; C := 0 |} m
    = (Throw TypeError, m).
Proof. vm_compute. repeat split; reflexivity. Qed.

(** ** Host arrays *)

Lemma arr_get_slot xs i : arr_get xs i = default VUndefined (slot xs i).
Proof. unfold arr_get, slot. destruct (xs !! i) as [[v|]|]; reflexivity. Qed.

Lemma slot_beyond xs i : (length xs <= i)%nat -> slot xs i = None.
Proof. intros Hi. unfold slot. rewrite lookup_ge_None_2; auto. Qed.

Lemma slot_arr_set xs i v j :
  slot (arr_set xs i v) j = if decide (j = i) then Some v else slot xs j.
Proof.
  unfold slot, arr_set. destruct (Nat.ltb_spec i (length xs)) as [Hi|Hi].
  - destruct (decide (j = i)) as [->|Hj].
    + rewrite list_lookup_insert_eq; auto.
    + rewrite list_lookup_insert_ne; auto.
  - destruct (decide (j = i)) as [->|Hj].
    + rewrite lookup_app_r by lia.
      rewrite lookup_app_r by (rewrite length_replicate; lia).
      rewrite length_replicate.
      replace (i - length xs - (i - length xs))%nat with 0%nat by lia.
      reflexivity.
    + destruct (Nat.lt_ge_cases j (length xs)) as [Hlt|Hge].
      * rewrite lookup_app_l by lia. reflexivity.
      * rewrite lookup_app_r by lia.
        rewrite (lookup_ge_None_2 xs j) by lia.
        destruct (Nat.lt_ge_cases (j - length xs) (i - length xs)) as [Hl|Hg].
        -- rewrite lookup_app_l by (rewrite length_replicate; lia).
           rewrite lookup_replicate_2 by lia. reflexivity.
        -- rewrite lookup_app_r by (rewrite length_replicate; lia).
           rewrite length_replicate.
           rewrite lookup_ge_None_2; [reflexivity|]. simpl. lia.
Qed.

Lemma slot_arr_delete xs i j :
  slot (arr_delete xs i) j = if decide (j = i) then None else slot xs j.
Proof.
  unfold slot, arr_delete. destruct (decide (j = i)) as [->|Hj].
  - destruct (Nat.lt_ge_cases i (length xs)).
    + rewrite list_lookup_insert_eq; auto.
    + rewrite lookup_ge_None_2; [reflexivity|]. rewrite length_insert. lia.
  - rewrite list_lookup_insert_ne; auto.
Qed.

Lemma length_arr_delete xs i : length (arr_delete xs i) = length xs.
Proof. apply length_insert. Qed.

(** ** Loops over the register file *)

Lemma forM_fold {X} (body : X -> M unit) (step : X -> machine -> machine) xs m :
  (forall x m, body x m = (Ok tt, step x m)) ->
  forM xs body m = (Ok tt, fold_left (fun m x => step x m) xs m).
Proof.
  intros Hbody. revert m. induction xs as [|x xs IH]; intros m; simpl.
  - reflexivity.
  - unfold bind. rewrite Hbody. apply IH.
Qed.

Lemma with_this_register_id m : with_this (set_register (_register (this m))) m = m.
Proof. destruct m as [[] ]. reflexivity. Qed.

Lemma fold_registers {X} (step : X -> machine -> machine)
    (f : X -> jsarray -> jsarray) xs m :
  (forall x m, step x m = with_this (set_register (f x (_register (this m)))) m) ->
  fold_left (fun m x => step x m) xs m
  = with_this (set_register (fold_left (fun r x => f x r) xs (_register (this m)))) m.
Proof.
  intros Hstep. revert m. induction xs as [|x xs IH]; intros m; simpl.
  - symmetry. apply with_this_register_id.
  - rewrite IH, Hstep. destruct m as [[] ]. reflexivity.
Qed.

Lemma slot_copy_params params from a n regs j :
  slot (copy_params params from a n regs) j =
    if decide (a <= j < a + n)%nat then Some (arr_get params (from + (j - a)))
    else slot regs j.
Proof.
  unfold copy_params. induction n as [|n IH].
  - simpl. destruct (decide _); [lia|reflexivity].
  - rewrite seq_S, fold_left_app. simpl. rewrite slot_arr_set, IH.
    destruct (decide (j = a + n)%nat) as [->|Hj].
    + destruct (decide (a + n = a + n)%nat); [|congruence].
      destruct (decide (a <= a + n < a + S n)%nat); [|lia].
      replace (a + n - a)%nat with n by lia. reflexivity.
    + destruct (decide (a <= j < a + n)%nat), (decide (a <= j < a + S n)%nat);
        try lia; reflexivity.
Qed.

Lemma length_delete_slots zs regs : length (delete_slots zs regs) = length regs.
Proof.
  unfold delete_slots. revert regs. induction zs as [|z zs IH]; intros regs; simpl.
  - reflexivity.
  - rewrite IH. destruct (z <? 0); [reflexivity|apply length_arr_delete].
Qed.

Lemma slot_delete_slots_in zs regs j :
  Z.of_nat j ∈ zs -> slot (delete_slots zs regs) j = None.
Proof.
  unfold delete_slots. revert regs. induction zs as [|z zs IH] using rev_ind; intros regs Hin.
  - inversion Hin.
  - rewrite fold_left_app. simpl. apply elem_of_app in Hin as [Hin|Hin].
    + destruct (z <? 0); [auto|]. rewrite slot_arr_delete.
      destruct (decide _); auto.
    + apply list_elem_of_singleton in Hin. subst z.
      destruct (Z.ltb_spec (Z.of_nat j) 0); [lia|].
      rewrite slot_arr_delete, Nat2Z.id. destruct (decide _); congruence.
Qed.

Lemma slot_delete_slots_out zs regs j :
  Z.of_nat j ∉ zs -> slot (delete_slots zs regs) j = slot regs j.
Proof.
  unfold delete_slots. revert regs. induction zs as [|z zs IH]; intros regs Hout; simpl.
  - reflexivity.
  - apply not_elem_of_cons in Hout as [Hne Hout]. rewrite IH by assumption.
    destruct (Z.ltb_spec z 0); [reflexivity|].
    rewrite slot_arr_delete. destruct (decide _); [lia|reflexivity].
Qed.

(** VARARG as a function on the register array. *)
Lemma vararg_registers data a b m :
  let limit := if (b =? 0)%nat
               then Z.of_nat (length (_params (this m))) - Z.of_nat (paramCount data)
               else Z.of_nat b - 1 in
  let regs1 := copy_params (_params (this m)) (paramCount data) a (Z.to_nat limit)
                 (_register (this m)) in
  let first := Z.of_nat a + limit in
  Op.vararg data a b m =
    (Ok tt, with_this (set_register
              (delete_slots (seqZ first (Z.of_nat (length regs1) - first)) regs1)) m).
Proof.
  intros limit regs1 first.
  cbv beta iota zeta delta [Op.vararg bind get ret]. fold limit.
  rewrite (forM_fold _ (fun i => write_reg (a + i)
             (arr_get (_params (this m)) (paramCount data + i)))) by reflexivity.
  rewrite (fold_registers _ (fun i r => arr_set r (a + i)
             (arr_get (_params (this m)) (paramCount data + i))))
    by (intros x [[] ]; reflexivity).
  fold (copy_params (_params (this m)) (paramCount data) a (Z.to_nat limit)
          (_register (this m))). fold regs1.
  rewrite (forM_fold _ (fun i m => if i <? 0 then m else delete_reg (Z.to_nat i) m))
    by (intros x m'; destruct (x <? 0); reflexivity).
  rewrite (fold_registers _ (fun i r => if i <? 0 then r else arr_delete r (Z.to_nat i)))
    by (intros x [[] ]; destruct (x <? 0); reflexivity).
  destruct m as [[] ]. reflexivity.
Qed.

(** C7: VARARG (A, B) copies [limit] surplus arguments, where [limit] is
    params.length - paramCount when B = 0 and B - 1 otherwise: slot A + i
    receives parameter paramCount + i for every i below the limit (nil where
    the arguments run out), every slot from A + limit on is deleted, and
    the slots below are as before; nothing but the register file changes. *)
Theorem vararg_copies_surplus_and_clears data a b m :
  let limit := if (b =? 0)%nat
               then Z.of_nat (length (_params (this m))) - Z.of_nat (paramCount data)
               else Z.of_nat b - 1 in
  exists regs,
    Op.vararg data a b m = (Ok tt, with_this (set_register regs) m) /\
    (forall i : nat, Z.of_nat i < limit ->
       slot regs (a + i) = Some (arr_get (_params (this m)) (paramCount data + i))) /\
    (forall j : nat, Z.of_nat a + limit <= Z.of_nat j -> slot regs j = None) /\
    (forall j : nat, (j < a)%nat -> Z.of_nat j < Z.of_nat a + limit ->
       slot regs j = slot (_register (this m)) j).
Proof.
  intros limit. pose proof (vararg_registers data a b m) as Hv.
  cbv zeta in Hv. fold limit in Hv.
  set (regs1 := copy_params (_params (this m)) (paramCount data) a (Z.to_nat limit)
                  (_register (this m))) in *.
  set (first := Z.of_nat a + limit) in *.
  set (zs := seqZ first (Z.of_nat (length regs1) - first)) in *.
  exists (delete_slots zs regs1). split; [exact Hv|].
  assert (Hin : forall j : nat, Z.of_nat j ∈ zs <->
                first <= Z.of_nat j < Z.of_nat (length regs1)).
  { intros j. unfold zs. rewrite elem_of_seqZ. lia. }
  split; [|split].
  - intros i Hi. rewrite slot_delete_slots_out by (rewrite Hin; lia).
    unfold regs1. rewrite slot_copy_params.
    destruct (decide _) as [_|Hn]; [|lia].
    replace (a + i - a)%nat with i by lia. reflexivity.
  - intros j Hj. destruct (Z.lt_ge_cases (Z.of_nat j) (Z.of_nat (length regs1))).
    + apply slot_delete_slots_in. rewrite Hin. lia.
    + rewrite slot_delete_slots_out by (rewrite Hin; lia).
      apply slot_beyond. lia.
  - intros j Hja Hjl. rewrite slot_delete_slots_out by (rewrite Hin; lia).
    unfold regs1. rewrite slot_copy_params.
    destruct (decide _); [lia|reflexivity].
Qed.

(** paramCount = 1, called with (10, 20, 30): VARARG (1, 0) copies the two
    surplus arguments and VARARG (1, 4) pads a third slot with nil. *)
Example vararg_examples :
  let data := program [] 1 0 None in
  let m := with_this (set_params [Some (num 10); Some (num 20); Some (num 30)])
             (machine_with [Some (num 10); Some (num 1); Some (num 2);
                            Some (num 3); Some (num 4)] []) in
  _register (this (snd (Op.vararg data 1 0 m))) =
    [Some (num 10); Some (num 20); Some (num 30); None; None] /\
  _register (this (snd (Op.vararg data 1 4 m))) =
    [Some (num 10); Some (num 20); Some (num 30); Some VUndefined; None].
Proof. vm_compute. split; reflexivity. Qed.

(** paramCount = 1, called with (10, 20, 30): VARARG (1, 0). *)
Lemma vararg_copies_surplus_and_clears_witness :
  let data := program [] 1 0 None in
  let m := with_this (set_params [Some (num 10); Some (num 20); Some (num 30)])
             (machine_with [Some (num 10); Some (num 1); Some (num 2);
                            Some (num 3); Some (num 4)] []) in
  exists regs,
    Op.vararg data 1 0 m = (Ok tt, with_this (set_register regs) m) /\
    slot regs 0 = Some (num 10) /\
    slot regs 1 = Some (num 20) /\
    slot regs 2 = Some (num 30) /\
    slot regs 3 = None /\
    slot regs 4 = None.
Proof.
  intros data m.
  destruct (vararg_copies_surplus_and_clears data 1 0 m) as (regs & E & Hcopy & Hdel & Hlow).
  exists regs. split; [exact E|]. split; [|split; [|split; [|split]]].
  - rewrite (Hlow 0%nat); [reflexivity|lia|]. cbn. lia.
  - apply (Hcopy 0%nat). cbn. lia.
  - apply (Hcopy 1%nat). cbn. lia.
  - apply (Hdel 3%nat). cbn. lia.
  - apply (Hdel 4%nat). cbn. lia.
Defined.

(** ** Entry into an activation *)

(** What [execute] has set up when it enters the try block. *)
Lemma execute_entry_state data xs m :
  let m' := fst (Closure.execute_entry data xs m) in
  _pc (this m') = 0 /\
  _params (this m') = xs /\
  snd (Closure.execute_entry data xs m) = drop (paramCount data) xs /\
  (forall i, (i < paramCount data)%nat -> (i < length xs)%nat ->
     slot (_register (this m')) i = slot xs i) /\
  (is_vararg data <> 7 -> _register (this m') = take (paramCount data) xs) /\
  (is_vararg data = 7 ->
     let t := length (tables m) in
     _register (this m') = take (paramCount data) xs ++ [Some (VTable t)] /\
     tables m' !! t =
       Some (setMember (new_Table (drop (paramCount data) xs)) "n"
               (num (length xs - paramCount data)))).
Proof.
  unfold Closure.execute_entry.
  destruct (Z.eqb_spec (is_vararg data) 7) as [E|E]; simpl;
    (split; [reflexivity|]); (split; [reflexivity|]); (split; [reflexivity|]).
  - split; [|split; [congruence|]].
    + intros i Hi Hlen. unfold slot.
      rewrite lookup_app_l by (rewrite length_take; lia).
      rewrite lookup_take_lt by lia. reflexivity.
    + intros _. split; [reflexivity|].
      rewrite lookup_app_r by lia. rewrite Nat.sub_diag. simpl.
      rewrite length_drop. reflexivity.
  - split; [|split; [reflexivity|congruence]].
    intros i Hi _. unfold slot. rewrite lookup_take_lt by lia. reflexivity.
Qed.

(** With at least paramCount arguments the table of surplus arguments sits
    in register paramCount. *)
Lemma execute_entry_vararg_full data xs m :
  is_vararg data = 7 -> (paramCount data <= length xs)%nat ->
  slot (_register (this (fst (Closure.execute_entry data xs m)))) (paramCount data)
  = Some (VTable (length (tables m))).
Proof.
  intros E Hlen. destruct (execute_entry_state data xs m) as (_ & _ & _ & _ & _ & Hv).
  destruct (Hv E) as [-> _]. unfold slot.
  rewrite lookup_app_r by (rewrite length_take; lia).
  rewrite length_take. replace (_ - _)%nat with 0%nat by lia. reflexivity.
Qed.

(** The scenario of the specification: paramCount = 1, flag 7, called with
    (10, 20, 30). *)
Example execute_entry_vararg_scenario :
  let data := program [] 1 7 None in
  let m' := fst (Closure.execute_entry data
                   [Some (num 10); Some (num 20); Some (num 30)] (machine_with [] [])) in
  _pc (this m') = 0 /\
  _register (this m') = [Some (num 10); Some (VTable 0)] /\
  (t_elements <$> tables m' !! 0%nat) = Some [Some (num 20); Some (num 30)] /\
  ((fun t => getMember t "n") <$> tables m' !! 0%nat) = Some (num 2).
Proof. vm_compute. repeat split; reflexivity. Qed.

(** C6, at the failing input: paramCount = 2, flag 7, called with the
    single argument (10).  The table of surplus arguments is pushed behind
    the one register that was filled, so it lands in register 1;
    register 2, which is register paramCount, stays empty. *)
Theorem execute_entry_vararg_short_call :
  let data := program [] 2 7 None in
  let m' := fst (Closure.execute_entry data [Some (num 10)] (machine_with [] [])) in
  paramCount data = 2%nat /\
  _register (this m') = [Some (num 10); Some (VTable 0)] /\
  slot (_register (this m')) 1 = Some (VTable 0) /\
  slot (_register (this m')) 2 = None /\
  ((fun t => getMember t "n") <$> tables m' !! 0%nat) = Some (num 0).
Proof. vm_compute. repeat split; reflexivity. Qed.

(** ** The caller's argument array *)

Lemma execute_result H data fuel args heap xs m out :
  heap !! args = Some xs ->
  Closure.execute H data fuel args heap m = Some out ->
  snd out = <[args := drop (paramCount data) xs]> heap.
Proof.
  intros Hargs. unfold Closure.execute. rewrite Hargs.
  pose proof (execute_entry_state data xs m) as (_ & _ & Hrest & _).
  destruct (Closure.execute_entry data xs m) as [m1 rest]. simpl in Hrest. subst rest.
  destruct (Closure._run H data fuel m1) as [[[retval|e] m2]|]; intros Hout;
    inversion Hout; reflexivity.
Qed.

(** ** Errors leaving an activation *)

Lemma frame_shown data m :
  Closure.frame data m = frame_text (shown_name data) (line_text data m).
Proof. reflexivity. Qed.

(** C8, as amended: an error that leaves [_run] leaves [execute] as a
    language error.  A host exception is wrapped: the message gets the prefix
    "Error in host call: ", the host stack is kept, and its lines start the
    source stack.  In both cases exactly one frame is appended to the source
    stack, [at <name> on line <line>], where <line> is the linePositions
    entry at pc - 1 and <name> is the prototype's sourceName, or the word
    "function" when the sourceName is missing or empty. *)
Theorem execute_wraps_and_appends_frame H data fuel args heap xs m e m1 :
  heap !! args = Some xs ->
  Closure._run H data fuel (fst (Closure.execute_entry data xs m)) = Some (Throw e, m1) ->
  exists e',
    Closure.execute H data fuel args heap m
      = Some (Throw (LuaError e'), m1, <[args := drop (paramCount data) xs]> heap) /\
    let appended := frame_text (shown_name data) (line_text data m1) in
    (forall name, sourceName data = Some name -> name <> "" ->
       appended = frame_text name (line_text data m1)) /\
    match e with
    | LuaError le =>
        message e' = message le /\
        stack e' = stack le /\
        luaStack e' = Some (default [] (luaStack le) ++ [appended])
    | HostException h =>
        message e' = String.append "Error in host call: " (default "undefined" (h_message h)) /\
        stack e' = Some (default "" (h_stack h)) /\
        luaStack e' = Some (split_lines (default "" (h_stack h)) ++ [appended])
    end.
Proof.
  intros Hargs Hrun. exists (Closure.on_error data e m1). split.
  - unfold Closure.execute. rewrite Hargs.
    pose proof (execute_entry_state data xs m) as (_ & _ & Hrest & _).
    destruct (Closure.execute_entry data xs m) as [m0 rest].
    simpl in Hrest, Hrun. subst rest. rewrite Hrun. reflexivity.
  - split.
    + intros name Hname Hne. unfold shown_name. rewrite Hname.
      destruct (String.eqb_spec name ""); [contradiction|reflexivity].
    + destruct e as [le|h]; simpl; rewrite frame_shown; auto.
Qed.

(** ADD on an empty register in "main.lua"; then a TAILCALL, which fails
    with a host exception. *)
Lemma execute_wraps_and_appends_frame_witness :
  let data := program [ {| op := 12; A := 0; B := 0; C := 0 |} ] 0 0 (Some "main.lua") in
  let heap : gmap nat jsarray := {[ 0%nat := [] ]} in
  let m := machine_with [] [] in
  heap !! 0%nat = Some [] /\
  Closure._run idle_host data 2 (fst (Closure.execute_entry data [] m))
    = Some (Throw Op.non_numeric, add_pc 1 m) /\
  Closure.execute idle_host data 2 0 heap m
    = Some (Throw (LuaError
              {| message := "attempt to perform arithmetic on a non-numeric value";
                 stack := None;
                 luaStack := Some ["at main.lua on line 1"] |}),
            add_pc 1 m, heap).
Proof.
  intros data heap m.
  assert (Hargs : heap !! 0%nat = Some []) by reflexivity.
  assert (Hrun : Closure._run idle_host data 2 (fst (Closure.execute_entry data [] m))
                 = Some (Throw Op.non_numeric, add_pc 1 m)) by (vm_compute; reflexivity).
  split; [exact Hargs|]. split; [exact Hrun|].
  destruct (execute_wraps_and_appends_frame idle_host data 2 0%nat heap [] m _ _ Hargs Hrun)
    as (e' & Hexec & _ & Hmsg & Hstack & Hlua).
  rewrite Hexec. destruct e' as [msg st ls]. simpl in Hmsg, Hstack, Hlua.
  subst msg st ls. vm_compute. reflexivity.
Defined.

(** C8, as stated, fails on a prototype without a source name (as nested
    functions have it): the frame names "function", it is not built from
    the empty sourceName. *)
Lemma frame_of_unnamed_prototype :
  let data := program [ {| op := 12; A := 0; B := 0; C := 0 |} ] 0 0 (Some "") in
  let heap : gmap nat jsarray := {[ 0%nat := [] ]} in
  let m := machine_with [] [] in
  sourceName data = Some "" /\
  Closure.execute idle_host data 2 0 heap m
    = Some (Throw (LuaError
              {| message := "attempt to perform arithmetic on a non-numeric value";
                 stack := None;
                 luaStack := Some ["at function on line 1"] |}),
            add_pc 1 m, heap) /\
  "at function on line 1" <> frame_text "" "1".
Proof.
  intros data heap m. split; [reflexivity|]. split.
  - vm_compute. reflexivity.
  - vm_compute. discriminate.
Qed.

(** A host exception (here the TypeError of TAILCALL) is wrapped, and its
    stack lines are followed by the one frame. *)
Example execute_wraps_host_exception :
  let data := program [ {| op := 29; A := 0; B := 1; C := 0 |} ] 0 0 (Some "main.lua") in
  fst (fst (default (Ok RanOut, machine_with [] [], ∅)
             (Closure.execute idle_host data 2 0 {[ 0%nat := [] ]} (machine_with [] []))))
  = Throw (LuaError {| message := "Error in host call: TypeError";
                       stack := Some "";
                       luaStack := Some [""; "at main.lua on line 1"] |}).
Proof. vm_compute. reflexivity. Qed.

(** ** Closing the captured locals *)

Lemma close_entry_fields i l m :
  let m' := Op.close_entry i l m in
  _localsUsedAsUpvalues (this m') = delete i (_localsUsedAsUpvalues (this m)) /\
  _register (this m') = arr_delete (_register (this m)) (registerIndex l) /\
  cells m' = match cells m !! upvalue_ref l with
             | Some u => <[upvalue_ref l := closed_with u (reg m (registerIndex l))]> (cells m)
             | None => cells m
             end.
Proof. destruct m as [[] ]. repeat split. Qed.

Lemma closed_with_twice u v w : closed_with (closed_with u v) w = closed_with u w.
Proof. reflexivity. Qed.

Lemma reg_slot m j : reg m j = default VUndefined (slot (_register (this m)) j).
Proof. apply arr_get_slot. Qed.

Lemma close_all_cons l0 rest m :
  _localsUsedAsUpvalues (this m) = l0 :: rest ->
  Op.close_all (length (l0 :: rest)) m = Op.close_all (length rest) (Op.close_entry 0 l0 m).
Proof. intros Hls. simpl. rewrite Hls. reflexivity. Qed.

(** The loop of RETURN: it empties the list, deletes the register of every
    entry, and closes every entry's upvalue; when no register and no upvalue
    occurs twice in the list, each upvalue holds the value its register had
    when the loop began. *)
Lemma close_all_spec ls : forall m,
  _localsUsedAsUpvalues (this m) = ls ->
  let m' := Op.close_all (length ls) m in
  _localsUsedAsUpvalues (this m') = [] /\
  (forall j, slot (_register (this m')) j =
             if decide (j ∈ registerIndex <$> ls) then None
             else slot (_register (this m)) j) /\
  (forall c, c ∉ upvalue_ref <$> ls -> cells m' !! c = cells m !! c) /\
  (forall l u, l ∈ ls -> cells m !! upvalue_ref l = Some u ->
     exists v, cells m' !! upvalue_ref l = Some (closed_with u v) /\
               (NoDup (registerIndex <$> ls) -> NoDup (upvalue_ref <$> ls) ->
                v = reg m (registerIndex l))).
Proof.
  induction ls as [|l0 rest IH]; intros m Hls.
  - simpl. split; [exact Hls|]. split; [|split].
    + intros j. reflexivity.
    + reflexivity.
    + intros l u Hin. inversion Hin.
  - cbv zeta. rewrite (close_all_cons _ _ _ Hls).
    destruct (close_entry_fields 0 l0 m) as (Hl1 & Hr1 & Hc1).
    set (m1 := Op.close_entry 0 l0 m) in *.
    rewrite Hls in Hl1. simpl in Hl1.
    destruct (IH m1 Hl1) as (Hlocals & Hslot & Hother & Hclosed).
    split; [exact Hlocals|]. split; [|split].
    + intros j. rewrite Hslot, Hr1, slot_arr_delete.
      destruct (decide (j ∈ registerIndex <$> rest)) as [Hin|Hout].
      * rewrite decide_True; [reflexivity|]. rewrite fmap_cons. apply elem_of_cons. auto.
      * destruct (decide (j = registerIndex l0)) as [->|Hne].
        -- rewrite decide_True; [reflexivity|]. rewrite fmap_cons. apply elem_of_cons. auto.
        -- rewrite decide_False; [reflexivity|].
           rewrite fmap_cons. intros [?|?]%elem_of_cons; contradiction.
    + intros c Hc. rewrite fmap_cons in Hc. apply not_elem_of_cons in Hc as [Hne Hc].
      rewrite (Hother c Hc), Hc1.
      destruct (cells m !! upvalue_ref l0); [|reflexivity].
      apply list_lookup_insert_ne. congruence.
    + intros l u Hin Hu.
      (* what the cell of l holds after the head was closed *)
      assert (Hu1 : exists w, cells m1 !! upvalue_ref l = Some (closed_with u w) \/
                              (upvalue_ref l <> upvalue_ref l0 /\
                               cells m1 !! upvalue_ref l = Some u)).
      { rewrite Hc1. destruct (decide (upvalue_ref l = upvalue_ref l0)) as [E|E].
        - exists (reg m (registerIndex l0)). left. rewrite <- E, Hu.
          apply list_lookup_insert_eq. eapply lookup_lt_Some. exact Hu.
        - exists VUndefined. right. split; [exact E|].
          destruct (cells m !! upvalue_ref l0); [|exact Hu].
          rewrite list_lookup_insert_ne by congruence. exact Hu. }
      apply elem_of_cons in Hin as [->|Hin].
      * (* the head itself *)
        destruct (decide (upvalue_ref l0 ∈ upvalue_ref <$> rest)) as [Hdup|Hfresh].
        -- apply list_elem_of_fmap in Hdup as (l' & Eref & Hin').
           assert (Hcell : cells m1 !! upvalue_ref l'
                           = Some (closed_with u (reg m (registerIndex l0)))).
           { rewrite <- Eref, Hc1, Hu. apply list_lookup_insert_eq.
             eapply lookup_lt_Some. exact Hu. }
           destruct (Hclosed l' _ Hin' Hcell) as (v & Hv & _).
           exists v. rewrite Eref, Hv, closed_with_twice. split; [reflexivity|].
           intros _ Hnd. rewrite fmap_cons in Hnd. apply NoDup_cons in Hnd as [Hnd _].
           exfalso. apply Hnd. apply list_elem_of_fmap. exists l'. auto.
        -- exists (reg m (registerIndex l0)). split; [|reflexivity].
           rewrite (Hother _ Hfresh), Hc1, Hu.
           apply list_lookup_insert_eq. eapply lookup_lt_Some. exact Hu.
      * (* an entry of the tail *)
        destruct Hu1 as (w & [Hcell | [Hne Hcell]]).
        -- destruct (Hclosed l _ Hin Hcell) as (v & Hv & Hval).
           exists v. rewrite Hv, closed_with_twice. split; [reflexivity|].
           intros Hnd1 Hnd2. rewrite fmap_cons in Hnd1, Hnd2.
           apply NoDup_cons in Hnd1 as [Hhead1 Hnd1].
           apply NoDup_cons in Hnd2 as [Hhead2 Hnd2].
           rewrite (Hval Hnd1 Hnd2), !reg_slot, Hr1, slot_arr_delete.
           rewrite decide_False; [reflexivity|].
           intros E. apply Hhead1. rewrite <- E. apply list_elem_of_fmap. exists l. auto.
        -- destruct (Hclosed l _ Hin Hcell) as (v & Hv & Hval).
           exists v. split; [exact Hv|].
           intros Hnd1 Hnd2. rewrite fmap_cons in Hnd1, Hnd2.
           apply NoDup_cons in Hnd1 as [Hhead1 Hnd1].
           apply NoDup_cons in Hnd2 as [Hhead2 Hnd2].
           rewrite (Hval Hnd1 Hnd2), !reg_slot, Hr1, slot_arr_delete.
           rewrite decide_False; [reflexivity|].
           intros E. apply Hhead1. rewrite <- E. apply list_elem_of_fmap. exists l. auto.
Qed.

Lemma return_closes a b m :
  exists retvals,
    Op.return_ a b m =
      (Ok retvals, Op.close_all (length (_localsUsedAsUpvalues (this m))) m).
Proof.
  eexists. unfold Op.return_.
  cbv beta iota zeta delta [bind get ret modify]. reflexivity.
Qed.

(** ** How a run ends *)

Lemma done_none (h : M unit) m retvals m' :
  (h ;; ret (None : option jsarray)) m <> (Ok (Some retvals), m').
Proof. unfold bind, ret. destruct (h m) as [[|] ]; congruence. Qed.

(** Only RETURN hands a value back to the loop. *)
Lemma executeInstruction_value H data i m retvals m' :
  Closure._executeInstruction H data i m = (Ok (Some retvals), m') ->
  op i = 30%nat /\ Op.return_ (A i) (Z.to_nat (B i)) m = (Ok retvals, m').
Proof.
  unfold Closure._executeInstruction. cbv zeta.
  destruct (op i) as [|n]; [intros Hx; exfalso; exact (done_none _ _ _ _ Hx)|].
  do 29 (destruct n as [|n];
         [intros Hx; exfalso;
          first [ exact (done_none _ _ _ _ Hx)
                | simpl in Hx; exact (done_none _ _ _ _ Hx) ]|]).
  destruct n as [|n].
  - intros Hx. split; [reflexivity|]. unfold bind, ret in Hx.
    destruct (Op.return_ (A i) (Z.to_nat (B i)) m) as [[r|e] m2]; congruence.
  - do 7 (destruct n as [|n];
          [intros Hx; exfalso;
           first [ exact (done_none _ _ _ _ Hx)
                 | simpl in Hx; exact (done_none _ _ _ _ Hx) ]|]).
    intros Hx. exfalso.
    match type of Hx with context [if ?c then _ else _] => destruct c end;
      [exact (done_none _ _ _ _ Hx)|discriminate Hx].
Qed.

(** The two exits that mark the activation terminated, and only they. *)
Lemma run_loop_terminated H data fuel : forall m x m',
  Closure.run_loop H data fuel m = Some (Ok x, m') ->
  (x = RanOut \/ exists retvals, x = Returned retvals) ->
  terminated (this m') = true.
Proof.
  induction fuel as [|fuel IH]; intros m x m' Hrun Hx; simpl in Hrun; [discriminate|].
  destruct (lookupZ (instructions data) (_pc (this m))) as [i|].
  2:{ inversion Hrun. reflexivity. }
  destruct (Closure._executeInstruction H data i (add_pc 1 m)) as [[retval|e] m2];
    [|discriminate].
  assert (Hafter : Closure.after_handler retval m2 (Closure.run_loop H data fuel)
                   = Some (Ok x, m') -> terminated (this m') = true).
  { unfold Closure.after_handler. destruct retval as [r|].
    - intros E. inversion E. reflexivity.
    - destruct (status_eqb (debug_status m2) Suspending).
      + intros E. inversion E; subst. destruct Hx as [|[? ?]]; discriminate.
      + intros E. eapply IH; eauto. }
  destruct (Coroutine_running m2) as [co|]; [|auto].
  destruct (status_eqb (co_status co) Suspending); [|auto].
  unfold Closure.suspend in Hrun.
  destruct (co_func_instance co =? self m2)%nat; inversion Hrun; subst;
    destruct Hx as [|[? ?]]; discriminate.
Qed.

(** ** The loop, turn by turn *)

(** A turn after which the loop goes on costs one unit of fuel. *)
Lemma run_loop_turn H data fuel m m1 :
  Loop.turn H data m = Some m1 ->
  Closure.run_loop H data (S fuel) m = Closure.run_loop H data fuel m1.
Proof.
  unfold Loop.turn. simpl Closure.run_loop.
  destruct (lookupZ (instructions data) (_pc (this m))) as [i|]; [|discriminate].
  destruct (Closure._executeInstruction H data i (add_pc 1 m)) as [[[r|]|e] m2];
    try discriminate.
  unfold coroutine_is, Closure.after_handler.
  destruct (Coroutine_running m2) as [co|].
  - destruct (status_eqb (co_status co) Suspending); [discriminate|].
    destruct (status_eqb (debug_status m2) Suspending); [discriminate|].
    intros E. inversion E. reflexivity.
  - destruct (status_eqb (debug_status m2) Suspending); [discriminate|].
    intros E. inversion E. reflexivity.
Qed.

Lemma run_loop_turns H data k : forall fuel m m1,
  Loop.turns H data k m = Some m1 ->
  Closure.run_loop H data (k + fuel) m = Closure.run_loop H data fuel m1.
Proof.
  induction k as [|k IH]; intros fuel m m1 Hk; simpl in Hk.
  - inversion Hk. reflexivity.
  - destruct (Loop.turn H data m) as [m2|] eqn:Hturn; [|discriminate].
    change (S k + fuel)%nat with (S (k + fuel)).
    rewrite (run_loop_turn _ _ _ _ _ Hturn). apply IH. exact Hk.
Qed.

(** A loop that ends with a return value went on for some turns, arrived
    at a RETURN, and ended on the machine that RETURN left, marked
    terminated. *)
Lemma run_loop_returned_turns H data fuel : forall m retvals m',
  Closure.run_loop H data fuel m = Some (Ok (Returned retvals), m') ->
  exists k m1 i,
    Loop.turns H data k m = Some m1 /\
    lookupZ (instructions data) (_pc (this m1)) = Some i /\
    op i = 30%nat /\
    Op.return_ (A i) (Z.to_nat (B i)) (add_pc 1 m1)
      = (Ok retvals, snd (Op.return_ (A i) (Z.to_nat (B i)) (add_pc 1 m1))) /\
    m' = with_this (set_terminated true)
           (snd (Op.return_ (A i) (Z.to_nat (B i)) (add_pc 1 m1))).
Proof.
  induction fuel as [|fuel IH]; intros m retvals m' Hrun; simpl in Hrun; [discriminate|].
  destruct (lookupZ (instructions data) (_pc (this m))) as [i|] eqn:Hi; [|discriminate].
  destruct (Closure._executeInstruction H data i (add_pc 1 m)) as [[retval|e] m2] eqn:Hx;
    [|discriminate].
  assert (Hafter : coroutine_is Suspending m2 = false ->
                   Closure.after_handler retval m2 (Closure.run_loop H data fuel)
                     = Some (Ok (Returned retvals), m') ->
                   exists k m1 i,
                     Loop.turns H data k m = Some m1 /\
                     lookupZ (instructions data) (_pc (this m1)) = Some i /\
                     op i = 30%nat /\
                     Op.return_ (A i) (Z.to_nat (B i)) (add_pc 1 m1)
                       = (Ok retvals, snd (Op.return_ (A i) (Z.to_nat (B i)) (add_pc 1 m1))) /\
                     m' = with_this (set_terminated true)
                            (snd (Op.return_ (A i) (Z.to_nat (B i)) (add_pc 1 m1)))).
  { intros Hc. unfold Closure.after_handler. destruct retval as [r|].
    - intros E. inversion E; subst.
      apply executeInstruction_value in Hx as [Hop Hret].
      exists 0%nat, m, i. rewrite Hret. auto.
    - destruct (status_eqb (debug_status m2) Suspending) eqn:Ed; [discriminate|].
      intros E. destruct (IH _ _ _ E) as (k & m1 & i' & Hk & Hrest).
      exists (S k), m1, i'. split; [|exact Hrest].
      simpl. unfold Loop.turn. rewrite Hi, Hx, Hc, Ed. exact Hk. }
  unfold coroutine_is in Hafter.
  destruct (Coroutine_running m2) as [co|]; [|auto].
  destruct (status_eqb (co_status co) Suspending); [|auto].
  unfold Closure.suspend in Hrun.
  destruct (co_func_instance co =? self m2)%nat; discriminate.
Qed.

(** C5, as amended: for every activation that has terminated by executing
    RETURN, the captured-locals list is empty, the register slot of every
    entry the list had when the RETURN began is deleted, and every such
    entry's upvalue is closed; when no register and no upvalue occurred
    twice in the list, the upvalue holds the value its register had at that
    moment.  The machine [m0] on which the RETURN began is the one of the
    run: after its resumption phase the loop went on for [k] turns to [m1],
    fetched the RETURN at pc there and incremented pc; and the run ends on
    the machine that this RETURN left, marked terminated. *)
Theorem return_terminates_with_locals_closed H data fuel m retvals m' :
  Closure._run H data fuel m = Some (Ok (Returned retvals), m') ->
  terminated (this m') = true /\
  _localsUsedAsUpvalues (this m') = [] /\
  exists k m1 i,
    Loop.turns H data k (snd (Closure.resumption data m)) = Some m1 /\
    lookupZ (instructions data) (_pc (this m1)) = Some i /\
    op i = 30%nat /\
    let m0 := add_pc 1 m1 in
    fst (Op.return_ (A i) (Z.to_nat (B i)) m0) = Ok retvals /\
    m' = with_this (set_terminated true) (snd (Op.return_ (A i) (Z.to_nat (B i)) m0)) /\
    (forall l, l ∈ _localsUsedAsUpvalues (this m0) ->
       slot (_register (this m')) (registerIndex l) = None) /\
    (forall l u, l ∈ _localsUsedAsUpvalues (this m0) ->
       cells m0 !! upvalue_ref l = Some u ->
       exists v, cells m' !! upvalue_ref l = Some (closed_with u v) /\
         (NoDup (registerIndex <$> _localsUsedAsUpvalues (this m0)) ->
          NoDup (upvalue_ref <$> _localsUsedAsUpvalues (this m0)) ->
          v = reg m0 (registerIndex l))).
Proof.
  intros Hrun. unfold Closure._run in Hrun.
  destruct (Closure.resumption data m) as [[[]|e] m2]; [|discriminate].
  apply run_loop_returned_turns in Hrun as (k & m1 & i & Hk & Hi & Hop & Hret & ->).
  set (m0 := add_pc 1 m1) in *.
  destruct (return_closes (A i) (Z.to_nat (B i)) m0) as (rv & Hclose).
  destruct (close_all_spec _ m0 eq_refl) as (Hlocals & Hslot & _ & Hclosed).
  rewrite Hclose in Hret |- *. simpl snd in *. inversion Hret; subst rv.
  split; [reflexivity|]. split; [exact Hlocals|].
  exists k, m1, i. split; [exact Hk|]. split; [exact Hi|]. split; [exact Hop|].
  cbv zeta. fold m0. rewrite Hclose. simpl fst. simpl snd.
  split; [reflexivity|]. split; [reflexivity|]. split.
  - intros l Hin. simpl. rewrite Hslot. rewrite decide_True; [reflexivity|].
    apply list_elem_of_fmap. exists l. auto.
  - intros l u Hin Hu. exact (Hclosed l u Hin Hu).
Qed.

(** CLOSURE captures register 0 for the new function, RETURN hands R[0]
    back: the upvalue is closed on the value 10 and register 0 is gone. *)
Lemma return_terminates_with_locals_closed_witness :
  let data := program [ {| op := 36; A := 1; B := 0; C := 0 |};
                        {| op := 0; A := 0; B := 0; C := 0 |};
                        {| op := 30; A := 0; B := 2; C := 0 |} ] 1 0 None in
  let m := machine_with [Some (num 10)] [] in
  exists m',
    Closure._run idle_host data 5 m = Some (Ok (Returned [Some (num 10)]), m') /\
    terminated (this m') = true /\
    _localsUsedAsUpvalues (this m') = [] /\
    _register (this m') = [None; Some (VFunction 0)] /\
    cells m' = [ {| open := false; up_value := num 10; up_register := 0%nat;
                    up_name := None |} ].
Proof.
  intros data m.
  destruct (Closure._run idle_host data 5 m) as [[[[rv| | |]|e] m']|] eqn:E;
    try (vm_compute in E; discriminate).
  pose proof (return_terminates_with_locals_closed idle_host data 5 m rv m' E)
    as (Hterm & Hlocals & _).
  exists m'. vm_compute in E. inversion E; subst rv m'.
  split; [reflexivity|]. split; [exact Hterm|]. split; [exact Hlocals|].
  split; reflexivity.
Defined.

(** C5, as stated, fails: a run that leaves the loop because there is no
    instruction at pc (here: the code ends after CLOSURE and its
    pseudo-instruction) is marked terminated as well, with the captured
    local still in the list, its upvalue open and its register in place. *)
Lemma running_out_terminates_with_open_upvalue :
  let data := program [ {| op := 36; A := 1; B := 0; C := 0 |};
                        {| op := 0; A := 0; B := 0; C := 0 |} ] 1 0 None in
  let m := machine_with [Some (num 10)] [] in
  exists m',
    Closure._run idle_host data 5 m = Some (Ok RanOut, m') /\
    terminated (this m') = true /\
    _localsUsedAsUpvalues (this m') = [ {| registerIndex := 0; upvalue_ref := 0 |} ] /\
    cells m' = [ {| open := true; up_value := VUndefined; up_register := 0%nat;
                    up_name := None |} ] /\
    slot (_register (this m')) 0 = Some (num 10).
Proof.
  intros data m. eexists. split; [vm_compute; reflexivity|].
  vm_compute. repeat split; reflexivity.
Qed.

(** ** The argument vector is assigned by [execute] only *)

Lemma keeps_ret {X} (x : X) : keeps_params (ret x).
Proof. intros m. reflexivity. Qed.

Lemma keeps_throw {X} e : keeps_params (throw e : M X).
Proof. intros m. reflexivity. Qed.

Lemma keeps_get : keeps_params get.
Proof. intros m. reflexivity. Qed.

Lemma keeps_modify f :
  (forall m, _params (this (f m)) = _params (this m)) -> keeps_params (modify f).
Proof. intros Hf m. apply Hf. Qed.

Lemma keeps_bind {X Y} (c : M X) (k : X -> M Y) :
  keeps_params c -> (forall x, keeps_params (k x)) -> keeps_params (bind c k).
Proof.
  intros Hc Hk m. unfold bind. specialize (Hc m).
  destruct (c m) as [[x|e] m1]; simpl in *; [|exact Hc].
  rewrite (Hk x m1). exact Hc.
Qed.

Lemma keeps_forM {X} (body : X -> M unit) xs :
  (forall x, keeps_params (body x)) -> keeps_params (forM xs body).
Proof.
  intros Hb. induction xs as [|x xs IH]; simpl; [apply keeps_ret|].
  apply keeps_bind; [apply Hb|intros _; exact IH].
Qed.

Lemma keeps_mapM {X Y} (body : X -> M Y) xs :
  (forall x, keeps_params (body x)) -> keeps_params (mapM body xs).
Proof.
  intros Hb. induction xs as [|x xs IH]; simpl; [apply keeps_ret|].
  apply keeps_bind; [apply Hb|intros y].
  apply keeps_bind; [exact IH|intros ys; apply keeps_ret].
Qed.

Ltac keeps_step :=
  first
    [ match goal with Hk : _ |- _ => solve [apply Hk] end
    | apply keeps_ret | apply keeps_throw | apply keeps_get
    | apply keeps_modify; intros; reflexivity
    | apply keeps_bind; [|intros]
    | apply keeps_forM; intros
    | apply keeps_mapM; intros
    | progress cbv zeta
    | match goal with
      | |- keeps_params (if ?c then _ else _) => destruct c
      | |- keeps_params (match ?x with _ => _ end) => destruct x
      end ].

Ltac keeps := cbv zeta; repeat keeps_step.

Lemma close_all_params n : forall m,
  _params (this (Op.close_all n m)) = _params (this m).
Proof.
  induction n as [|n IH]; intros m; simpl; [reflexivity|].
  destruct (_localsUsedAsUpvalues (this m) !! 0%nat); [|reflexivity].
  rewrite IH. reflexivity.
Qed.

Lemma close_from_params n : forall i a m,
  _params (this (Op.close_from n i a m)) = _params (this m).
Proof.
  induction n as [|n IH]; intros i a m; simpl; [reflexivity|].
  destruct (_localsUsedAsUpvalues (this m) !! i) as [l|]; [|reflexivity].
  destruct (a <=? registerIndex l)%nat; rewrite IH; reflexivity.
Qed.

Section KeepsParams.

Variable H : Host.
Variable data : prototype.
Hypothesis Hhost : host_keeps_params H.

Lemma apply_value_params f operands : keeps_params (Op.apply_value H f operands).
Proof. destruct f; try apply keeps_throw. apply Hhost. Qed.

Lemma apply_call_params f args : keeps_params (Op.apply_call H f args).
Proof. destruct f; try apply keeps_throw. apply Hhost. Qed.

Lemma resume_params f : keeps_params (h_resume H f).
Proof. apply Hhost. Qed.

Lemma index0_params r : keeps_params (Op.index0 H r).
Proof. unfold Op.index0. keeps. Qed.

Lemma metamethod_params name v : keeps_params (Op.metamethod name v).
Proof. unfold Op.metamethod. keeps. Qed.

Lemma arith_params o name a b c : keeps_params (Op.arith H data o name a b c).
Proof.
  pose proof apply_value_params. pose proof index0_params. pose proof metamethod_params.
  unfold Op.arith, Op.RK, Op.set_reg. keeps.
Qed.

Lemma unm_params a b : keeps_params (Op.unm H a b).
Proof.
  pose proof apply_value_params. pose proof index0_params. pose proof metamethod_params.
  unfold Op.unm, Op.set_reg. keeps.
Qed.

Lemma lt_params a b c : keeps_params (Op.lt H data a b c).
Proof.
  pose proof apply_value_params. pose proof index0_params. pose proof metamethod_params.
  unfold Op.lt, Op.RK, Op.incr_pc. keeps.
Qed.

Lemma splice_results_params r a c retvals : keeps_params (Op.splice_results r a c retvals).
Proof.
  unfold Op.splice_results, Op.this_write, Op.this_truncate, Op.this_register, Op.set_reg.
  keeps.
Qed.

Lemma call_params r a b c : keeps_params (Op.call H r a b c).
Proof.
  pose proof apply_call_params. pose proof resume_params. pose proof splice_results_params.
  unfold Op.call, Op.this_register. keeps.
Qed.

Lemma return_params a b : keeps_params (Op.return_ a b).
Proof.
  unfold Op.return_. cbv zeta.
  apply keeps_bind; [apply keeps_get|intros m].
  apply keeps_bind; [|intros; apply keeps_ret].
  apply keeps_modify. apply close_all_params.
Qed.

Lemma close_params a b c : keeps_params (Op.close a b c).
Proof.
  unfold Op.close. apply keeps_bind; [apply keeps_get|intros m].
  apply keeps_modify. intros m'. apply close_from_params.
Qed.

Lemma bind_upvalue_params bx i ups : keeps_params (Op.bind_upvalue data bx i ups).
Proof. unfold Op.bind_upvalue. keeps. Qed.

Lemma closure_loop_params n bx : forall ups, keeps_params (Op.closure_loop data n bx ups).
Proof.
  pose proof bind_upvalue_params.
  induction n as [|n IH]; intros ups; simpl; [apply keeps_ret|].
  unfold Op.incr_pc. keeps.
Qed.

Lemma closure_params a bx : keeps_params (Op.closure data a bx).
Proof. pose proof closure_loop_params. unfold Op.closure, Op.set_reg. keeps. Qed.

Lemma vararg_params a b : keeps_params (Op.vararg data a b).
Proof. unfold Op.vararg, Op.set_reg. keeps. Qed.

Lemma other_op_params n a b c : keeps_params (h_other_op H n a b c).
Proof. apply Hhost. Qed.

Lemma executeInstruction_params i : keeps_params (Closure._executeInstruction H data i).
Proof.
  pose proof arith_params. pose proof unm_params. pose proof lt_params.
  pose proof call_params. pose proof return_params. pose proof close_params.
  pose proof closure_params. pose proof vararg_params. pose proof other_op_params.
  unfold Closure._executeInstruction, Op.move, Op.loadk, Op.loadbool, Op.loadnil,
    Op.add, Op.sub, Op.mul, Op.div, Op.mod_, Op.pow, Op.not, Op.jmp, Op.test,
    Op.testset, Op.tailcall, Op.set_reg, Op.incr_pc.
  keeps.
Qed.

Lemma resumption_params : keeps_params (Closure.resumption data).
Proof. pose proof splice_results_params. unfold Closure.resumption. keeps. Qed.

Lemma run_loop_params fuel : forall m r,
  Closure.run_loop H data fuel m = Some r ->
  _params (this (snd r)) = _params (this m).
Proof.
  induction fuel as [|fuel IH]; intros m r Hrun; simpl in Hrun; [discriminate|].
  destruct (lookupZ (instructions data) (_pc (this m))) as [i|].
  2:{ inversion Hrun. reflexivity. }
  pose proof (executeInstruction_params i (add_pc 1 m)) as Hx.
  destruct (Closure._executeInstruction H data i (add_pc 1 m)) as [[retval|e] m2];
    simpl in Hx.
  2:{ inversion Hrun. exact Hx. }
  assert (Hafter : Closure.after_handler retval m2 (Closure.run_loop H data fuel) = Some r ->
                   _params (this (snd r)) = _params (this m)).
  { unfold Closure.after_handler. destruct retval as [rv|].
    - intros E. inversion E. exact Hx.
    - destruct (status_eqb (debug_status m2) Suspending).
      + intros E. inversion E. exact Hx.
      + intros E. rewrite (IH _ _ E). exact Hx. }
  destruct (Coroutine_running m2) as [co|]; [|auto].
  destruct (status_eqb (co_status co) Suspending); [|auto].
  unfold Closure.suspend in Hrun.
  destruct (co_func_instance co =? self m2)%nat; inversion Hrun; simpl.
  - destruct Hhost as (_ & _ & _ & Hremove & _). rewrite Hremove. exact Hx.
  - exact Hx.
Qed.

Lemma run_params fuel m r :
  Closure._run H data fuel m = Some r -> _params (this (snd r)) = _params (this m).
Proof.
  unfold Closure._run. pose proof (resumption_params m) as Hr.
  destruct (Closure.resumption data m) as [[|e] m2]; simpl in Hr.
  - intros Hrun. rewrite (run_loop_params _ _ _ Hrun). exact Hr.
  - intros E. inversion E. exact Hr.
Qed.

(** When [execute] comes back, by a return or by an error, the activation
    still holds the argument vector it was called with. *)
Lemma execute_params fuel args heap xs m out :
  heap !! args = Some xs ->
  Closure.execute H data fuel args heap m = Some out ->
  _params (this (snd (fst out))) = xs.
Proof.
  intros Hargs. unfold Closure.execute. rewrite Hargs.
  pose proof (execute_entry_state data xs m) as (_ & Hparams & _).
  destruct (Closure.execute_entry data xs m) as [m1 rest]. simpl in Hparams.
  pose proof (run_params fuel m1) as Hrun.
  destruct (Closure._run H data fuel m1) as [[[retval|e] m2]|]; intros Hout;
    inversion Hout; exact (eq_trans (Hrun _ eq_refl) Hparams).
Qed.

End KeepsParams.

Lemma idle_host_keeps_params : host_keeps_params idle_host.
Proof. repeat split. Defined.

(** ** The caller's argument array and the wrapper *)

(** C10: [execute (args)] works on the array object it is given: when it
    comes back (by a return or by an error), that array holds only the
    elements after the first paramCount, every other array is untouched,
    and the activation holds a copy of the full argument vector as
    [_params]: [execute] sets it on entry, and it is still there when
    [execute] comes back, since no handler assigns it (for a host that
    does not start the same activation again).  The function returned by
    the constructor builds a fresh array for [execute], so every array
    that existed before its call is untouched. *)
Theorem execute_consumes_args_wrapper_shields H data fuel heap m :
  (forall args xs out,
     heap !! args = Some xs ->
     Closure.execute H data fuel args heap m = Some out ->
     snd out !! args = Some (drop (paramCount data) xs) /\
     (forall l, l <> args -> snd out !! l = heap !! l) /\
     _params (this (fst (Closure.execute_entry data xs m))) = xs /\
     (host_keeps_params H -> _params (this (snd (fst out))) = xs)) /\
  (forall arguments out,
     Closure.wrapper H data fuel arguments heap m = Some out ->
     (forall l xs, heap !! l = Some xs -> snd out !! l = Some xs) /\
     heap !! fresh (dom heap) = None /\
     snd out !! fresh (dom heap) = Some (drop (paramCount data) (dense arguments)) /\
     (host_keeps_params H -> _params (this (snd (fst out))) = dense arguments)).
Proof.
  split.
  - intros args xs out Hargs Hout.
    rewrite (execute_result _ _ _ _ _ _ _ _ Hargs Hout).
    split; [apply lookup_insert_eq|]. split; [|split].
    + intros l Hl. apply lookup_insert_ne. congruence.
    + apply execute_entry_state.
    + intros Hhost. exact (execute_params H data Hhost _ _ _ _ _ _ Hargs Hout).
  - intros arguments out Hout. unfold Closure.wrapper in Hout.
    set (args := fresh (dom heap)) in *.
    assert (Hfresh : heap !! args = None).
    { apply not_elem_of_dom. apply is_fresh. }
    rewrite (execute_result _ _ _ _ _ (dense arguments) _ _ (lookup_insert_eq _ _ _) Hout).
    split; [|split; [exact Hfresh|split]].
    + intros l xs Hl. rewrite insert_insert_eq.
      rewrite lookup_insert_ne; [exact Hl|]. congruence.
    + rewrite insert_insert_eq. apply lookup_insert_eq.
    + intros Hhost.
      exact (execute_params H data Hhost _ _ _ _ _ _ (lookup_insert_eq _ _ _) Hout).
Qed.

(** A function of one parameter that returns its first register, called
    with (10, 20, 30): directly on the array at location 5, and through
    the wrapper. *)
Lemma execute_consumes_args_wrapper_shields_witness :
  let data := program [ {| op := 30; A := 0; B := 2; C := 0 |} ] 1 0 None in
  let heap : gmap nat jsarray := {[ 5%nat := [Some (num 10); Some (num 20); Some (num 30)] ]} in
  let m := machine_with [] [] in
  (exists out,
     Closure.execute idle_host data 3 5 heap m = Some out /\
     fst (fst out) = Ok (Returned [Some (num 10)]) /\
     snd out !! 5%nat = Some [Some (num 20); Some (num 30)] /\
     _params (this (snd (fst out))) = [Some (num 10); Some (num 20); Some (num 30)]) /\
  (exists out,
     Closure.wrapper idle_host data 3 [num 10; num 20; num 30] heap m = Some out /\
     fst (fst out) = Ok (Returned [Some (num 10)]) /\
     snd out !! 5%nat = Some [Some (num 10); Some (num 20); Some (num 30)] /\
     _params (this (snd (fst out))) = [Some (num 10); Some (num 20); Some (num 30)]).
Proof.
  intros data heap m.
  pose proof (execute_consumes_args_wrapper_shields idle_host data 3 heap m) as [He Hw].
  split.
  - destruct (Closure.execute idle_host data 3 5 heap m) as [out|] eqn:E;
      [|vm_compute in E; discriminate].
    exists out. split; [reflexivity|].
    destruct (He 5%nat _ out eq_refl E) as (Hargs & _ & _ & Hparams).
    split; [|split; [exact Hargs|exact (Hparams idle_host_keeps_params)]].
    vm_compute in E. inversion E. reflexivity.
  - destruct (Closure.wrapper idle_host data 3 [num 10; num 20; num 30] heap m)
      as [out|] eqn:E; [|vm_compute in E; discriminate].
    exists out. split; [reflexivity|].
    destruct (Hw _ out E) as (Hold & _ & _ & Hparams).
    split; [|split; [apply Hold; reflexivity|exact (Hparams idle_host_keeps_params)]].
    vm_compute in E. inversion E. reflexivity.
Defined.

(** * Further properties of the source *)

(** ** The dispatcher *)

(** When neither the debugger nor a coroutine is resuming, [_run] starts
    its loop on the machine as it is, with the terminated flag cleared. *)
Lemma resumption_idle data m :
  not_resuming m ->
  Closure.resumption data m = (Ok tt, with_this (set_terminated false) m).
Proof.
  intros [Hd Hc]. unfold Closure.resumption.
  cbv beta iota zeta delta [bind get ret modify].
  assert (Hd' : status_eqb (debug_status (with_this (set_terminated false) m)) Resuming = false)
    by (destruct m; exact Hd).
  assert (Hc' : coroutine_is Resuming (with_this (set_terminated false) m) = false)
    by (destruct m; exact Hc).
  rewrite Hd', Hc'. reflexivity.
Qed.

Lemma run_loop_throw H data fuel m i e m' :
  lookupZ (instructions data) (_pc (this m)) = Some i ->
  Closure._executeInstruction H data i (add_pc 1 m) = (Throw e, m') ->
  Closure.run_loop H data (S fuel) m = Some (Throw e, m').
Proof. intros Hi Hx. simpl. rewrite Hi, Hx. reflexivity. Qed.

Lemma executeInstruction_unknown H data i m :
  (38 <= op i)%nat ->
  Closure._executeInstruction H data i m = (Throw (Closure.not_implemented (op i)), m).
Proof.
  intros Hop. unfold Closure._executeInstruction. cbv zeta.
  destruct (op i) as [|n]; [lia|].
  do 37 (destruct n as [|n]; [lia|]).
  reflexivity.
Qed.

(** An instruction that hands a value back to the loop is a RETURN, and it
    leaves the captured-locals list empty. *)
Theorem value_comes_from_return H data i m retvals m' :
  Closure._executeInstruction H data i m = (Ok (Some retvals), m') ->
  op i = 30%nat /\ _localsUsedAsUpvalues (this m') = [].
Proof.
  intros Hx. apply executeInstruction_value in Hx as [Hop Hret].
  split; [exact Hop|].
  destruct (return_closes (A i) (Z.to_nat (B i)) m) as (rv & Hclose).
  rewrite Hclose in Hret. inversion Hret; subst.
  apply (close_all_spec _ m eq_refl).
Qed.

Lemma value_comes_from_return_witness :
  let i := {| op := 30; A := 0; B := 2; C := 0 |} in
  let m := machine_with [Some (num 10)] [] in
  Closure._executeInstruction idle_host (program [] 0 0 None) i m
    = (Ok (Some [Some (num 10)]), m) /\
  op i = 30%nat /\ _localsUsedAsUpvalues (this m) = [].
Proof.
  intros i m.
  assert (E : Closure._executeInstruction idle_host (program [] 0 0 None) i m
              = (Ok (Some [Some (num 10)]), m)) by (vm_compute; reflexivity).
  split; [exact E|].
  exact (value_comes_from_return idle_host (program [] 0 0 None) i m _ _ E).
Defined.

(** An opcode outside the table of 38 handlers, wherever in the code it
    stands, stops the activation with the host error "Operation not
    implemented! (n)", which [execute] hands on wrapped as a language error
    whose source stack ends with the frame of this activation.  The loop
    may have gone on for any number [k] of turns before it arrives, on the
    machine [m1], at the offending instruction: [execute] leaves the
    activation on [m1] with pc incremented, that is with pc behind that
    instruction and no register touched. *)
Theorem unknown_opcode_is_a_host_error H data k fuel args heap xs m m_r m1 i :
  heap !! args = Some xs ->
  Closure.resumption data (fst (Closure.execute_entry data xs m)) = (Ok tt, m_r) ->
  Loop.turns H data k m_r = Some m1 ->
  lookupZ (instructions data) (_pc (this m1)) = Some i ->
  (38 <= op i)%nat ->
  exists e,
    Closure.execute H data (k + S fuel) args heap m
      = Some (Throw (LuaError e), add_pc 1 m1,
              <[args := drop (paramCount data) xs]> heap) /\
    message e = String.append "Error in host call: Operation not implemented! ("
                  (String.append (number_to_string (number_of_nat (op i))) ")") /\
    (exists before,
       luaStack e = Some (before ++ [frame_text (shown_name data)
                                       (line_text data (add_pc 1 m1))])).
Proof.
  intros Hargs Hres Hk Hi Hop.
  pose proof (execute_entry_state data xs m) as (_ & _ & Hrest & _).
  unfold Closure.execute. rewrite Hargs.
  destruct (Closure.execute_entry data xs m) as [m0 rest] eqn:Hentry.
  simpl in Hrest, Hres. subst rest.
  unfold Closure._run. rewrite Hres.
  rewrite (run_loop_turns H data k (S fuel) _ _ Hk).
  rewrite (run_loop_throw H data fuel _ i _ _ Hi
             (executeInstruction_unknown H data i _ Hop)).
  eexists. split; [reflexivity|].
  split; [reflexivity|]. eexists; reflexivity.
Qed.

(** The unknown opcode 40 as the second instruction, behind a LOADBOOL. *)
Lemma unknown_opcode_is_a_host_error_witness :
  let data := program [ {| op := 2; A := 0; B := 1; C := 0 |};
                        {| op := 40; A := 0; B := 0; C := 0 |} ] 0 0 (Some "main.lua") in
  let heap : gmap nat jsarray := {[ 0%nat := [] ]} in
  let m := machine_with [] [] in
  exists e m',
    Closure.execute idle_host data 2 0 heap m = Some (Throw (LuaError e), m', heap) /\
    message e = "Error in host call: Operation not implemented! (40)" /\
    (exists before, luaStack e = Some (before ++ ["at main.lua on line 2"])) /\
    _pc (this m') = 2 /\
    _register (this m') = [Some (VBoolean true)].
Proof.
  intros data heap m.
  destruct (unknown_opcode_is_a_host_error idle_host data 1 0 0%nat heap [] m
              (machine_with [] [])
              (add_pc 1 (machine_with [Some (VBoolean true)] []))
              {| op := 40; A := 0; B := 0; C := 0 |})
    as (e & Hexec & Hmsg & (before & Hstack)).
  - reflexivity.
  - reflexivity.
  - reflexivity.
  - reflexivity.
  - simpl. lia.
  - exists e, (add_pc 1 (add_pc 1 (machine_with [Some (VBoolean true)] []))).
    split; [exact Hexec|]. split; [exact Hmsg|].
    split; [exists before; exact Hstack|]. split; reflexivity.
Defined.

(** ** Closing upvalues: CLOSE and the loop of RETURN *)

Lemma close_entry_close_cell i l m :
  Op.close_entry i l m =
    with_this (set_locals (delete i (_localsUsedAsUpvalues (this m)))) (close_cell l m).
Proof. destruct m as [[] ]. reflexivity. Qed.

Lemma close_cell_set_locals l ls m :
  close_cell l (with_this (set_locals ls) m) = with_this (set_locals ls) (close_cell l m).
Proof. destruct m as [[] ]. reflexivity. Qed.

Lemma close_cells_set_locals ks ls m :
  close_cells ks (with_this (set_locals ls) m) = with_this (set_locals ls) (close_cells ks m).
Proof.
  revert m. induction ks as [|k ks IH]; intros m; simpl; [reflexivity|].
  rewrite close_cell_set_locals. apply IH.
Qed.

Lemma set_locals_twice ls ks m :
  with_this (set_locals ls) (with_this (set_locals ks) m) = with_this (set_locals ls) m.
Proof. destruct m as [[] ]. reflexivity. Qed.

Lemma set_locals_id m :
  with_this (set_locals (_localsUsedAsUpvalues (this m))) m = m.
Proof. destruct m as [[] ]. reflexivity. Qed.

Lemma close_cells_locals ks m :
  _localsUsedAsUpvalues (this (close_cells ks m)) = _localsUsedAsUpvalues (this m).
Proof.
  revert m. induction ks as [|k ks IH]; intros m; simpl; [reflexivity|].
  rewrite IH. destruct m as [[] ]. reflexivity.
Qed.

(** The loop of RETURN closes every entry and empties the list. *)
Lemma close_all_close_cells ls : forall m,
  _localsUsedAsUpvalues (this m) = ls ->
  Op.close_all (length ls) m = with_this (set_locals []) (close_cells ls m).
Proof.
  induction ls as [|l rest IH]; intros m Hls.
  - simpl. rewrite <- Hls. symmetry. apply set_locals_id.
  - rewrite (close_all_cons _ _ _ Hls), close_entry_close_cell, Hls. simpl delete.
    rewrite IH.
    + rewrite close_cells_set_locals, set_locals_twice. reflexivity.
    + destruct m as [[] ]. reflexivity.
Qed.

(** The loop of CLOSE, started at position [length pre] with the entries
    [pre] before it: the entries at or above register [a] are closed and
    leave the list, the others stay in their order. *)
Lemma close_from_close_cells a suf : forall n pre m,
  _localsUsedAsUpvalues (this m) = pre ++ suf ->
  (length suf <= n)%nat ->
  Op.close_from n (length pre) a m =
    with_this (set_locals (pre ++ filter (fun l => (registerIndex l < a)%nat) suf))
      (close_cells (filter (fun l => (a <= registerIndex l)%nat) suf) m).
Proof.
  induction suf as [|l rest IH]; intros n pre m Hls Hn.
  - rewrite !filter_nil. simpl close_cells. rewrite <- Hls, set_locals_id.
    destruct n as [|n]; [reflexivity|]. simpl.
    rewrite Hls, app_nil_r, lookup_ge_None_2 by lia. reflexivity.
  - destruct n as [|n]; [simpl in Hn; lia|]. simpl in Hn. simpl Op.close_from.
    rewrite Hls, list_lookup_middle by reflexivity.
    destruct (Nat.leb_spec a (registerIndex l)) as [Hge|Hlt].
    + rewrite close_entry_close_cell, Hls, delete_middle.
      rewrite (IH n pre) by (try lia; destruct m as [[] ]; reflexivity).
      rewrite close_cells_set_locals, set_locals_twice.
      rewrite (filter_cons_True (fun l => (a <= registerIndex l)%nat) l) by exact Hge.
      rewrite (filter_cons_False (fun l => (registerIndex l < a)%nat) l) by lia.
      reflexivity.
    + replace (S (length pre)) with (length (pre ++ [l]))
        by (rewrite length_app; simpl; lia).
      rewrite (IH n (pre ++ [l])) by (try lia; rewrite <- app_assoc; exact Hls).
      rewrite (filter_cons_False (fun l => (a <= registerIndex l)%nat) l) by lia.
      rewrite (filter_cons_True (fun l => (registerIndex l < a)%nat) l) by exact Hlt.
      rewrite <- app_assoc. reflexivity.
Qed.

Lemma close_close_cells a b c m :
  Op.close a b c m =
    (Ok tt,
     with_this (set_locals (filter (fun l => (registerIndex l < a)%nat)
                              (_localsUsedAsUpvalues (this m))))
       (close_cells (filter (fun l => (a <= registerIndex l)%nat)
                       (_localsUsedAsUpvalues (this m))) m)).
Proof.
  unfold Op.close. cbv beta iota zeta delta [bind get ret modify].
  rewrite (close_from_close_cells a (_localsUsedAsUpvalues (this m)) _ [] m);
    [reflexivity|reflexivity|lia].
Qed.

Lemma filter_all {X} (P : X -> Prop) `{forall x, Decision (P x)} (xs : list X) :
  (forall x, P x) -> filter P xs = xs.
Proof.
  intros HP. induction xs as [|x xs IH]; [reflexivity|].
  rewrite filter_cons_True by auto. f_equal. exact IH.
Qed.

Lemma filter_none {X} (P : X -> Prop) `{forall x, Decision (P x)} (xs : list X) :
  (forall x, ~ P x) -> filter P xs = [].
Proof.
  intros HP. induction xs as [|x xs IH]; [reflexivity|].
  rewrite filter_cons_False by auto. exact IH.
Qed.

(** CLOSE (0) is the loop of RETURN. *)
Lemma close_zero_close_all b c m :
  Op.close 0 b c m =
    (Ok tt, Op.close_all (length (_localsUsedAsUpvalues (this m))) m).
Proof.
  rewrite close_close_cells, (close_all_close_cells _ m eq_refl).
  rewrite (filter_all (fun l => (0 <= registerIndex l)%nat)) by (intros; lia).
  rewrite (filter_none (fun l => (registerIndex l < 0)%nat)) by (intros; lia).
  reflexivity.
Qed.

Lemma close_zero_closing a' b' b c m :
  fst (Op.close 0 b c m) = Ok tt /\
  snd (Op.close 0 b c m) = snd (Op.return_ a' b' m) /\
  _localsUsedAsUpvalues (this (snd (Op.close 0 b c m))) = [].
Proof.
  rewrite close_zero_close_all.
  destruct (return_closes a' b' m) as (rv & ->).
  split; [reflexivity|]. split; [reflexivity|].
  apply (close_all_spec _ m eq_refl).
Qed.

Lemma NoDup_fmap_filter {X Y} (f : X -> Y) (P : X -> Prop) `{forall x, Decision (P x)}
    (xs : list X) :
  NoDup (f <$> xs) -> NoDup (f <$> filter P xs).
Proof.
  induction xs as [|x xs IH]; [auto|].
  rewrite fmap_cons. intros [Hx Hxs]%NoDup_cons.
  destruct (decide (P x)).
  - rewrite filter_cons_True by assumption. rewrite fmap_cons. apply NoDup_cons.
    split; [|auto]. intros (y & Hy & Hin)%list_elem_of_fmap.
    apply Hx, list_elem_of_fmap. exists y. split; [exact Hy|].
    apply list_elem_of_filter in Hin. tauto.
  - rewrite filter_cons_False by assumption. auto.
Qed.

Lemma NoDup_fmap_eq {X Y} (f : X -> Y) (xs : list X) x y :
  NoDup (f <$> xs) -> x ∈ xs -> y ∈ xs -> f x = f y -> x = y.
Proof.
  induction xs as [|z zs IH]; intros Hnd Hx Hy E; [inversion Hx|].
  rewrite fmap_cons in Hnd. apply NoDup_cons in Hnd as [Hz Hzs].
  apply elem_of_cons in Hx as [->|Hx]; apply elem_of_cons in Hy as [->|Hy]; auto.
  - exfalso. apply Hz, list_elem_of_fmap. exists y. auto.
  - exfalso. apply Hz, list_elem_of_fmap. exists x. auto.
Qed.

(** Closing a list of entries: their registers are deleted, their upvalue
    objects closed, nothing else changes. *)
Lemma close_cells_spec ls m :
  let m' := close_cells ls m in
  (forall j, slot (_register (this m')) j =
             if decide (j ∈ registerIndex <$> ls) then None
             else slot (_register (this m)) j) /\
  (forall c, c ∉ upvalue_ref <$> ls -> cells m' !! c = cells m !! c) /\
  (forall l u, l ∈ ls -> cells m !! upvalue_ref l = Some u ->
     exists v, cells m' !! upvalue_ref l = Some (closed_with u v) /\
               (NoDup (registerIndex <$> ls) -> NoDup (upvalue_ref <$> ls) ->
                v = reg m (registerIndex l))).
Proof.
  set (m0 := with_this (set_locals ls) m).
  assert (Hls : _localsUsedAsUpvalues (this m0) = ls) by (destruct m as [[] ]; reflexivity).
  destruct (close_all_spec ls m0 Hls) as (_ & Hslot & Hother & Hclosed).
  rewrite (close_all_close_cells ls m0 Hls) in Hslot, Hother, Hclosed.
  unfold m0 in Hslot, Hother, Hclosed.
  rewrite close_cells_set_locals, set_locals_twice in Hslot, Hother, Hclosed.
  assert (Hr : forall x, _register (this (with_this (set_locals []) x)) = _register (this x))
    by (intros [[] ]; reflexivity).
  assert (Hc : forall x, cells (with_this (set_locals []) x) = cells x)
    by (intros [[] ]; reflexivity).
  assert (Hr0 : _register (this (with_this (set_locals ls) m)) = _register (this m))
    by (destruct m as [[] ]; reflexivity).
  assert (Hc0 : cells (with_this (set_locals ls) m) = cells m)
    by (destruct m as [[] ]; reflexivity).
  assert (Hreg : forall j, reg (with_this (set_locals ls) m) j = reg m j)
    by (intros j; destruct m as [[] ]; reflexivity).
  rewrite Hr, Hr0 in Hslot. rewrite Hc, Hc0 in Hother.
  split; [exact Hslot|]. split; [exact Hother|].
  intros l u Hin Hu. rewrite <- Hc0 in Hu.
  destruct (Hclosed l u Hin Hu) as (v & Hv & Hval).
  rewrite Hc in Hv. exists v. split; [exact Hv|].
  intros Hn1 Hn2. rewrite (Hval Hn1 Hn2). apply Hreg.
Qed.

Lemma getValue_open c u m :
  cells m !! c = Some u -> open u = true ->
  More.getValue c m = Some (reg m (up_register u)).
Proof. intros Hc Ho. unfold More.getValue. rewrite Hc, Ho. reflexivity. Qed.

Lemma getValue_closed c u m :
  cells m !! c = Some u -> open u = false ->
  More.getValue c m = Some (up_value u).
Proof. intros Hc Ho. unfold More.getValue. rewrite Hc, Ho. reflexivity. Qed.

(** In a well-formed list every upvalue shows its register. *)
Lemma captured_ok_getValue m l :
  captured_ok m -> l ∈ _localsUsedAsUpvalues (this m) ->
  More.getValue (upvalue_ref l) m = Some (reg m (registerIndex l)).
Proof.
  intros (_ & _ & Hcells) Hin. destruct (Hcells l Hin) as (u & Hu & Ho & Hr).
  rewrite (getValue_open _ _ _ Hu Ho), Hr. reflexivity.
Qed.

Lemma close_values a b c m :
  captured_ok m ->
  let m' := snd (Op.close a b c m) in
  fst (Op.close a b c m) = Ok tt /\
  _localsUsedAsUpvalues (this m') =
    filter (fun l => (registerIndex l < a)%nat) (_localsUsedAsUpvalues (this m)) /\
  captured_ok m' /\
  (forall l, l ∈ _localsUsedAsUpvalues (this m) -> (a <= registerIndex l)%nat ->
     slot (_register (this m')) (registerIndex l) = None) /\
  (forall l, l ∈ _localsUsedAsUpvalues (this m) ->
     More.getValue (upvalue_ref l) m' = More.getValue (upvalue_ref l) m).
Proof.
  intros Hok. pose proof Hok as (Hnd1 & Hnd2 & Hcells).
  rewrite close_close_cells. cbv zeta. simpl fst. simpl snd.
  set (ls := _localsUsedAsUpvalues (this m)) in *.
  set (keep := filter (fun l => (registerIndex l < a)%nat) ls).
  set (gone := filter (fun l => (a <= registerIndex l)%nat) ls).
  destruct (close_cells_spec gone m) as (Hslot & Hother & Hclosed).
  set (m1 := close_cells gone m) in *.
  assert (Hr : _register (this (with_this (set_locals keep) m1)) = _register (this m1))
    by (destruct m1 as [[] ]; reflexivity).
  assert (Hc : cells (with_this (set_locals keep) m1) = cells m1)
    by (destruct m1 as [[] ]; reflexivity).
  assert (Hl : _localsUsedAsUpvalues (this (with_this (set_locals keep) m1)) = keep)
    by (destruct m1 as [[] ]; reflexivity).
  assert (Hgone : forall l, l ∈ gone <-> (a <= registerIndex l)%nat /\ l ∈ ls)
    by (intros l; apply (list_elem_of_filter (fun l => (a <= registerIndex l)%nat))).
  assert (Hkeep : forall l, l ∈ keep <-> (registerIndex l < a)%nat /\ l ∈ ls)
    by (intros l; apply (list_elem_of_filter (fun l => (registerIndex l < a)%nat))).
  (* an entry that stays: its cell and its register are untouched *)
  assert (Hstay : forall l, l ∈ ls -> (registerIndex l < a)%nat ->
            cells m1 !! upvalue_ref l = cells m !! upvalue_ref l /\
            slot (_register (this m1)) (registerIndex l)
              = slot (_register (this m)) (registerIndex l)).
  { intros l Hin Hlt. split.
    - apply Hother. intros (k & Hk & Hkin)%list_elem_of_fmap.
      apply Hgone in Hkin as [Hka Hkin].
      assert (l = k) by (eapply (NoDup_fmap_eq upvalue_ref); eauto). subst k. lia.
    - rewrite Hslot. rewrite decide_False; [reflexivity|].
      intros (k & Hk & Hkin)%list_elem_of_fmap. apply Hgone in Hkin as [Hka _]. lia. }
  split; [reflexivity|]. split; [exact Hl|]. split; [|split].
  - unfold captured_ok. rewrite Hl, Hc.
    split; [apply NoDup_fmap_filter; exact Hnd1|].
    split; [apply NoDup_fmap_filter; exact Hnd2|].
    intros l [Hlt Hin]%Hkeep. destruct (Hcells l Hin) as (u & Hu & Ho & Hreg).
    exists u. destruct (Hstay l Hin Hlt) as [-> _]. auto.
  - intros l Hin Hge. rewrite Hr, Hslot. rewrite decide_True; [reflexivity|].
    apply list_elem_of_fmap. exists l. split; [reflexivity|]. apply Hgone. auto.
  - intros l Hin. rewrite (captured_ok_getValue m l Hok Hin).
    destruct (Hcells l Hin) as (u & Hu & Ho & Hreg).
    destruct (Nat.le_gt_cases a (registerIndex l)) as [Hge|Hlt].
    + assert (Hg : l ∈ gone) by (apply Hgone; auto).
      destruct (Hclosed l u Hg Hu) as (v & Hv & Hval).
      rewrite (getValue_closed _ (closed_with u v)) by (rewrite ?Hc; auto).
      simpl. f_equal. apply Hval; apply NoDup_fmap_filter; assumption.
    + destruct (Hstay l Hin Hlt) as [Hcell Hsl].
      rewrite (getValue_open _ u) by (rewrite ?Hc, ?Hcell; auto).
      rewrite Hreg. f_equal. rewrite !reg_slot, Hr, Hsl. reflexivity.
Qed.

Lemma return_values a b m :
  captured_ok m ->
  forall l, l ∈ _localsUsedAsUpvalues (this m) ->
    More.getValue (upvalue_ref l) (snd (Op.return_ a b m))
    = More.getValue (upvalue_ref l) m.
Proof.
  intros Hok l Hin.
  destruct (close_zero_closing a b 0 0 m) as (_ & <- & _).
  destruct (close_values 0 0 0 m Hok) as (_ & _ & _ & _ & Hval).
  apply Hval. exact Hin.
Qed.

Lemma captured_machine_ok : captured_ok captured_machine.
Proof.
  unfold captured_ok, captured_machine. simpl. split; [|split].
  - apply NoDup_cons. split; [|apply NoDup_singleton].
    intros Hin. apply list_elem_of_singleton in Hin. discriminate.
  - apply NoDup_cons. split; [|apply NoDup_singleton].
    intros Hin. apply list_elem_of_singleton in Hin. discriminate.
  - intros l Hin. apply elem_of_cons in Hin as [->|Hin].
    + eexists. simpl. repeat split; reflexivity.
    + apply list_elem_of_singleton in Hin. subst l.
      eexists. simpl. repeat split; reflexivity.
Defined.

(** CLOSE (0) does to the machine what RETURN does to it, whatever RETURN's
    operands, and every captured local is closed: the list is empty, the
    register of every entry the list had is deleted and no other register
    changes, every entry's upvalue is closed and no other upvalue changes;
    when no register and no upvalue occurred twice in the list, each upvalue
    holds the value its register had. *)
Theorem close_zero_is_the_closing_of_return a' b' b c m :
  let m' := snd (Op.close 0 b c m) in
  let ls := _localsUsedAsUpvalues (this m) in
  fst (Op.close 0 b c m) = Ok tt /\
  m' = snd (Op.return_ a' b' m) /\
  _localsUsedAsUpvalues (this m') = [] /\
  (forall j, slot (_register (this m')) j =
             if decide (j ∈ registerIndex <$> ls) then None
             else slot (_register (this m)) j) /\
  (forall u, u ∉ upvalue_ref <$> ls -> cells m' !! u = cells m !! u) /\
  (forall l u, l ∈ ls -> cells m !! upvalue_ref l = Some u ->
     exists v, cells m' !! upvalue_ref l = Some (closed_with u v) /\
               (NoDup (registerIndex <$> ls) -> NoDup (upvalue_ref <$> ls) ->
                v = reg m (registerIndex l))).
Proof.
  cbv zeta. rewrite close_zero_close_all.
  destruct (return_closes a' b' m) as (rv & ->). simpl fst. simpl snd.
  split; [reflexivity|]. split; [reflexivity|].
  exact (close_all_spec _ m eq_refl).
Qed.

(** Registers 0 and 2 of three are captured: CLOSE (0) deletes both, closes
    both upvalues on the values 10 and 30, and leaves register 1 alone. *)
Lemma close_zero_is_the_closing_of_return_witness :
  let m' := snd (Op.close 0 0 0 captured_machine) in
  {| registerIndex := 2; upvalue_ref := 1 |} ∈ _localsUsedAsUpvalues (this captured_machine) /\
  m' = snd (Op.return_ 1 2 captured_machine) /\
  slot (_register (this m')) 2 = None /\
  slot (_register (this m')) 1 = Some (num 20) /\
  exists u, cells captured_machine !! 1%nat = Some u /\
            cells m' !! 1%nat = Some (closed_with u (num 30)).
Proof.
  cbv zeta.
  assert (Hin : {| registerIndex := 2; upvalue_ref := 1 |}
                ∈ _localsUsedAsUpvalues (this captured_machine)).
  { apply elem_of_cons. right. apply list_elem_of_singleton. reflexivity. }
  destruct (close_zero_is_the_closing_of_return 1 2 0 0 captured_machine)
    as (_ & Hret & _ & Hslot & _ & Hclosed).
  split; [exact Hin|]. split; [exact Hret|].
  split; [exact (eq_trans (Hslot 2%nat) eq_refl)|].
  split; [exact (eq_trans (Hslot 1%nat) eq_refl)|].
  destruct (Hclosed _ _ Hin eq_refl) as (v & Hcell & Hv).
  eexists. split; [reflexivity|].
  destruct captured_machine_ok as (Hnd1 & Hnd2 & _).
  refine (eq_trans Hcell _). rewrite (Hv Hnd1 Hnd2). reflexivity.
Defined.

(** CLOSE (a) on a well-formed list: the entries below register [a] stay,
    in their order, and the list is well formed again; the registers of the
    other entries are deleted; and every upvalue of the list, closed or not,
    still shows the value it showed before. *)
Theorem close_keeps_upvalue_values a b c m :
  captured_ok m ->
  let m' := snd (Op.close a b c m) in
  fst (Op.close a b c m) = Ok tt /\
  _localsUsedAsUpvalues (this m') =
    filter (fun l => (registerIndex l < a)%nat) (_localsUsedAsUpvalues (this m)) /\
  captured_ok m' /\
  (forall l, l ∈ _localsUsedAsUpvalues (this m) -> (a <= registerIndex l)%nat ->
     slot (_register (this m')) (registerIndex l) = None) /\
  (forall l, l ∈ _localsUsedAsUpvalues (this m) ->
     More.getValue (upvalue_ref l) m' = More.getValue (upvalue_ref l) m).
Proof. apply close_values. Qed.

Lemma close_keeps_upvalue_values_witness :
  captured_ok captured_machine /\
  let m' := snd (Op.close 1 0 0 captured_machine) in
  _localsUsedAsUpvalues (this m') = [ {| registerIndex := 0; upvalue_ref := 0 |} ] /\
  _register (this m') = [Some (num 10); Some (num 20); None] /\
  More.getValue 0 m' = Some (num 10) /\
  More.getValue 1 m' = Some (num 30).
Proof.
  split; [exact captured_machine_ok|].
  destruct (close_keeps_upvalue_values 1 0 0 captured_machine captured_machine_ok)
    as (_ & Hlist & _ & _ & Hval).
  cbv zeta. split; [rewrite Hlist; reflexivity|]. split; [reflexivity|].
  split.
  - refine (eq_trans (Hval {| registerIndex := 0; upvalue_ref := 0 |} _) _);
      [|reflexivity].
    apply elem_of_cons. left. reflexivity.
  - refine (eq_trans (Hval {| registerIndex := 2; upvalue_ref := 1 |} _) _);
      [|reflexivity].
    apply elem_of_cons. right. apply list_elem_of_singleton. reflexivity.
Defined.

(** RETURN on a well-formed list: every upvalue of the list shows, after
    the activation has returned, the value it showed before. *)
Theorem return_keeps_upvalue_values a b m :
  captured_ok m ->
  forall l, l ∈ _localsUsedAsUpvalues (this m) ->
    More.getValue (upvalue_ref l) (snd (Op.return_ a b m))
    = More.getValue (upvalue_ref l) m.
Proof. apply return_values. Qed.

Lemma return_keeps_upvalue_values_witness :
  captured_ok captured_machine /\
  {| registerIndex := 2; upvalue_ref := 1 |} ∈ _localsUsedAsUpvalues (this captured_machine) /\
  More.getValue 1 (snd (Op.return_ 0 0 captured_machine)) = Some (num 30) /\
  slot (_register (this (snd (Op.return_ 0 0 captured_machine)))) 2 = None.
Proof.
  assert (Hin : {| registerIndex := 2; upvalue_ref := 1 |}
                ∈ _localsUsedAsUpvalues (this captured_machine)).
  { apply elem_of_cons. right. apply list_elem_of_singleton. reflexivity. }
  split; [exact captured_machine_ok|]. split; [exact Hin|]. split; [|reflexivity].
  exact (eq_trans
           (return_keeps_upvalue_values 0 0 captured_machine captured_machine_ok _ Hin)
           eq_refl).
Defined.

(** ** Upvalue objects: reading and writing *)

Lemma reg_write_reg i v m : reg (write_reg i v m) i = v.
Proof.
  rewrite reg_slot. destruct m as [[] ]; simpl.
  rewrite slot_arr_set, decide_True by reflexivity. reflexivity.
Qed.

Lemma setValue_getValue c v m u :
  cells m !! c = Some u ->
  More.getValue c (More.setValue c v m) = Some v /\
  (open u = true ->
     More.setValue c v m = write_reg (up_register u) v m) /\
  (open u = false ->
     _register (this (More.setValue c v m)) = _register (this m)).
Proof.
  intros Hc. unfold More.setValue. rewrite Hc. destruct (open u) eqn:Ho.
  - split; [|split; [reflexivity|discriminate]].
    rewrite (getValue_open c u) by (destruct m as [[] ]; auto).
    rewrite reg_write_reg. reflexivity.
  - split; [|split; [discriminate|destruct m as [[] ]; reflexivity]].
    unfold More.getValue.
    replace (cells (with_cells _ m) !! c)
      with (Some {| open := false; up_value := v; up_register := up_register u;
                    up_name := up_name u |}).
    + reflexivity.
    + symmetry. destruct m as [[] ]; simpl in *.
      apply list_lookup_insert_eq. eapply lookup_lt_Some. exact Hc.
Qed.

Lemma captured_ok_ext m m' :
  _localsUsedAsUpvalues (this m') = _localsUsedAsUpvalues (this m) ->
  cells m' = cells m ->
  captured_ok m -> captured_ok m'.
Proof. unfold captured_ok. intros -> ->. auto. Qed.

(** A value written through an upvalue of a well-formed list is what the
    upvalue shows from then on: before the activation returns, when the
    write lands in the register, and after it has returned, when the closed
    object holds it; a write after the return touches no register. *)
Theorem upvalue_write_survives_return a b m l v w :
  captured_ok m ->
  l ∈ _localsUsedAsUpvalues (this m) ->
  let m1 := More.setValue (upvalue_ref l) v m in
  let m2 := snd (Op.return_ a b m1) in
  More.getValue (upvalue_ref l) m1 = Some v /\
  reg m1 (registerIndex l) = v /\
  More.getValue (upvalue_ref l) m2 = Some v /\
  More.getValue (upvalue_ref l) (More.setValue (upvalue_ref l) w m2) = Some w /\
  _register (this (More.setValue (upvalue_ref l) w m2)) = _register (this m2).
Proof.
  intros Hok Hin m1 m2. pose proof Hok as (_ & _ & Hcells).
  destruct (Hcells l Hin) as (u & Hu & Ho & Hreg).
  destruct (setValue_getValue (upvalue_ref l) v m u Hu) as (Hget & Hopen & _).
  specialize (Hopen Ho).
  assert (Hok1 : captured_ok m1).
  { apply (captured_ok_ext m); [| |exact Hok];
      unfold m1; rewrite Hopen; destruct m as [[] ]; reflexivity. }
  assert (Hin1 : l ∈ _localsUsedAsUpvalues (this m1)).
  { unfold m1. rewrite Hopen. destruct m as [[] ]. exact Hin. }
  assert (Hget2 : More.getValue (upvalue_ref l) m2 = Some v).
  { unfold m2. rewrite (return_values a b m1 Hok1 l Hin1). exact Hget. }
  split; [exact Hget|]. split.
  { unfold m1. rewrite Hopen, <- Hreg. apply reg_write_reg. }
  split; [exact Hget2|].
  (* after the return the object is closed *)
  destruct (return_closes a b m1) as (rv & Hret).
  assert (Hm2 : m2 = Op.close_all (length (_localsUsedAsUpvalues (this m1))) m1)
    by (unfold m2; rewrite Hret; reflexivity).
  destruct (close_all_spec _ m1 eq_refl) as (_ & _ & _ & Hclosed).
  assert (Hu1 : cells m1 !! upvalue_ref l = Some u).
  { unfold m1. rewrite Hopen. destruct m as [[] ]. exact Hu. }
  destruct (Hclosed l u Hin1 Hu1) as (x & Hx & _). rewrite <- Hm2 in Hx.
  destruct (setValue_getValue (upvalue_ref l) w m2 _ Hx) as (Hg & _ & Hc).
  split; [exact Hg|]. apply Hc. reflexivity.
Qed.

Lemma upvalue_write_survives_return_witness :
  let l := {| registerIndex := 2; upvalue_ref := 1 |} in
  let m1 := More.setValue 1 (num 7) captured_machine in
  let m2 := snd (Op.return_ 0 0 m1) in
  captured_ok captured_machine /\
  l ∈ _localsUsedAsUpvalues (this captured_machine) /\
  reg m1 2 = num 7 /\
  More.getValue 1 m2 = Some (num 7) /\
  _register (this m2) = [None; Some (num 20); None].
Proof.
  intros l m1 m2.
  assert (Hin : l ∈ _localsUsedAsUpvalues (this captured_machine)).
  { apply elem_of_cons. right. apply list_elem_of_singleton. reflexivity. }
  destruct (upvalue_write_survives_return 0 0 captured_machine l (num 7) VUndefined
              captured_machine_ok Hin) as (_ & Hreg & Hget & _).
  split; [exact captured_machine_ok|]. split; [exact Hin|].
  split; [exact Hreg|]. split; [exact Hget|]. reflexivity.
Defined.

(** ** CLOSURE *)

(** What one pseudo-instruction does: nothing to the machine, or, for a
    MOVE of a register that is not captured yet, one new open upvalue
    object and one new entry of the list. *)
Lemma bind_upvalue_cases data bx i ups m :
  let r := Op.bind_upvalue data bx i ups m in
  (snd r = m /\ (fst r = Throw TypeError \/ exists x, fst r = Ok (ups ++ [x]))) \/
  (exists names,
     find (fun up => (registerIndex up =? Z.to_nat (B i))%nat)
          (_localsUsedAsUpvalues (this m)) = None /\
     functions data !! bx = Some names /\
     fst r = Ok (ups ++ [Cell (length (cells m))]) /\
     snd r = with_this (fun cl =>
               set_locals (_localsUsedAsUpvalues cl ++
                 [ {| registerIndex := Z.to_nat (B i);
                      upvalue_ref := length (cells m) |} ]) cl)
             (with_cells (fun cs =>
                cs ++ [ {| open := true; up_value := VUndefined;
                           up_register := Z.to_nat (B i);
                           up_name := names !! length ups |} ]) m)).
Proof.
  unfold Op.bind_upvalue. cbv beta iota zeta delta [bind get ret modify throw].
  destruct (op i =? 0)%nat.
  - destruct (find _ _) as [up|] eqn:Hfind.
    + left. simpl. eauto.
    + destruct (functions data !! bx) as [names|] eqn:Hf.
      * right. exists names. simpl. auto.
      * left. simpl. auto.
  - destruct (_upvalues (this m) !! Z.to_nat (B i)); left; simpl; eauto.
Qed.

Lemma bind_upvalue_pc data bx i ups m :
  _pc (this (snd (Op.bind_upvalue data bx i ups m))) = _pc (this m).
Proof.
  destruct (bind_upvalue_cases data bx i ups m) as [[-> _]|(names & _ & _ & _ & ->)];
    [reflexivity|]. destruct m as [[] ]. reflexivity.
Qed.

Lemma bind_upvalue_ok data bx i ups m :
  captured_ok m -> captured_ok (snd (Op.bind_upvalue data bx i ups m)).
Proof.
  intros Hok.
  destruct (bind_upvalue_cases data bx i ups m) as [[-> _]|(names & Hfind & _ & _ & ->)];
    [exact Hok|].
  destruct Hok as (Hnd1 & Hnd2 & Hcells).
  assert (Hlt : forall l, l ∈ _localsUsedAsUpvalues (this m) ->
                  (upvalue_ref l < length (cells m))%nat).
  { intros l Hin. destruct (Hcells l Hin) as (u & Hu & _).
    eapply lookup_lt_Some. exact Hu. }
  assert (Hnew : forall l, l ∈ _localsUsedAsUpvalues (this m) ->
                   registerIndex l <> Z.to_nat (B i)).
  { intros l Hin E. apply list_elem_of_In in Hin.
    pose proof (find_none _ _ Hfind l Hin) as Hf. simpl in Hf.
    apply Nat.eqb_neq in Hf. contradiction. }
  destruct m as [[regs pc ls ps us tm] sf cs ts fs ds dr co]. unfold captured_ok. simpl in *.
  split; [|split].
  - rewrite fmap_app. apply NoDup_app. split; [exact Hnd1|]. split; [|apply NoDup_singleton].
    intros x (l & -> & Hin)%list_elem_of_fmap Hx. apply list_elem_of_singleton in Hx.
    exact (Hnew l Hin Hx).
  - rewrite fmap_app. apply NoDup_app. split; [exact Hnd2|]. split; [|apply NoDup_singleton].
    intros x (l & -> & Hin)%list_elem_of_fmap Hx. apply list_elem_of_singleton in Hx.
    simpl in Hx. specialize (Hlt l Hin). lia.
  - intros l [Hin|Hin]%elem_of_app.
    + destruct (Hcells l Hin) as (u & Hu & Ho & Hr). exists u.
      rewrite lookup_app_l by (apply Hlt; exact Hin). auto.
    + apply list_elem_of_singleton in Hin. subst l. simpl.
      eexists. rewrite lookup_app_r by lia. rewrite Nat.sub_diag. simpl.
      repeat split; reflexivity.
Qed.

Lemma incr_pc_fields m :
  _localsUsedAsUpvalues (this (add_pc 1 m)) = _localsUsedAsUpvalues (this m) /\
  cells (add_pc 1 m) = cells m /\
  _pc (this (add_pc 1 m)) = _pc (this m) + 1.
Proof. destruct m as [[] ]. repeat split. Qed.

(** The loop of CLOSURE from [pc]: it binds one upvalue for each
    pseudo-instruction it passes and keeps the list well formed; it stops
    at an instruction that is not a pseudo-instruction, at the end of the
    code, or when [n] runs out. *)
Lemma closure_loop_spec data bx n : forall ups0 m ups m',
  Op.closure_loop data n bx ups0 m = (Ok ups, m') ->
  let p := _pc (this m) in
  let p' := _pc (this m') in
  (captured_ok m -> captured_ok m') /\
  p' = p + Z.of_nat (length ups - length ups0) /\
  (length ups0 <= length ups)%nat /\
  (forall k, p <= k < p' ->
     exists i, lookupZ (instructions data) k = Some i /\ is_pseudo i = true) /\
  (p' = p + Z.of_nat n \/
   match lookupZ (instructions data) p' with
   | Some i => is_pseudo i = false
   | None => True
   end).
Proof.
  induction n as [|n IH]; intros ups0 m ups m' Hloop; simpl in Hloop.
  - inversion Hloop; subst. cbv zeta.
    split; [auto|]. split; [rewrite Nat.sub_diag; lia|]. split; [lia|].
    split; [intros k Hk; lia|]. left. lia.
  - cbv beta iota zeta delta [bind get ret] in Hloop.
    destruct (lookupZ (instructions data) (_pc (this m))) as [i|] eqn:Hi.
    2:{ inversion Hloop; subst. cbv zeta.
        split; [auto|]. split; [rewrite Nat.sub_diag; lia|]. split; [lia|].
        split; [intros k Hk; lia|]. right. rewrite Hi. exact I. }
    fold (is_pseudo i) in Hloop. destruct (is_pseudo i) eqn:Hps.
    2:{ inversion Hloop; subst. cbv zeta.
        split; [auto|]. split; [rewrite Nat.sub_diag; lia|]. split; [lia|].
        split; [intros k Hk; lia|]. right. rewrite Hi. exact Hps. }
    pose proof (bind_upvalue_pc data bx i ups0 m) as Hpc.
    pose proof (bind_upvalue_ok data bx i ups0 m) as Hok.
    destruct (bind_upvalue_cases data bx i ups0 m) as [[_ Hres]|(names & _ & _ & Hres & _)].
    + destruct (Op.bind_upvalue data bx i ups0 m) as [[ups1|e] m1];
        simpl fst in *; simpl snd in *; [|discriminate].
      destruct Hres as [Hres|(x & Hres)]; [discriminate|]. inversion Hres; subst ups1.
      cbv beta iota zeta delta [Op.incr_pc modify] in Hloop.
      destruct (incr_pc_fields m1) as (Hl & Hc & Hp).
      destruct (IH _ (add_pc 1 m1) _ _ Hloop) as (Hok' & Hp' & Hlen & Hall & Hstop).
      rewrite length_app in Hp', Hlen. cbn [length] in Hp', Hlen.
      cbv zeta in Hp', Hall, Hstop. rewrite Hp, Hpc in Hp'.
      split; [intros H0; apply Hok', (captured_ok_ext m1); auto|].
      split; [lia|]. split; [lia|]. split.
      * intros k Hk. destruct (Z.eq_dec k (_pc (this m))) as [->|Hne]; [eauto|].
        apply Hall. rewrite Hp, Hpc. lia.
      * destruct Hstop as [Hstop|Hstop]; [left; rewrite Hstop, Hp, Hpc; lia|right; exact Hstop].
    + destruct (Op.bind_upvalue data bx i ups0 m) as [[ups1|e] m1];
        simpl fst in *; simpl snd in *; [|discriminate].
      inversion Hres; subst ups1.
      cbv beta iota zeta delta [Op.incr_pc modify] in Hloop.
      destruct (incr_pc_fields m1) as (Hl & Hc & Hp).
      destruct (IH _ (add_pc 1 m1) _ _ Hloop) as (Hok' & Hp' & Hlen & Hall & Hstop).
      rewrite length_app in Hp', Hlen. cbn [length] in Hp', Hlen.
      cbv zeta in Hp', Hall, Hstop. rewrite Hp, Hpc in Hp'.
      split; [intros H0; apply Hok', (captured_ok_ext m1); auto|].
      split; [lia|]. split; [lia|]. split.
      * intros k Hk. destruct (Z.eq_dec k (_pc (this m))) as [->|Hne]; [eauto|].
        apply Hall. rewrite Hp, Hpc. lia.
      * destruct Hstop as [Hstop|Hstop]; [left; rewrite Hstop, Hp, Hpc; lia|right; exact Hstop].
Qed.

Lemma find_app_last {X} (f : X -> bool) (xs : list X) x :
  find f xs = None -> f x = true -> find f (xs ++ [x]) = Some x.
Proof.
  induction xs as [|y ys IH]; simpl; intros Hn Hx.
  - rewrite Hx. reflexivity.
  - destruct (f y); [discriminate|]. auto.
Qed.

(** A MOVE pseudo-instruction captures a register once: the first capture
    creates an open upvalue object that shows the register, and every later
    capture of the same register, for whichever function, binds that same
    object and changes nothing. *)
Theorem closure_capture_is_shared data bx i ups ups' m names :
  captured_ok m ->
  op i = 0%nat ->
  functions data !! bx = Some names ->
  exists c m',
    Op.bind_upvalue data bx i ups m = (Ok (ups ++ [Cell c]), m') /\
    Op.bind_upvalue data bx i ups' m' = (Ok (ups' ++ [Cell c]), m') /\
    captured_ok m' /\
    More.getValue c m' = Some (reg m (Z.to_nat (B i))) /\
    _register (this m') = _register (this m).
Proof.
  intros Hok Hop Hf.
  pose proof (bind_upvalue_ok data bx i ups m Hok) as Hok'.
  unfold Op.bind_upvalue in *.
  cbv beta iota zeta delta [bind get ret modify throw] in *.
  rewrite Hop in *. simpl Nat.eqb in *. cbv iota in *.
  destruct (find _ (_localsUsedAsUpvalues (this m))) as [up|] eqn:Hfind.
  - exists (upvalue_ref up), m. rewrite Hfind.
    split; [reflexivity|]. split; [reflexivity|]. split; [exact Hok|].
    split; [|reflexivity].
    apply find_some in Hfind as [Hin Hidx]. apply Nat.eqb_eq in Hidx.
    apply list_elem_of_In in Hin.
    rewrite (captured_ok_getValue m up Hok Hin), Hidx. reflexivity.
  - rewrite Hf in *. simpl in Hok'.
    eexists; eexists. split; [reflexivity|].
    split; [|split; [exact Hok'|]].
    + destruct m as [[regs pc ls ps us tm] sf cs ts fs ds dr co]. simpl in *.
      rewrite (find_app_last _ ls {| registerIndex := Z.to_nat (B i);
                                     upvalue_ref := length cs |} Hfind)
        by (simpl; apply Nat.eqb_refl).
      reflexivity.
    + destruct m as [[regs pc ls ps us tm] sf cs ts fs ds dr co]. simpl in *.
      split; [|reflexivity]. unfold More.getValue. simpl.
      rewrite lookup_app_r by lia. rewrite Nat.sub_diag. reflexivity.
Qed.

Lemma closure_capture_is_shared_witness :
  let data := program [] 0 0 None in
  let i := {| op := 0; A := 0; B := 1; C := 0 |} in
  let m := machine_with [Some (num 10); Some (num 20)] [] in
  captured_ok m /\
  exists m',
    Op.bind_upvalue data 0 i [] m = (Ok [Cell 0], m') /\
    Op.bind_upvalue data 0 i [Delegate 3] m' = (Ok [Delegate 3; Cell 0], m') /\
    More.getValue 0 m' = Some (num 20).
Proof.
  intros data i m.
  assert (Hok : captured_ok m).
  { unfold captured_ok. simpl. split; [apply NoDup_nil_2|]. split; [apply NoDup_nil_2|].
    intros l Hin. inversion Hin. }
  split; [exact Hok|].
  destruct (closure_capture_is_shared data 0 i [] [Delegate 3] m [] Hok eq_refl eq_refl)
    as (c & m' & H1 & H2 & _ & Hget & _).
  assert (Hc : c = 0%nat) by (vm_compute in H1; inversion H1; reflexivity).
  subst c. exists m'. split; [exact H1|]. split; [exact H2|]. exact Hget.
Defined.

(** CLOSURE consumes exactly the pseudo-instructions that follow it: when
    it succeeds, the new function has one upvalue for each instruction
    between the old and the new pc, all of them MOVE or GETUPVAL with A = 0,
    and the instruction at the new pc, if there is one, is not such a
    pseudo-instruction.  The new function is stored in R[A], and a
    well-formed captured-locals list stays well formed. *)
Theorem closure_consumes_pseudo_instructions data a bx m m' :
  0 <= _pc (this m) ->
  Op.closure data a bx m = (Ok tt, m') ->
  exists ups,
    funs m' = funs m ++ [LuaFunction bx ups] /\
    reg m' a = VFunction (length (funs m)) /\
    _pc (this m') = _pc (this m) + Z.of_nat (length ups) /\
    (forall k, _pc (this m) <= k < _pc (this m') ->
       exists i, lookupZ (instructions data) k = Some i /\ is_pseudo i = true) /\
    match lookupZ (instructions data) (_pc (this m')) with
    | Some i => is_pseudo i = false
    | None => True
    end /\
    (captured_ok m -> captured_ok m').
Proof.
  intros Hpc Hclosure. unfold Op.closure in Hclosure.
  cbv beta iota zeta delta [bind get ret modify Op.set_reg] in Hclosure.
  destruct (Op.closure_loop data (length (instructions data)) bx [] m)
    as [[ups|e] m1] eqn:Hloop; [|discriminate].
  inversion Hclosure; subst m'. clear Hclosure.
  destruct (closure_loop_spec _ _ _ _ _ _ _ Hloop) as (Hok & Hp & _ & Hall & Hstop).
  cbv zeta in *. simpl length in Hp. rewrite Nat.sub_0_r in Hp.
  assert (Hf : forall x v g, _pc (this (write_reg x v (with_funs g m1))) = _pc (this m1) /\
             _localsUsedAsUpvalues (this (write_reg x v (with_funs g m1)))
               = _localsUsedAsUpvalues (this m1) /\
             cells (write_reg x v (with_funs g m1)) = cells m1 /\
             funs (write_reg x v (with_funs g m1)) = g (funs m1))
    by (intros x v g; destruct m1 as [[] ]; repeat split).
  assert (Hfuns : funs m1 = funs m).
  { clear -Hloop. revert Hloop. generalize (@nil upvalue_binding).
    generalize (length (instructions data)). intros n. revert m.
    induction n as [|n IH]; intros m ups0 Hloop; simpl in Hloop.
    - inversion Hloop. reflexivity.
    - cbv beta iota zeta delta [bind get ret] in Hloop.
      destruct (lookupZ (instructions data) (_pc (this m))) as [i|];
        [|inversion Hloop; reflexivity].
      destruct (((op i =? 0)%nat || (op i =? 4)%nat) && (A i =? 0)%nat);
        [|inversion Hloop; reflexivity].
      assert (Hb : funs (snd (Op.bind_upvalue data bx i ups0 m)) = funs m).
      { destruct (bind_upvalue_cases data bx i ups0 m)
          as [[-> _]|(names & _ & _ & _ & ->)]; [reflexivity|].
        destruct m as [[] ]. reflexivity. }
      destruct (Op.bind_upvalue data bx i ups0 m) as [[ups1|e] m2];
        simpl snd in Hb; [|discriminate].
      cbv beta iota zeta delta [Op.incr_pc modify] in Hloop.
      rewrite (IH _ _ Hloop), <- Hb. destruct m2 as [[] ]. reflexivity. }
  destruct (Hf a (VFunction (length (funs m1))) (fun fs => fs ++ [LuaFunction bx ups]))
    as (Hpc' & Hl' & Hc' & Hf').
  exists ups. rewrite Hf', Hpc', Hfuns.
  split; [reflexivity|]. split; [apply reg_write_reg|]. split; [exact Hp|].
  split; [exact Hall|]. split.
  - destruct Hstop as [Hstop|Hstop]; [|exact Hstop].
    unfold lookupZ. destruct (_ <? 0) eqn:E; [exact I|].
    rewrite lookup_ge_None_2; [exact I|]. lia.
  - intros H0. apply (captured_ok_ext m1); auto.
Qed.

(** CLOSURE (1, 0) followed by two MOVE pseudo-instructions and a RETURN. *)
Lemma closure_consumes_pseudo_instructions_witness :
  let data := program [ {| op := 36; A := 1; B := 0; C := 0 |};
                        {| op := 0; A := 0; B := 0; C := 0 |};
                        {| op := 0; A := 0; B := 0; C := 0 |};
                        {| op := 30; A := 1; B := 2; C := 0 |} ] 1 0 None in
  let m := add_pc 1 (machine_with [Some (num 10)] []) in
  exists m',
    Op.closure data 1 0 m = (Ok tt, m') /\
    funs m' = [LuaFunction 0 [Cell 0; Cell 0]] /\
    _pc (this m') = 3 /\
    reg m' 1 = VFunction 0.
Proof.
  intros data m.
  destruct (Op.closure data 1 0 m) as [[[]|e] m'] eqn:E; [|vm_compute in E; discriminate].
  destruct (closure_consumes_pseudo_instructions data 1 0 m m' ltac:(simpl; lia) E)
    as (ups & Hfuns & Hreg & _).
  exists m'. split; [reflexivity|].
  vm_compute in E. inversion E; subst m'. repeat split; reflexivity.
Defined.

(** ** CALL *)

Lemma mapM_pure {X Y} (body : X -> M Y) (g : X -> Y) xs m :
  (forall x, body x m = (Ok (g x), m)) ->
  mapM body xs m = (Ok (g <$> xs), m).
Proof.
  intros Hbody. induction xs as [|x xs IH]; simpl; [reflexivity|].
  unfold bind. rewrite Hbody, IH. reflexivity.
Qed.

(** CALL outside a resumption, step by step. *)
Lemma call_unfold H a b c m :
  not_resuming m ->
  Op.call H ThisClosure a b c m =
    if negb (js_truthy (reg m a)) || negb (Op.has_apply (reg m a))
    then (Throw Op.call_non_function, m)
    else match Op.apply_call H (reg m a) (call_arguments a b m) m with
         | (Ok r, m1) =>
             if coroutine_is Suspending m1 then (Ok tt, m1)
             else Op.splice_results ThisClosure a c (as_array r) m1
         | (Throw e, m1) => (Throw e, m1)
         end.
Proof.
  intros [Hd Hc]. unfold Op.call.
  cbv beta iota zeta delta [bind get ret Op.this_register]. rewrite Hd, Hc.
  unfold call_arguments. destruct (b =? 0)%nat.
  - rewrite (mapM_pure _ (fun i => Some (arr_get (_register (this m)) i))) by reflexivity.
    fold (reg m a).
    destruct (negb (js_truthy (reg m a)) || negb (Op.has_apply (reg m a))); [reflexivity|].
    unfold reg.
    destruct (Op.apply_call H _ _ m) as [[r|e] m1]; [|reflexivity].
    destruct r; destruct (coroutine_is Suspending m1); reflexivity.
  - rewrite (mapM_pure _ (fun i => Some (arr_get (_register (this m)) (a + i + 1))))
      by reflexivity.
    fold (reg m a).
    destruct (negb (js_truthy (reg m a)) || negb (Op.has_apply (reg m a))); [reflexivity|].
    unfold reg.
    destruct (Op.apply_call H _ _ m) as [[r|e] m1]; [|reflexivity].
    destruct r; destruct (coroutine_is Suspending m1); reflexivity.
Qed.



(** The result phase on the register array. *)
Lemma splice_results_registers a c retvals m :
  Op.splice_results ThisClosure a c retvals m =
    (Ok tt, with_this (set_register
       (if (c =? 0)%nat
        then take (a + length retvals)
               (copy_params retvals 0 a (length retvals) (_register (this m)))
        else copy_params retvals 0 a (c - 1) (_register (this m)))) m).
Proof.
  unfold Op.splice_results. destruct (c =? 0)%nat.
  - cbv beta iota zeta delta [bind].
    rewrite (forM_fold _ (fun i => write_reg (a + i) (arr_get retvals i))) by reflexivity.
    rewrite (fold_registers _ (fun i r => arr_set r (a + i) (arr_get retvals i)))
      by (intros x [[] ]; reflexivity).
    destruct m as [[] ]. reflexivity.
  - rewrite (forM_fold _ (fun i => write_reg (a + i) (arr_get retvals i))) by reflexivity.
    rewrite (fold_registers _ (fun i r => arr_set r (a + i) (arr_get retvals i)))
      by (intros x [[] ]; reflexivity).
    reflexivity.
Qed.

Lemma slot_take (xs : jsarray) n j :
  slot (take n xs) j = if decide (j < n)%nat then slot xs j else None.
Proof.
  unfold slot. destruct (decide (j < n)%nat).
  - rewrite lookup_take_lt by assumption. reflexivity.
  - rewrite lookup_take_ge by lia. reflexivity.
Qed.

Lemma length_arr_set xs i v : length (arr_set xs i v) = max (length xs) (S i).
Proof.
  unfold arr_set. destruct (Nat.ltb_spec i (length xs)).
  - rewrite length_insert. lia.
  - rewrite !length_app, length_replicate. simpl. lia.
Qed.

Lemma length_copy_params params from a n regs :
  length (copy_params params from a n regs) =
    match n with O => length regs | S _ => max (length regs) (a + n) end.
Proof.
  unfold copy_params. induction n as [|n IH]; [reflexivity|].
  rewrite seq_S, fold_left_app. simpl. rewrite length_arr_set, IH.
  destruct n; lia.
Qed.

(** CALL of a callable outside a resumption.  The callee gets R[A+1 ..
    A+B-1], or all registers above R[A] when B = 0.  If the coroutine is
    suspending when the callee comes back, no register is written.
    Otherwise, with C > 0 exactly the C-1 registers from R[A] on receive
    the results (nil where they run out) and nothing else changes; with
    C = 0 all results are stored from R[A] on and the register file ends
    behind the last of them. *)
Theorem call_passes_arguments_and_splices_results H a b c m f r m1 :
  not_resuming m ->
  reg m a = VFunction f ->
  h_apply H f (call_arguments a b m) m = (Ok r, m1) ->
  let retvals := as_array r in
  (coroutine_is Suspending m1 = true ->
     Op.call H ThisClosure a b c m = (Ok tt, m1)) /\
  (coroutine_is Suspending m1 = false ->
     exists regs,
       Op.call H ThisClosure a b c m = (Ok tt, with_this (set_register regs) m1) /\
       (c <> 0%nat ->
          (forall i, (i < c - 1)%nat -> slot regs (a + i) = Some (arr_get retvals i)) /\
          (forall j, ~ (a <= j < a + (c - 1))%nat ->
             slot regs j = slot (_register (this m1)) j)) /\
       (c = 0%nat ->
          (forall i, (i < length retvals)%nat ->
             slot regs (a + i) = Some (arr_get retvals i)) /\
          (forall j, (j < a)%nat -> slot regs j = slot (_register (this m1)) j) /\
          (length regs <= a + length retvals)%nat /\
          (retvals <> [] -> length regs = (a + length retvals)%nat))).
Proof.
  intros Hidle Hf Happly retvals.
  pose proof (call_unfold H a b c m Hidle) as Hcall.
  rewrite Hf in Hcall. simpl in Hcall. rewrite Happly in Hcall.
  split.
  - intros Hs. rewrite Hcall, Hs. reflexivity.
  - intros Hs. rewrite Hs, splice_results_registers in Hcall.
    eexists. split; [exact Hcall|]. fold retvals. clearbody retvals. split.
    + intros Hc. apply Nat.eqb_neq in Hc. rewrite Hc. split.
      * intros i Hi. rewrite slot_copy_params.
        rewrite decide_True by lia. simpl. repeat f_equal. lia.
      * intros j Hj. rewrite slot_copy_params. rewrite decide_False by lia. reflexivity.
    + intros ->. simpl Nat.eqb. cbv iota. split; [|split; [|split]].
      * intros i Hi. rewrite slot_take, decide_True by lia.
        rewrite slot_copy_params, decide_True by lia. simpl. repeat f_equal. lia.
      * intros j Hj. rewrite slot_take, decide_True by lia.
        rewrite slot_copy_params, decide_False by lia. reflexivity.
      * rewrite length_take. lia.
      * intros Hne. rewrite length_take, length_copy_params.
        destruct retvals as [|x xs]; [congruence|]. cbn [length]. lia.
Qed.

Lemma call_passes_arguments_and_splices_results_witness :
  let H := returning_host [Some (num 7); None; Some (num 9)] in
  let m := machine_with [Some (num 0); Some (VFunction 0); Some (num 1); Some (num 2)] [] in
  not_resuming m /\
  reg m 1 = VFunction 0 /\
  call_arguments 1 0 m = [Some (num 1); Some (num 2)] /\
  Op.call H ThisClosure 1 0 0 m
    = (Ok tt, with_this (set_register
                [Some (num 0); Some (num 7); Some VUndefined; Some (num 9)]) m) /\
  Op.call H ThisClosure 1 3 3 m
    = (Ok tt, with_this (set_register
                [Some (num 0); Some (num 7); Some VUndefined; Some (num 2)]) m).
Proof.
  intros H m.
  assert (Hidle : not_resuming m) by (split; reflexivity).
  split; [exact Hidle|]. split; [reflexivity|]. split; [reflexivity|].
  destruct (call_passes_arguments_and_splices_results H 1 0 0 m 0%nat
              (RArray [Some (num 7); None; Some (num 9)]) m Hidle eq_refl eq_refl)
    as (_ & Hcall).
  destruct (Hcall eq_refl) as (regs & E & _). split.
  - vm_compute. reflexivity.
  - vm_compute. reflexivity.
Defined.

(** ** Resumption *)

Lemma arr_get_copy (ys : jsarray) i :
  arr_get ((fun j => Some (arr_get ys j)) <$> seq 0 (length ys)) i = arr_get ys i.
Proof.
  unfold arr_get at 1. rewrite list_lookup_fmap.
  destruct (Nat.lt_ge_cases i (length ys)) as [Hlt|Hge].
  - rewrite lookup_seq_lt by lia. reflexivity.
  - rewrite lookup_seq_ge by lia. simpl.
    unfold arr_get. rewrite lookup_ge_None_2 by lia. reflexivity.
Qed.

Lemma copy_params_ext p1 p2 from a n regs :
  (forall i, arr_get p1 i = arr_get p2 i) ->
  copy_params p1 from a n regs = copy_params p2 from a n regs.
Proof.
  intros Hp. unfold copy_params. induction n as [|n IH]; [reflexivity|].
  rewrite seq_S, !fold_left_app. simpl. rewrite IH, Hp. reflexivity.
Qed.

(** The copy [_run] makes of the yield values is spliced like the values
    themselves. *)
Lemma splice_results_copy a c (ys : jsarray) m :
  Op.splice_results ThisClosure a c
    ((fun j => Some (arr_get ys j)) <$> seq 0 (length ys)) m
  = Op.splice_results ThisClosure a c ys m.
Proof.
  rewrite !splice_results_registers.
  rewrite length_fmap, length_seq.
  destruct (c =? 0)%nat;
    rewrite (copy_params_ext _ ys) by apply arr_get_copy; reflexivity.
Qed.

(** When a coroutine is resumed with yield values and no activation is left
    on its resume stack, [_run] makes it run again and stores the yield
    values as the results of the CALL at pc - 1: the machine is then the one
    that this CALL leaves when its callee returns those values directly. *)
Theorem resume_splices_like_a_direct_return H data m co i ys f b :
  status_eqb (debug_status m) Resuming = false ->
  Coroutine_running m = Some co ->
  co_status co = Resuming ->
  co_resumeStack co = [] ->
  co_yieldVars co = Some ys ->
  lookupZ (instructions data) (_pc (this m) - 1) = Some i ->
  let m_r := with_coroutine (Some (set_co_status Running co))
               (with_this (set_terminated false) m) in
  reg m (A i) = VFunction f ->
  h_apply H f (call_arguments (A i) b m_r) m_r = (Ok (RArray ys), m_r) ->
  Closure.resumption data m = Op.splice_results ThisClosure (A i) (C i) ys m_r /\
  Closure.resumption data m = Op.call H ThisClosure (A i) b (C i) m_r.
Proof.
  intros Hd Hco Hst Hstack Hys Hi m_r Hf Happly.
  assert (Hres : Closure.resumption data m
                 = Op.splice_results ThisClosure (A i) (C i) ys m_r).
  { unfold Closure.resumption. cbv beta iota zeta delta [bind get ret modify].
    assert (Hd' : status_eqb (debug_status (with_this (set_terminated false) m)) Resuming
                  = false) by (destruct m; exact Hd).
    assert (Hc' : coroutine_is Resuming (with_this (set_terminated false) m) = true).
    { destruct m; simpl in *. unfold coroutine_is. simpl. rewrite Hco, Hst. reflexivity. }
    assert (Hco' : Coroutine_running (with_this (set_terminated false) m) = Some co)
      by (destruct m; exact Hco).
    rewrite Hd', Hc', Hco', Hstack, Hys. fold m_r.
    assert (Hpc : _pc (this m_r) = _pc (this m)) by (destruct m as [[] ]; reflexivity).
    rewrite Hpc, Hi. apply splice_results_copy. }
  split; [exact Hres|]. rewrite Hres.
  assert (Hidle : not_resuming m_r).
  { unfold m_r. destruct m; split; [exact Hd|]. unfold coroutine_is. simpl.
    destruct co; reflexivity. }
  rewrite (call_unfold H _ b _ m_r Hidle).
  assert (Hreg : reg m_r (A i) = VFunction f) by (destruct m as [[] ]; exact Hf).
  rewrite Hreg. simpl. rewrite Happly.
  assert (Hs : coroutine_is Suspending m_r = false).
  { unfold m_r. destruct m. unfold coroutine_is. simpl. destruct co; reflexivity. }
  rewrite Hs. reflexivity.
Qed.

Lemma resume_splices_like_a_direct_return_witness :
  let H := returning_host [Some (num 9)] in
  let data := program [ {| op := 28; A := 0; B := 1; C := 2 |};
                        {| op := 30; A := 0; B := 2; C := 0 |} ] 0 0 None in
  let co := {| co_status := Resuming; co_resumeStack := [];
               co_yieldVars := Some [Some (num 9)]; co_func_instance := 1 |} in
  let m := with_coroutine (Some co) (add_pc 1 (machine_with [Some (VFunction 0)] [])) in
  Closure.resumption data m
    = (Ok tt, with_coroutine (Some (set_co_status Running co))
                (add_pc 1 (machine_with [Some (num 9)] []))) /\
  Closure._run H data 3 m
    = Some (Ok (Returned [Some (num 9)]),
            with_this (set_terminated true)
              (with_coroutine (Some (set_co_status Running co))
                 (add_pc 2 (machine_with [Some (num 9)] [])))).
Proof.
  intros H data co m.
  destruct (resume_splices_like_a_direct_return H data m co
              {| op := 28; A := 0; B := 1; C := 2 |} [Some (num 9)] 0%nat 1%nat)
    as [Hres _]; try reflexivity.
  split; [rewrite Hres|]; vm_compute; reflexivity.
Defined.

(** ** CONCAT *)

Lemma metamethod_not_table name v m :
  (forall t, v <> VTable t) -> Op.metamethod name v m = (Ok None, m).
Proof. intros Hv. destruct v; try reflexivity. exfalso. exact (Hv _ eq_refl). Qed.

Lemma concat_step_text H i t m :
  is_string_or_number (reg m i) = true ->
  More.concat_step H i (VString t) m
    = (Ok (VString (String.append (Op.to_text H (reg m i)) t)), m).
Proof.
  intros Hi. unfold More.concat_step. cbv beta iota zeta delta [bind get ret].
  rewrite metamethod_not_table by (intros t0 E; rewrite E in Hi; discriminate).
  rewrite Hi. simpl. destruct (reg m i); try discriminate; reflexivity.
Qed.

Lemma concat_loop_text H b n : forall t m,
  (forall i, (b <= i < b + n)%nat -> is_string_or_number (reg m i) = true) ->
  foldM (More.concat_step H) (rev (seq b n)) (VString t) m
    = (Ok (VString (fold_right String.append t
                      ((fun i => Op.to_text H (reg m i)) <$> seq b n))), m).
Proof.
  induction n as [|n IH]; intros t m Hregs; [reflexivity|].
  rewrite seq_S, rev_app_distr. simpl rev. simpl app. simpl foldM.
  unfold bind. rewrite concat_step_text by (apply Hregs; lia).
  rewrite IH by (intros i Hi; apply Hregs; lia).
  rewrite fmap_app, fold_right_app. reflexivity.
Qed.

(** CONCAT (A, B, C) over registers that hold strings or numbers, the last
    of them a string: R[A] receives the texts of R[B], ..., R[C] joined in
    that order, and nothing else changes. *)
Theorem concat_joins_texts_in_register_order H a b c m last :
  (b <= c)%nat ->
  reg m c = VString last ->
  (forall i, (b <= i < c)%nat -> is_string_or_number (reg m i) = true) ->
  More.concat H a b c m =
    (Ok tt, write_reg a
       (VString (fold_right String.append last
                   ((fun i => Op.to_text H (reg m i)) <$> seq b (c - b)))) m).
Proof.
  intros Hbc Hlast Hregs. unfold More.concat.
  cbv beta iota zeta delta [bind get ret]. rewrite Hlast.
  rewrite concat_loop_text by (intros i Hi; apply Hregs; lia).
  reflexivity.
Qed.

Lemma concat_joins_texts_in_register_order_witness :
  let m := machine_with [Some (VString "x = "); Some (VNumber (Finite false 125 2));
                         Some (VString "!")] [] in
  (0 <= 2)%nat /\
  reg m 2 = VString "!" /\
  More.concat idle_host 3 0 2 m = (Ok tt, write_reg 3 (VString "x = 12.5!") m).
Proof.
  intros m. split; [lia|]. split; [reflexivity|].
  rewrite (concat_joins_texts_in_register_order idle_host 3 0 2 m "!");
    [reflexivity|lia|reflexivity|].
  intros i Hi. destruct i as [|[|i]]; [reflexivity|reflexivity|lia].
Defined.

Lemma plus_string_or_number H x y : is_string_or_number (More.plus H x y) = true.
Proof. destruct x, y; reflexivity. Qed.

(** The loop of CONCAT visits R[C-1], R[C-2], ... down to R[B].  It raises
    the error, with the machine as it was, at the first operand at which the
    text so far or the operand itself is not a string or a number, if the
    operands visited until then (from the top down to R[j]) have no
    [__concat] metamethod. *)
Lemma concat_loop_error H b n : forall text m j,
  (forall i, (b <= i < b + n)%nat -> (j <= i \/ S i = b + n)%nat ->
     Op.metamethod "__concat" (reg m i) m = (Ok None, m)) ->
  ((0 < n)%nat /\ is_string_or_number text = false) \/
  ((b <= j < b + n)%nat /\ is_string_or_number (reg m j) = false) ->
  foldM (More.concat_step H) (rev (seq b n)) text m = (Throw More.concat_error, m).
Proof.
  induction n as [|n IH]; intros text m j Hmm Hbad.
  - exfalso. destruct Hbad as [[Hn _]|[Hj _]]; lia.
  - rewrite seq_S, rev_app_distr. simpl rev. simpl app. simpl foldM.
    unfold bind. unfold More.concat_step at 1.
    cbv beta iota zeta delta [bind get ret throw].
    rewrite (Hmm (b + n)%nat) by lia.
    destruct (is_string_or_number (reg m (b + n))) eqn:Ereg; [|reflexivity].
    destruct (is_string_or_number text) eqn:Etext; [|reflexivity].
    simpl. destruct Hbad as [[_ E]|[Hj E]]; [discriminate|].
    assert (j <> b + n)%nat by congruence.
    apply (IH _ m j).
    + intros i Hi Hij. apply Hmm; lia.
    + right. split; [lia|exact E].
Qed.

(** The edges of CONCAT.  Two numbers are added, not joined.  An operand
    R[j] anywhere in R[B..C] that is not a string or a number - nil, a
    boolean, a function, a table - raises the concatenation error and
    leaves the machine as it was, when the operands the loop visits until
    then (R[C-1] down to R[j]) have no [__concat] metamethod, which would
    be called in their place.  And with C <= B there is no operand to
    check: R[C] is copied to R[A] whatever it holds. *)
Theorem concat_edge_cases H a b m :
  (forall x y, reg m b = VNumber x -> reg m (S b) = VNumber y ->
     More.concat H a b (S b) m
       = (Ok tt, write_reg a (VNumber (h_arith H OpAdd x y)) m)) /\
  (forall c j, (b < c)%nat -> (b <= j <= c)%nat ->
     (forall i, (b <= i < c)%nat -> (j <= i \/ S i = c)%nat ->
        Op.metamethod "__concat" (reg m i) m = (Ok None, m)) ->
     is_string_or_number (reg m j) = false ->
     More.concat H a b c m = (Throw More.concat_error, m)) /\
  (forall c, (c <= b)%nat ->
     More.concat H a b c m = (Ok tt, write_reg a (reg m c) m)).
Proof.
  split; [|split].
  - intros x y Hx Hy. unfold More.concat.
    cbv beta iota zeta delta [bind get ret].
    replace (S b - b)%nat with 1%nat by lia. simpl rev. simpl foldM.
    unfold More.concat_step. cbv beta iota zeta delta [bind get ret].
    rewrite Hx, Hy. reflexivity.
  - intros c j Hbc Hj Hmm Hbad. unfold More.concat.
    cbv beta iota zeta delta [bind get ret].
    rewrite (concat_loop_error H b (c - b) (reg m c) m j); [reflexivity| |].
    + intros i Hi Hij. apply Hmm; lia.
    + destruct (decide (j = c)) as [->|Hne].
      * left. split; [lia|exact Hbad].
      * right. split; [lia|exact Hbad].
  - intros c Hcb. unfold More.concat.
    cbv beta iota zeta delta [bind get ret].
    replace (c - b)%nat with 0%nat by lia. reflexivity.
Qed.

(** ** EQ *)

(** EQ always compares a boolean with the flag A.  Without an applicable
    [__eq] metamethod (equal operands, operands of different type, or no
    metamethod) the boolean is the strict equality of the operands; with
    one, it is the truthiness of the metamethod's first return.  For A of 0
    or 1 the next instruction is skipped iff that boolean differs from A. *)
Theorem eq_skips_on_a_boolean H data a b c m :
  (a = 0 \/ a = 1)%nat ->
  let vb := Op.rk data m b in
  let vc := Op.rk data m c in
  ((strict_eq vb vc = true \/ typeof vb <> typeof vc \/
    Op.metamethod "__eq" vb m = (Ok None, m)) ->
   More.eq H data a b c m =
     (Ok tt, if Bool.eqb (strict_eq vb vc) (a =? 1)%nat then m else add_pc 1 m)) /\
  (forall f r m' v,
     strict_eq vb vc = false -> typeof vb = typeof vc ->
     Op.metamethod "__eq" vb m = (Ok (Some f), m) ->
     Op.apply_value H f [Some vb; Some vc] m = (Ok r, m') ->
     Op.index0 H r m' = (Ok v, m') ->
     More.eq H data a b c m =
       (Ok tt, if Bool.eqb (js_truthy v) (a =? 1)%nat then m' else add_pc 1 m')).
Proof.
  intros Ha vb vc. split.
  - intros Hcase. unfold More.eq.
    cbv beta iota zeta delta [bind get ret Op.RK Op.incr_pc modify].
    fold vb vc.
    destruct (negb (strict_eq vb vc) && String.eqb (typeof vb) (typeof vc)) eqn:Ec;
      cbv beta iota.
    + apply andb_true_iff in Ec as [E1 E2]. apply String.eqb_eq in E2.
      destruct Hcase as [E|[E|E]];
        [rewrite E in E1; discriminate|contradiction|].
      rewrite E. destruct (strict_eq vb vc), Ha as [-> | ->]; reflexivity.
    + destruct (strict_eq vb vc), Ha as [-> | ->]; reflexivity.
  - intros f r m' v Hne Hty Hmm Hap Hix. unfold More.eq.
    cbv beta iota zeta delta [bind get ret Op.RK Op.incr_pc modify].
    fold vb vc. rewrite Hne, Hty, String.eqb_refl. cbn [negb andb]. cbv beta iota.
    rewrite Hmm, Hap, Hix.
    destruct (js_truthy v), Ha as [-> | ->]; reflexivity.
Qed.

(** Two different tables whose [__eq] returns the number 5, and one table
    compared with itself. *)
Lemma eq_skips_on_a_boolean_witness :
  let data := program [] 0 0 None in
  let H := returning_host [Some (num 5)] in
  let ts := [ {| t_elements := []; t_members := ∅; t_metatable := Some 1%nat |};
              {| t_elements := []; t_members := {[ "__eq" := VFunction 0 ]};
                 t_metatable := None |} ] in
  let m := machine_with [Some (VTable 0); Some (VTable 1)] ts in
  More.eq H data 1 0 1 m = (Ok tt, m) /\
  More.eq H data 0 0 1 m = (Ok tt, add_pc 1 m) /\
  More.eq H data 1 0 0 m = (Ok tt, m).
Proof.
  intros data H ts m.
  destruct (eq_skips_on_a_boolean H data 1 0 1 m (or_intror eq_refl)) as [_ Hmm].
  destruct (eq_skips_on_a_boolean H data 1 0 0 m (or_intror eq_refl)) as [Hprim _].
  split; [|split].
  - rewrite (Hmm (VFunction 0) (RArray [Some (num 5)]) m (num 5)); reflexivity.
  - vm_compute. reflexivity.
  - rewrite Hprim; [reflexivity|]. left. reflexivity.
Defined.

(** Two numbers; a boolean in the middle of strings, below which sits a
    table with a metamethod that is never reached; a nil last operand; and
    an empty range. *)
Lemma concat_edge_cases_witness :
  let ts := [ {| t_elements := []; t_members := ∅; t_metatable := Some 1%nat |};
              {| t_elements := []; t_members := {[ "__concat" := VFunction 0 ]};
                 t_metatable := None |} ] in
  let m := machine_with [Some (num 1); Some (num 2); Some (VTable 0);
                         Some (VBoolean true); Some (VString "b"); None] ts in
  More.concat idle_host 6 0 1 m = (Ok tt, write_reg 6 (VNumber NaN) m) /\
  More.concat idle_host 6 2 4 m = (Throw More.concat_error, m) /\
  More.concat idle_host 6 4 5 m = (Throw More.concat_error, m) /\
  More.concat idle_host 6 5 4 m = (Ok tt, write_reg 6 (VString "b") m).
Proof.
  intros ts m.
  destruct (concat_edge_cases idle_host 6 0 m) as (Hnum & _ & _).
  destruct (concat_edge_cases idle_host 6 2 m) as (_ & Hmid & _).
  destruct (concat_edge_cases idle_host 6 4 m) as (_ & Hlast & _).
  destruct (concat_edge_cases idle_host 6 5 m) as (_ & _ & Hcopy).
  split; [|split; [|split]].
  - exact (Hnum _ _ eq_refl eq_refl).
  - apply (Hmid 4%nat 3%nat); [lia|lia| |reflexivity].
    intros i Hi Hij. assert (i = 3%nat) as -> by lia. reflexivity.
  - apply (Hlast 5%nat 5%nat); [lia|lia| |reflexivity].
    intros i Hi Hij. assert (i = 4%nat) as -> by lia. reflexivity.
  - apply Hcopy. lia.
Defined.

(** ** utils.toFloat and the arithmetic handlers *)

(** [toFloat] is defined on exactly the values the arithmetic handlers
    accept: on a number iff it is finite, never on nil or a boolean; and
    without a metamethod, each of the six handlers stores the operator's
    result on the two [toFloat] values when both are defined and raises the
    "non-numeric value" error otherwise, leaving the machine as it was. *)
Theorem toFloat_decides_arithmetic H data o name a b c m :
  (forall x, More.toFloat H (VNumber x) =
             if is_finite x then Some (h_parseFloat H (number_to_string x)) else None) /\
  More.toFloat H VUndefined = None /\
  (forall t, More.toFloat H (VBoolean t) = None) /\
  (Op.metamethod name (Op.rk data m b) m = (Ok None, m) ->
   Op.arith H data o name a b c m =
     match More.toFloat H (Op.rk data m b), More.toFloat H (Op.rk data m c) with
     | Some x, Some y => (Ok tt, write_reg a (VNumber (h_arith H o x y)) m)
     | _, _ => (Throw Op.non_numeric, m)
     end).
Proof.
  split; [|split; [|split]].
  - intros x. unfold More.toFloat. simpl Op.to_text.
    destruct (is_finite x) eqn:E.
    + rewrite finite_number_matches by exact E. reflexivity.
    + rewrite non_finite_number_rejected by exact E. reflexivity.
  - reflexivity.
  - intros [|]; reflexivity.
  - intros Hmm. unfold Op.arith, More.toFloat.
    cbv beta iota zeta delta [Op.RK bind get ret]. rewrite Hmm.
    destruct (matches FLOATING_POINT_PATTERN (Op.to_text H (Op.rk data m b)));
      destruct (matches FLOATING_POINT_PATTERN (Op.to_text H (Op.rk data m c)));
      reflexivity.
Qed.

Lemma toFloat_decides_arithmetic_witness :
  let data := program [] 0 0 None in
  let m := machine_with [Some (VString "1e3"); Some (VString "0x10")] [] in
  More.toFloat idle_host (VString "0x10") = None /\
  Op.arith idle_host data OpMul "__mul" 2 0 1 m = (Throw Op.non_numeric, m) /\
  Op.arith idle_host data OpMul "__mul" 2 0 0 m = (Ok tt, write_reg 2 (VNumber NaN) m).
Proof.
  intros data m.
  destruct (toFloat_decides_arithmetic idle_host data OpMul "__mul" 2 0 1 m)
    as (_ & _ & _ & H1).
  destruct (toFloat_decides_arithmetic idle_host data OpMul "__mul" 2 0 0 m)
    as (_ & _ & _ & H0).
  split; [reflexivity|]. split.
  - rewrite H1; reflexivity.
  - rewrite H0; reflexivity.
Defined.

(** The handlers reject what they store themselves: when the host's
    operator yields NaN or an infinity on two accepted operands (as [/]
    does on 0/0 and on 1/0), the handler stores that number in R[A], where
    it satisfies isNumeric, and every arithmetic handler that takes R[A] as
    its first operand raises the "non-numeric value" error. *)
Lemma arithmetic_rejects_its_own_result H data o name a b c m :
  (a < 256)%nat ->
  numeric_operand (Op.rk data m b) = true ->
  numeric_operand (Op.rk data m c) = true ->
  is_finite (h_arith H o (Op.parseFloat H (Op.rk data m b))
                         (Op.parseFloat H (Op.rk data m c))) = false ->
  exists m',
    Op.arith H data o name a b c m = (Ok tt, m') /\
    isNumeric (Op.rk data m' a) = true /\
    forall o' name' d e,
      Op.arith H data o' name' d a e m' = (Throw Op.non_numeric, m').
Proof.
  intros Ha Hb Hc Hinf. eexists. split; [apply arith_numeric; assumption|].
  assert (Hrk : forall m1 v, Op.rk data (write_reg a v m1) a = v).
  { intros m1 v. unfold Op.rk.
    destruct (Nat.leb_spec 256 a) as [|_]; [lia|]. apply reg_write_reg. }
  rewrite Hrk. split; [reflexivity|].
  intros o' name' d e. apply arith_rejects; rewrite Hrk.
  - reflexivity.
  - simpl. apply non_finite_number_rejected. exact Hinf.
Qed.

(** ** LOADNIL *)

Lemma slot_set_range v n : forall a (regs : jsarray) j,
  slot (fold_left (fun r i => arr_set r i v) (seq a n) regs) j =
    if decide (a <= j < a + n)%nat then Some v else slot regs j.
Proof.
  induction n as [|n IH]; intros a regs j.
  - simpl. rewrite decide_False by lia. reflexivity.
  - rewrite seq_S, fold_left_app. simpl. rewrite slot_arr_set, IH.
    destruct (decide (j = a + n)%nat) as [->|Hne].
    + rewrite decide_True by lia. reflexivity.
    + destruct (decide (a <= j < a + n)%nat);
        [rewrite decide_True by lia|rewrite decide_False by lia]; reflexivity.
Qed.

Lemma length_set_range v n : forall a (regs : jsarray),
  length (fold_left (fun r i => arr_set r i v) (seq a n) regs) =
    match n with O => length regs | S _ => max (length regs) (a + n) end.
Proof.
  induction n as [|n IH]; intros a regs; [reflexivity|].
  rewrite seq_S, fold_left_app. simpl. rewrite length_arr_set, IH.
  destruct n; lia.
Qed.

(** LOADNIL (A, B) stores nil in exactly the registers R[A], ..., R[B] and
    leaves the others alone; the slots are written, so the register file
    then reaches at least to R[B].  With B < A it does nothing. *)
Theorem loadnil_sets_the_range a b m :
  exists regs,
    Op.loadnil a b m = (Ok tt, with_this (set_register regs) m) /\
    (forall j, slot regs j = if decide (a <= j <= b)%nat then Some VUndefined
                             else slot (_register (this m)) j) /\
    ((a <= b)%nat -> length regs = max (length (_register (this m))) (S b)) /\
    ((b < a)%nat -> regs = _register (this m)).
Proof.
  unfold Op.loadnil, Op.set_reg.
  rewrite (forM_fold _ (fun i => write_reg i VUndefined)) by reflexivity.
  rewrite (fold_registers _ (fun i r => arr_set r i VUndefined))
    by (intros x [[] ]; reflexivity).
  eexists. split; [reflexivity|]. split; [|split].
  - intros j. rewrite slot_set_range.
    destruct (decide (a <= j < a + (S b - a))%nat);
      [rewrite decide_True by lia|rewrite decide_False by lia]; reflexivity.
  - intros Hab. rewrite length_set_range.
    destruct (S b - a)%nat eqn:E; lia.
  - intros Hba. replace (S b - a)%nat with 0%nat by lia. reflexivity.
Qed.

Lemma loadnil_sets_the_range_witness :
  let m := machine_with [Some (num 1); Some (num 2)] [] in
  Op.loadnil 1 3 m =
    (Ok tt, machine_with [Some (num 1); Some VUndefined; Some VUndefined; Some VUndefined] []) /\
  Op.loadnil 3 1 m = (Ok tt, m).
Proof.
  intros m.
  destruct (loadnil_sets_the_range 1 3 m) as (regs & E & _).
  split; vm_compute; reflexivity.
Defined.

(** ** Error frames of nested activations *)

(** An error that passes through two activations gets the prefix "Error in
    host call: " at most once, from the inner one, and carries the two
    frames in the order inner, outer behind whatever source stack it had. *)
Theorem frames_accumulate_inner_first data1 data2 e m1 m2 :
  let inner := Closure.on_error data1 e m1 in
  let outer := Closure.on_error data2 (LuaError inner) m2 in
  message outer = message inner /\
  stack outer = stack inner /\
  exists before,
    luaStack inner = Some (before ++ [Closure.frame data1 m1]) /\
    luaStack outer = Some (before ++ [Closure.frame data1 m1; Closure.frame data2 m2]) /\
    match e with
    | LuaError le => before = default [] (luaStack le) /\ message outer = message le
    | HostException h =>
        before = split_lines (default "" (h_stack h)) /\
        message outer = String.append "Error in host call: "
                          (default "undefined" (h_message h))
    end.
Proof.
  intros inner outer. split; [reflexivity|]. split; [reflexivity|].
  destruct e as [le|h].
  - exists (default [] (luaStack le)). split; [reflexivity|]. split; [|auto].
    unfold outer, inner, Closure.on_error. simpl. rewrite <- app_assoc. reflexivity.
  - exists (split_lines (default "" (h_stack h))). split; [reflexivity|]. split; [|auto].
    unfold outer, inner, Closure.on_error. simpl. rewrite <- app_assoc. reflexivity.
Qed.

Lemma frames_accumulate_inner_first_witness :
  let inner := program [ {| op := 12; A := 0; B := 0; C := 0 |} ] 0 0 None in
  let outer := program [ {| op := 28; A := 0; B := 1; C := 1 |} ] 0 0 (Some "main.lua") in
  let m := add_pc 1 (machine_with [] []) in
  luaStack (Closure.on_error outer
              (LuaError (Closure.on_error inner Op.non_numeric m)) m)
  = Some ["at function on line 1"; "at main.lua on line 1"].
Proof.
  intros inner outer m.
  destruct (frames_accumulate_inner_first inner outer Op.non_numeric m m)
    as (_ & _ & before & _ & Hout & Hb & _).
  rewrite Hout, Hb. reflexivity.
Defined.

(** ** VARARG and what surrounds it *)

Lemma vararg_slots data a b m :
  let limit := if (b =? 0)%nat
               then Z.of_nat (length (_params (this m))) - Z.of_nat (paramCount data)
               else Z.of_nat b - 1 in
  exists regs,
    Op.vararg data a b m = (Ok tt, with_this (set_register regs) m) /\
    length regs = match Z.to_nat limit with
                  | O => length (_register (this m))
                  | S _ => max (length (_register (this m))) (a + Z.to_nat limit)
                  end /\
    (forall i : nat, Z.of_nat i < limit ->
       slot regs (a + i) = Some (arr_get (_params (this m)) (paramCount data + i))) /\
    (forall j : nat, Z.of_nat a + limit <= Z.of_nat j -> slot regs j = None).
Proof.
  intros limit. pose proof (vararg_registers data a b m) as Hv.
  cbv zeta in Hv. fold limit in Hv.
  set (regs1 := copy_params (_params (this m)) (paramCount data) a (Z.to_nat limit)
                  (_register (this m))) in *.
  set (first := Z.of_nat a + limit) in *.
  set (zs := seqZ first (Z.of_nat (length regs1) - first)) in *.
  exists (delete_slots zs regs1). split; [exact Hv|].
  assert (Hin : forall j : nat, Z.of_nat j ∈ zs <->
                first <= Z.of_nat j < Z.of_nat (length regs1)).
  { intros j. unfold zs. rewrite elem_of_seqZ. lia. }
  split; [|split].
  - rewrite length_delete_slots. unfold regs1. apply length_copy_params.
  - intros i Hi. rewrite slot_delete_slots_out by (rewrite Hin; lia).
    unfold regs1. rewrite slot_copy_params.
    rewrite decide_True by lia.
    replace (a + i - a)%nat with i by lia. reflexivity.
  - intros j Hj. destruct (Z.lt_ge_cases (Z.of_nat j) (Z.of_nat (length regs1))).
    + apply slot_delete_slots_in. rewrite Hin. lia.
    + rewrite slot_delete_slots_out by (rewrite Hin; lia).
      apply slot_beyond. lia.
Qed.

(** VARARG deletes the slots behind the copied arguments but does not
    shorten the register file: a CALL with B = 0 that follows takes the file
    up to its old end, so every deleted slot above the callee's register
    is passed to the callee as an argument that is nil. *)
Theorem vararg_leaves_the_register_file_long data a b m a0 j :
  let limit := if (b =? 0)%nat
               then Z.of_nat (length (_params (this m))) - Z.of_nat (paramCount data)
               else Z.of_nat b - 1 in
  let m' := snd (Op.vararg data a b m) in
  (a0 < j)%nat ->
  (j < length (_register (this m)))%nat ->
  Z.of_nat a + limit <= Z.of_nat j ->
  (length (_register (this m)) <= length (_register (this m')))%nat /\
  (j - (a0 + 1) < length (call_arguments a0 0 m'))%nat /\
  call_arguments a0 0 m' !! (j - (a0 + 1))%nat = Some (Some VUndefined).
Proof.
  intros limit m' Ha0 Hj Hdel.
  destruct (vararg_slots data a b m) as (regs & Hv & Hlen & _ & Hgone).
  fold limit in Hlen, Hgone.
  assert (Hm' : m' = with_this (set_register regs) m) by (unfold m'; rewrite Hv; reflexivity).
  assert (Hregs : _register (this m') = regs) by (rewrite Hm'; destruct m as [[] ]; reflexivity).
  assert (Hle : (length (_register (this m)) <= length regs)%nat).
  { rewrite Hlen. destruct (Z.to_nat limit); lia. }
  rewrite Hregs. split; [exact Hle|].
  unfold call_arguments. simpl Nat.eqb. cbv iota. rewrite Hregs.
  split; [rewrite length_fmap, length_seq; lia|].
  rewrite list_lookup_fmap, lookup_seq_lt by lia. simpl.
  replace (a0 + 1 + (j - (a0 + 1)))%nat with j by lia.
  rewrite reg_slot, Hregs, (Hgone j Hdel). reflexivity.
Qed.

(** f (...) in a function called with (10, 20) whose register file is five
    slots long: g is called with four arguments, not two. *)
Lemma vararg_leaves_the_register_file_long_witness :
  let data := program [] 0 0 None in
  let m := with_this (set_params [Some (num 10); Some (num 20)])
             (machine_with [Some (VFunction 0); Some (num 1); Some (num 2);
                            Some (num 3); Some (num 4)] []) in
  let m' := snd (Op.vararg data 1 0 m) in
  call_arguments 0 0 m' = [Some (num 10); Some (num 20); Some VUndefined; Some VUndefined] /\
  call_arguments 0 0 m' !! 3%nat = Some (Some VUndefined).
Proof.
  intros data m m'. split; [reflexivity|].
  destruct (vararg_leaves_the_register_file_long data 1 0 m 0%nat 4%nat) as (_ & _ & Harg).
  - lia.
  - simpl. lia.
  - simpl. lia.
  - exact Harg.
Defined.

(** VARARG (A, 0) in an activation entered with at least paramCount
    arguments stores from R[A] on exactly the arguments that [execute]
    left in the caller's array, whatever the registers held before. *)
Theorem vararg_yields_the_surplus_of_the_call data xs m0 m a :
  (paramCount data <= length xs)%nat ->
  _params (this m) = _params (this (fst (Closure.execute_entry data xs m0))) ->
  let surplus := snd (Closure.execute_entry data xs m0) in
  exists regs,
    Op.vararg data a 0 m = (Ok tt, with_this (set_register regs) m) /\
    (forall i, (i < length surplus)%nat ->
       slot regs (a + i) = Some (arr_get surplus i)) /\
    (forall j, (a + length surplus <= j)%nat -> slot regs j = None).
Proof.
  intros Hlen Hparams surplus.
  destruct (execute_entry_state data xs m0) as (_ & Hp & Hs & _).
  fold surplus in Hs. rewrite Hp in Hparams.
  destruct (vararg_slots data a 0 m) as (regs & Hv & _ & Hcopy & Hgone).
  simpl Nat.eqb in Hcopy, Hgone. cbv iota in Hcopy, Hgone. rewrite Hparams in Hcopy, Hgone.
  exists regs. split; [exact Hv|].
  assert (Hsl : length surplus = (length xs - paramCount data)%nat)
    by (rewrite Hs; apply length_drop).
  split.
  - intros i Hi. rewrite Hcopy by lia. f_equal.
    rewrite Hs. unfold arr_get. rewrite lookup_drop. reflexivity.
  - intros j Hj. apply Hgone. lia.
Qed.

Lemma vararg_yields_the_surplus_of_the_call_witness :
  let data := program [] 1 0 None in
  let xs := [Some (num 10); Some (num 20); Some (num 30)] in
  let m := fst (Closure.execute_entry data xs (machine_with [] [])) in
  (paramCount data <= length xs)%nat /\
  snd (Closure.execute_entry data xs (machine_with [] [])) = [Some (num 20); Some (num 30)] /\
  Op.vararg data 2 0 m =
    (Ok tt, with_this (set_register [Some (num 10); None; Some (num 20); Some (num 30)]) m).
Proof.
  intros data xs m. split; [simpl; lia|]. split; [reflexivity|].
  destruct (vararg_yields_the_surplus_of_the_call data xs (machine_with [] []) m 2)
    as (regs & E & _); [simpl; lia|reflexivity|].
  vm_compute. reflexivity.
Defined.

(** ** LT and LE, TEST and TESTSET *)

(** On two different tables of which the left one has a [__le] metamethod,
    LT and LE are the same operation: both call [__le] on the operands and
    compare its first return with A.  On a table compared with itself LE
    does not call the metamethod but takes the host's [<=]. *)
Theorem lt_and_le_coincide_on_tables H less_eq data a b c m :
  (forall t1 t2 f,
     Op.rk data m b = VTable t1 -> Op.rk data m c = VTable t2 -> t1 <> t2 ->
     Op.metamethod "__le" (VTable t1) m = (Ok (Some f), m) ->
     Relational.le H less_eq data a b c m = Op.lt H data a b c m) /\
  (forall t, (a = 0 \/ a = 1)%nat ->
     Op.rk data m b = VTable t -> Op.rk data m c = VTable t ->
     Relational.le H less_eq data a b c m =
       (Ok tt, if Bool.eqb (less_eq (VTable t) (VTable t)) (a =? 1)%nat
               then m else add_pc 1 m)).
Proof.
  split.
  - intros t1 t2 f Hb Hc Hne Hmm. unfold Relational.le, Op.lt.
    cbv beta iota zeta delta [bind get ret Op.RK]. rewrite Hb, Hc.
    unfold strict_eq. apply Nat.eqb_neq in Hne. rewrite Hne.
    cbn [negb andb typeof]. rewrite String.eqb_refl. cbv beta iota.
    rewrite Hmm. reflexivity.
  - intros t Ha Hb Hc. unfold Relational.le.
    cbv beta iota zeta delta [bind get ret Op.RK Op.incr_pc modify]. rewrite Hb, Hc.
    unfold strict_eq. rewrite Nat.eqb_refl. cbn [negb andb]. cbv beta iota.
    destruct (less_eq (VTable t) (VTable t)), Ha as [-> | ->]; reflexivity.
Qed.

Lemma lt_and_le_coincide_on_tables_witness :
  let data := program [] 0 0 None in
  let H := returning_host [Some (VBoolean true)] in
  let m := machine_with [Some (VTable 0); Some (VTable 1)] table_with_le in
  Relational.le H (fun _ _ => false) data 1 0 1 m = Op.lt H data 1 0 1 m /\
  Op.lt H data 1 0 1 m = (Ok tt, m) /\
  Relational.le H (fun _ _ => false) data 1 0 0 m = (Ok tt, add_pc 1 m).
Proof.
  intros data H m.
  destruct (lt_and_le_coincide_on_tables H (fun _ _ => false) data 1 0 1 m) as [Hsame _].
  destruct (lt_and_le_coincide_on_tables H (fun _ _ => false) data 1 0 0 m) as [_ Hself].
  split; [|split].
  - apply (Hsame 0%nat 1%nat (VFunction 0)); try reflexivity. lia.
  - reflexivity.
  - rewrite (Hself 0%nat); try reflexivity. right. reflexivity.
Defined.

(** TEST and TESTSET decide the skip alike on every value except the number
    zero and the empty string, on which they always decide differently. *)
Theorem test_and_testset_differ_on_zero_and_empty_string a b c x m :
  let after_test := _pc (this (snd (Op.test a b c m))) in
  let after_testset := _pc (this (snd (Op.testset x a c m))) in
  (is_zero (reg m a) || is_empty_string (reg m a) = false ->
     after_test = after_testset) /\
  (is_zero (reg m a) || is_empty_string (reg m a) = true ->
     after_test <> after_testset).
Proof.
  assert (Hw : forall v, _pc (this (write_reg x v m)) = _pc (this m))
    by (intros v; destruct m as [[] ]; reflexivity).
  assert (Hp : _pc (this (add_pc 1 m)) = _pc (this m) + 1)
    by (destruct m as [[] ]; reflexivity).
  cbv zeta. rewrite testset_host_truthiness. unfold Op.test.
  cbv beta iota zeta delta [bind get ret Op.incr_pc modify].
  split; intros E; rewrite E.
  - destruct (js_truthy (reg m a)), (c =? 0)%nat; simpl; rewrite ?Hw, ?Hp; reflexivity.
  - assert (Hf : js_truthy (reg m a) = false).
    { destruct (reg m a) as [ | | [ | | | ] |s| | ]; try discriminate; try reflexivity.
      simpl in E. simpl. rewrite E. reflexivity. }
    rewrite Hf. destruct (c =? 0)%nat; simpl; rewrite ?Hw, ?Hp; lia.
Qed.

Lemma test_and_testset_differ_on_zero_and_empty_string_witness :
  let m := machine_with [Some (num 0); Some (VString "a")] [] in
  _pc (this (snd (Op.test 0 0 1 m))) = 0 /\
  _pc (this (snd (Op.testset 5 0 1 m))) = 1 /\
  _pc (this (snd (Op.test 1 0 1 m))) = _pc (this (snd (Op.testset 5 1 1 m))).
Proof.
  intros m.
  destruct (test_and_testset_differ_on_zero_and_empty_string 1 0 1 5 m) as [Hsame _].
  split; [reflexivity|]. split; [reflexivity|].
  apply Hsame. reflexivity.
Defined.
